(** * Pipeline execution engine: batch primitives, the [slice] operator,
      the [write]/[to] operators and the execution node.

    The development follows the sources

      - [libvast/src/execution_node.cpp], in the modules [Batch] and
        [ExecNode];
      - [libtenzir/builtins/operators/slice.cpp], in the module [Slice];
      - [libvast/builtins/operators/write_to.cpp], in the module [WriteTo].

    The module [Caf] holds the errors all three share, the module [Examples]
    the concrete nodes and plugins the properties are tried on.

    Unsigned 64-bit counters are integers in [Z] reduced modulo [2^64] after
    every addition and subtraction.  The signed 64-bit arithmetic of the
    [slice] operator is written with exact integers: signed overflow has no
    defined result in the source language. *)

From Stdlib Require Import Strings.String Strings.Byte.
From Stdlib Require Import ZArith List Lia Bool.
Import ListNotations.
Open Scope Z_scope.

(* ================================================================= *)
(** * Machine integers *)

Definition two64 : Z := 18446744073709551616.

(** [uint64_t] arithmetic: the result of [+], [-], [+=], [-=]. *)
Definition u64 (x : Z) : Z := x mod two64.

(** The binary SI literals [_Ki] and [_Mi] of [si_literals.hpp]. *)
Definition Ki (n : Z) : Z := n * 1024.
Definition Mi (n : Z) : Z := n * 1024 * 1024.

(* ================================================================= *)
(** * Batch primitives *)

Module Batch.

(** A [chunk_ptr] is a possibly null pointer to an immutable byte buffer. *)
Definition chunk_ptr : Type := option (list byte).

Definition null_chunk : chunk_ptr := None.

(** The bytes a chunk pointer gives access to; none through a null pointer. *)
Definition bytes_of (chunk : chunk_ptr) : list byte :=
  match chunk with
  | Some b => b
  | None => []
  end.

(** Modelled from the spec: [chunk::slice(start, length)] is declared in
    [chunk.hpp], which is not part of the sources at hand.  The spec describes
    a zero-copy view of the bytes [start, start + length). *)
Definition chunk_slice (b : list byte) (start length : Z) : chunk_ptr :=
  Some (firstn (Z.to_nat length) (skipn (Z.to_nat start) b)).

(** [size(const chunk_ptr&)]: [chunk ? chunk->size() : 0]. *)
Definition chunk_size (chunk : chunk_ptr) : Z :=
  match chunk with
  | Some b => Z.of_nat (length b)
  | None => 0
  end.

(** [split(const chunk_ptr&, size_t)]. *)
Definition chunk_split (chunk : chunk_ptr) (partition_point : Z)
  : chunk_ptr * chunk_ptr :=
  if partition_point =? 0 then (null_chunk, chunk)
  else if chunk_size chunk <=? partition_point then (chunk, null_chunk)
  else
    (chunk_slice (bytes_of chunk) 0 partition_point,
     chunk_slice (bytes_of chunk) partition_point
                 (chunk_size chunk - partition_point)).

(** Modelled from the spec: [table_slice] lives in [table_slice.hpp], which is
    not part of the sources at hand.  A batch of events reports a row count and
    supports zero-copy slicing [begin, end); it is modelled by the list of its
    rows, the rows being values of an arbitrary type. *)
Definition table_slice (row : Type) : Type := list row.

Section TableSlice.
Context {row : Type}.

(** [table_slice::rows()]. *)
Definition rows (slice : table_slice row) : Z := Z.of_nat (length slice).

(** The default-constructed [table_slice{}], which has no rows. *)
Definition empty_slice : table_slice row := [].

(** Modelled from the spec: [subslice(slice, begin, end)] keeps the rows at
    the positions [i] with [begin <= i < end]. *)
Definition subslice (slice : table_slice row) (begin_ end_ : Z)
  : table_slice row :=
  skipn (Z.to_nat begin_) (firstn (Z.to_nat end_) slice).

(** Modelled from the spec: the single-batch [split(table_slice, n)] returns
    the prefix of [n] rows and the remainder. *)
Definition slice_split (slice : table_slice row) (partition_point : Z)
  : table_slice row * table_slice row :=
  (subslice slice 0 partition_point,
   subslice slice partition_point (rows slice)).
End TableSlice.

(** The element types of a pipeline, [table_slice] and [chunk_ptr], share the
    overloaded functions [size] and [split] and the constants of the
    [defaults<Element>] specialisations. *)
Class Element (T : Type) : Type := {
  size : T -> Z;
  split : T -> Z -> T * T;
  (** the value-initialised element [T{}] *)
  empty : T;
  max_batch_size : Z;
  min_batch_size : Z;
  max_buffered : Z
}.

#[export] Instance chunk_element : Element chunk_ptr := {
  size := chunk_size;
  split := chunk_split;
  empty := null_chunk;
  max_batch_size := Mi 1;
  min_batch_size := Ki 128;
  max_buffered := Mi 4
}.

#[export] Instance slice_element (row : Type) : Element (table_slice row) := {
  size := rows;
  split := slice_split;
  empty := empty_slice;
  max_batch_size := Ki 64;
  min_batch_size := Ki 8;
  max_buffered := Ki 254
}.

Section VectorSplit.
Context {T : Type} `{Element T}.

(** The sum of the sizes of the elements of a vector, as an exact integer. *)
Definition total (xs : list T) : Z :=
  fold_right (fun x acc => size x + acc) 0 xs.

(** [std::transform_reduce(.., uint64_t{}, std::plus{}, size)]: the same
    sum accumulated in a [uint64_t]. *)
Definition total64 (xs : list T) : Z :=
  fold_left (fun acc x => u64 (acc + size x)) xs 0.

(** [split(std::vector<chunk_ptr>, uint64_t)].  The loop over the iterator
    [it] is the recursion on the vector; the elements before [it] are the
    ones consed onto the left-hand side on the way back.

    Modelled from the spec for [std::vector<table_slice>], whose overload is
    defined next to [table_slice]: it partitions along the element boundary
    and splits the straddling element with the single-element [split]. *)
Fixpoint split_vec (chunks : list T) (partition_point : Z)
  : list T * list T :=
  match chunks with
  | [] => ([], [])
  | x :: rest =>
      if partition_point =? size x then ([x], rest)
      else if partition_point <? size x then
        let '(split_lhs, split_rhs) := split x partition_point in
        ([split_lhs], split_rhs :: rest)
      else
        let '(lhs, rhs) := split_vec rest (partition_point - size x) in
        (x :: lhs, rhs)
  end.
End VectorSplit.

(** What an element contributes to the stream: the bytes of a chunk. *)
Definition content (chunks : list chunk_ptr) : list byte :=
  flat_map bytes_of chunks.

(** The vector split cuts along an element boundary: either between two
    elements, or inside the one element that straddles the partition point,
    which the single-element [split] divides. *)
Definition along_boundary {T : Type} `{Element T}
  (chunks : list T) (partition_point : Z) (lhs rhs : list T) : Prop :=
  (exists pre post,
      chunks = pre ++ post /\ lhs = pre /\ rhs = post
      /\ total pre = Z.min partition_point (total chunks))
  \/ (exists pre x post,
        chunks = pre ++ x :: post
        /\ total pre <= partition_point < total pre + size x
        /\ lhs = pre ++ [fst (split x (partition_point - total pre))]
        /\ rhs = snd (split x (partition_point - total pre)) :: post).

(** What the engine relies on for an element type: sizes are counts, the
    value-initialised element is empty, [split] cuts at the partition point,
    and the buffer bound fits a counter with room to spare. *)
Class ElementLaws (T : Type) `{Element T} : Prop := {
  size_nonneg : forall x : T, 0 <= size x;
  size_empty : size (empty : T) = 0;
  split_sizes : forall (x : T) (n : Z),
      0 <= n ->
      size (fst (split x n)) = Z.min n (size x)
      /\ size (snd (split x n)) = size x - Z.min n (size x);
  max_buffered_range : 0 < (max_buffered : Z) <= 4294967296
}.

End Batch.


(* ================================================================= *)
(** * The [slice] operator *)

Module Slice.
Import Batch.

Section SliceOperator.
Context {row : Type}.

Local Abbreviation batch := (table_slice row).

(** A [generator<table_slice>] is modelled by the list of the batches it
    yields; a generator function maps the list its input yields to the list it
    yields itself.  A [break] out of the loop over the input leaves the rest of
    the input unread. *)

(** Modelled from the spec: what [result.rows()] sees after [result] has been
    moved into the buffer depends on the move constructor of [table_slice]
    ([table_slice.hpp] is not part of the sources at hand), so the moved-from
    value is a parameter. *)
Variable moved_from : batch -> batch.

(** The loop of [positive_begin_positive_end]; [offset] is the loop-carried
    variable. *)
Fixpoint pp_loop (input : list batch) (begin_ end_ offset : Z) : list batch :=
  match input with
  | [] => []
  | slice :: input' =>
      if rows slice =? 0 then empty_slice :: pp_loop input' begin_ end_ offset
      else
        let clamped_begin := Z.max 0 (begin_ - offset) in
        let clamped_end := Z.min (rows slice) (end_ - offset) in
        let result := subslice slice clamped_begin clamped_end in
        let offset := offset + rows slice in
        result :: (if end_ <=? offset then []
                   else pp_loop input' begin_ end_ offset)
  end.

Definition positive_begin_positive_end
  (input : list batch) (begin_ end_ : Z) : list batch :=
  if end_ <=? begin_ then [] else pp_loop input begin_ end_ 0.

(** First loop of [positive_begin_negative_end]: returns the yields, the final
    [offset] and the final [buffer]. *)
Fixpoint pn_fill (input : list batch) (begin_ offset : Z) (buffer : list batch)
  : list batch * (Z * list batch) :=
  match input with
  | [] => ([], (offset, buffer))
  | slice :: input' =>
      if rows slice =? 0 then
        let '(yields, final) := pn_fill input' begin_ offset buffer in
        (empty_slice :: yields, final)
      else
        let clamped_begin := Z.max 0 (begin_ - offset) in
        let result := subslice slice clamped_begin (rows slice) in
        let buffer := if 0 <? rows result then buffer ++ [result] else buffer in
        pn_fill input' begin_ (offset + rows slice) buffer
  end.

(** Second loop of [positive_begin_negative_end]. *)
Fixpoint pn_drain (buffer : list batch) (end_ offset : Z) : list batch :=
  match buffer with
  | [] => []
  | slice :: buffer' =>
      let clamped_end := Z.min (rows slice) (end_ - offset) in
      let result := subslice slice 0 clamped_end in
      if rows result =? 0 then []
      else result :: pn_drain buffer' end_ (offset + rows slice)
  end.

Definition positive_begin_negative_end
  (input : list batch) (begin_ end_ : Z) : list batch :=
  let '(yields, (offset, buffer)) := pn_fill input begin_ 0 [] in
  let end_ := offset + end_ - begin_ in
  if end_ <? 0 then yields else yields ++ pn_drain buffer end_ 0.

(** First loop of [negative_begin_positive_end].  The test that leaves the
    loop reads [result] after it has been moved into the buffer. *)
Fixpoint np_fill (input : list batch) (end_ offset : Z) (buffer : list batch)
  : list batch * (Z * list batch) :=
  match input with
  | [] => ([], (offset, buffer))
  | slice :: input' =>
      if rows slice =? 0 then
        let '(yields, final) := np_fill input' end_ offset buffer in
        (empty_slice :: yields, final)
      else
        let clamped_end := Z.min (rows slice) (end_ - offset) in
        let offset := offset + rows slice in
        let result := subslice slice 0 clamped_end in
        let buffer := buffer ++ [result] in
        if rows (moved_from result) =? 0 then ([], (offset, buffer))
        else np_fill input' end_ offset buffer
  end.

(** Second loop of [negative_begin_positive_end]. *)
Fixpoint np_drain (buffer : list batch) (begin_ offset : Z) : list batch :=
  match buffer with
  | [] => []
  | slice :: buffer' =>
      let clamped_begin := Z.max 0 (begin_ - offset) in
      let offset := offset + rows slice in
      if rows slice <=? clamped_begin then np_drain buffer' begin_ offset
      else
        let result := subslice slice clamped_begin (rows slice) in
        if 0 <? rows result then result :: np_drain buffer' begin_ offset
        else np_drain buffer' begin_ offset
  end.

Definition negative_begin_positive_end
  (input : list batch) (begin_ end_ : Z) : list batch :=
  let '(yields, (offset, buffer)) := np_fill input end_ 0 [] in
  let begin_ := offset + begin_ in
  if offset <=? begin_ then yields else yields ++ np_drain buffer begin_ 0.

(** First loop of [negative_begin_negative_end]. *)
Fixpoint nn_fill (input : list batch) (offset : Z) (buffer : list batch)
  : list batch * (Z * list batch) :=
  match input with
  | [] => ([], (offset, buffer))
  | slice :: input' =>
      if rows slice =? 0 then
        let '(yields, final) := nn_fill input' offset buffer in
        (empty_slice :: yields, final)
      else nn_fill input' (offset + rows slice) (buffer ++ [slice])
  end.

(** Second loop of [negative_begin_negative_end]. *)
Fixpoint nn_drain (buffer : list batch) (begin_ end_ offset : Z) : list batch :=
  match buffer with
  | [] => []
  | slice :: buffer' =>
      let clamped_begin := Z.max 0 (begin_ - offset) in
      let clamped_end := Z.min (rows slice) (end_ - offset) in
      let offset := offset + rows slice in
      if rows slice <=? clamped_begin then nn_drain buffer' begin_ end_ offset
      else
        let result := subslice slice clamped_begin clamped_end in
        if rows result =? 0 then []
        else result :: nn_drain buffer' begin_ end_ offset
  end.

Definition negative_begin_negative_end
  (input : list batch) (begin_ end_ : Z) : list batch :=
  if end_ <=? begin_ then []
  else
    let '(yields, (offset, buffer)) := nn_fill input 0 [] in
    yields ++ nn_drain buffer (offset + begin_) (offset + end_) 0.

(** [std::optional<int64_t>::value_or]. *)
Definition value_or (x : option Z) (d : Z) : Z :=
  match x with
  | Some v => v
  | None => d
  end.

(** [slice_operator::operator()], for the members [begin_] and [end_]. *)
Definition slice_operator (begin_ end_ : option Z) (input : list batch)
  : list batch :=
  match begin_, end_ with
  | None, None => input
  | _, _ =>
      if match begin_ with None => true | Some b => 0 <=? b end then
        match end_ with
        | Some e =>
            if 0 <=? e then
              positive_begin_positive_end input (value_or begin_ 0) e
            else
              positive_begin_negative_end input (value_or begin_ 0)
                                          (value_or end_ 0)
        | None =>
            positive_begin_negative_end input (value_or begin_ 0)
                                        (value_or end_ 0)
        end
      else
        match end_ with
        | Some e =>
            if 0 <=? e then
              negative_begin_positive_end input (value_or begin_ 0) e
            else
              negative_begin_negative_end input (value_or begin_ 0)
                                          (value_or end_ 0)
        | None =>
            negative_begin_negative_end input (value_or begin_ 0)
                                        (value_or end_ 0)
        end
  end.

End SliceOperator.

(** The rows a stream of batches carries, in order. *)
Definition stream_rows {row : Type} (batches : list (table_slice row))
  : list row :=
  concat batches.

(** The rows at the global positions [lo <= i < hi] of a stream. *)
Definition rows_at {row : Type} (l : list row) (lo hi : Z) : list row :=
  skipn (Z.to_nat lo) (firstn (Z.to_nat hi) l).

End Slice.


(* ================================================================= *)
(** * Errors *)

Module Caf.

(** The error codes the sources at hand produce or test for: the [ec] codes,
    [caf::sec::request_receiver_down], and any other code. *)
Inductive error_code : Type :=
| unspecified
| logic_error
| syntax_error
| invalid_configuration
| invalid_argument
| silent
| request_receiver_down
| other_code (n : nat).

(** A [caf::error] other than [caf::none]: a code and a message. *)
Record error : Type := make_error {
  code : error_code;
  context : string
}.

(** [caf::expected<T>]. *)
Definition expected (A : Type) : Type := (error + A)%type.

Definition error_code_eqb (a b : error_code) : bool :=
  match a, b with
  | unspecified, unspecified => true
  | logic_error, logic_error => true
  | syntax_error, syntax_error => true
  | invalid_configuration, invalid_configuration => true
  | invalid_argument, invalid_argument => true
  | silent, silent => true
  | request_receiver_down, request_receiver_down => true
  | other_code n, other_code m => Nat.eqb n m
  | _, _ => false
  end.

(** [error == code]: an error equals a code when it carries that code. *)
Definition has_code (e : error) (c : error_code) : bool :=
  error_code_eqb (code e) c.

End Caf.

(* ================================================================= *)
(** * The [write] and [to] operators *)

Module WriteTo.
Import Caf.

Section Plugins.

(** The options that accompany the name of a default saver or printer. *)
Variable record : Type.

(** The part of a [printer_plugin] that [make_operator] reads. *)
Record printer_plugin : Type := {
  printer_name : string;
  printer_allows_joining : bool;
  make_default_saver : option (string * record)
}.

(** The part of a [saver_plugin] that [make_operator] reads. *)
Record saver_plugin : Type := {
  saver_name : string;
  saver_requires_joining : bool;
  make_default_printer : option (string * record)
}.

(** The operators this file constructs; [pipeline] is [class pipeline]
    built from a vector of operators. *)
#[warnings="-register-all"]
Inductive operator : Type :=
| print_operator (printer : printer_plugin)
| save_operator (saver : saver_plugin)
| print_save_operator (printer : printer_plugin) (saver : saver_plugin)
| pipeline (ops : list operator).

(** [plugins::find<printer_plugin>] and [plugins::find<saver_plugin>]. *)
Variable find_printer : string -> option printer_plugin.
Variable find_saver : string -> option saver_plugin.

(** The parsers [p] of the two plugins are built from [parsers::], which is
    not part of the sources at hand.  Applied to the operator text, each
    leaves the unparsed rest [f, l) and either fails or fills [result]: a
    plugin name and, optionally, the keyword with a second plugin name. *)
Variable parse_write : string -> string * option (string * option (string * string)).
Variable parse_to : string -> string * option (string * option (string * string)).

Definition fmt1 (before x after : string) : string :=
  (before ++ x ++ after)%string.

Definition not_allowed_message (printer saver : string) : string :=
  ("writing '" ++ printer ++ "' to '" ++ saver
   ++ "' is not allowed; the sink '" ++ saver
   ++ "' requires a single input, and the format '" ++ printer
   ++ "' has potentially multiple outputs")%string.

(** [write_plugin::make_operator]. *)
Definition write_make_operator (pipeline_text : string)
  : string * expected operator :=
  let '(rest, result) := parse_write pipeline_text in
  match result with
  | None =>
      (rest, inl (make_error syntax_error
                    (fmt1 "failed to parse write operator: '" pipeline_text "'")))
  | Some (printer_name_, saver_argument) =>
      match find_printer printer_name_ with
      | None =>
          (rest, inl (make_error syntax_error
                        (fmt1 "failed to parse write operator: no '"
                              printer_name_ "' printer found")))
      | Some printer =>
          let saver_lookup : expected saver_plugin :=
            match saver_argument with
            | Some (_, saver_name_) =>
                match find_saver saver_name_ with
                | None =>
                    inl (make_error syntax_error
                           (fmt1 "failed to parse write operator: no '"
                                 saver_name_ "' saver found"))
                | Some saver => inr saver
                end
            | None =>
                match make_default_saver printer with
                | None =>
                    inl (make_error invalid_configuration
                           (fmt1 "failed to parse write operator: no available default sink for printing '"
                                 (printer_name printer) "' output found"))
                | Some (default_saver_name, _) =>
                    match find_saver default_saver_name with
                    | None =>
                        inl (make_error invalid_configuration
                               ("failed to parse write operator: default sink '"
                                ++ default_saver_name ++ "' for printing '"
                                ++ printer_name printer ++ "' output found")%string)
                    | Some saver => inr saver
                    end
                end
            end in
          match saver_lookup with
          | inl e => (rest, inl e)
          | inr saver =>
              if saver_requires_joining saver
                 && negb (printer_allows_joining printer)
              then
                (rest, inl (make_error invalid_argument
                              (not_allowed_message (printer_name printer)
                                                   (saver_name saver))))
              else if negb (saver_requires_joining saver) then
                (rest, inr (print_save_operator printer saver))
              else
                (rest, inr (pipeline [print_operator printer;
                                      save_operator saver]))
          end
      end
  end.

(** [to_plugin::make_operator]. *)
Definition to_make_operator (pipeline_text : string)
  : string * expected operator :=
  let '(rest, result) := parse_to pipeline_text in
  match result with
  | None =>
      (rest, inl (make_error syntax_error
                    (fmt1 "failed to parse to operator: '" pipeline_text "'")))
  | Some (saver_name_, printer_argument) =>
      match find_saver saver_name_ with
      | None =>
          (rest, inl (make_error syntax_error
                        (fmt1 "failed to parse write operator: no '"
                              saver_name_ "' saver found")))
      | Some saver =>
          let printer_lookup : expected printer_plugin :=
            match printer_argument with
            | Some (_, printer_name_) =>
                match find_printer printer_name_ with
                | None =>
                    inl (make_error syntax_error
                           (fmt1 "failed to parse to operator: no '"
                                 printer_name_ "' printer found"))
                | Some printer => inr printer
                end
            | None =>
                match make_default_printer saver with
                | None =>
                    inl (make_error invalid_configuration
                           (fmt1 "failed to parse write operator: no available default printer for sink '"
                                 (saver_name saver) "' found"))
                | Some (default_printer_name, _) =>
                    match find_printer default_printer_name with
                    | None =>
                        inl (make_error invalid_configuration
                               ("failed to parse write operator: default format '"
                                ++ default_printer_name ++ "' for sink '"
                                ++ saver_name saver ++ "' is unavailable")%string)
                    | Some printer => inr printer
                    end
                end
            end in
          match printer_lookup with
          | inl e => (rest, inl e)
          | inr printer =>
              if saver_requires_joining saver
                 && negb (printer_allows_joining printer)
              then
                (rest, inl (make_error invalid_argument
                              (not_allowed_message (printer_name printer)
                                                   (saver_name saver))))
              else if negb (saver_requires_joining saver) then
                (rest, inr (print_save_operator printer saver))
              else
                (rest, inr (pipeline [print_operator printer;
                                      save_operator saver]))
          end
      end
  end.

(** [write FMT [to SINK]] resolves to a printer and a saver: the text
    parses, the format names a printer, and the sink (the one named, or else
    the printer's default one) names a saver. *)
Definition write_resolves (pipeline_text : string)
  (printer : printer_plugin) (saver : saver_plugin) : Prop :=
  exists printer_name_ saver_argument,
    snd (parse_write pipeline_text) = Some (printer_name_, saver_argument)
    /\ find_printer printer_name_ = Some printer
    /\ match saver_argument with
       | Some (_, saver_name_) => find_saver saver_name_ = Some saver
       | None =>
           exists default_saver_name options,
             make_default_saver printer = Some (default_saver_name, options)
             /\ find_saver default_saver_name = Some saver
       end.

(** [to SINK [write FMT]] resolves to a printer and a saver. *)
Definition to_resolves (pipeline_text : string)
  (printer : printer_plugin) (saver : saver_plugin) : Prop :=
  exists saver_name_ printer_argument,
    snd (parse_to pipeline_text) = Some (saver_name_, printer_argument)
    /\ find_saver saver_name_ = Some saver
    /\ match printer_argument with
       | Some (_, printer_name_) => find_printer printer_name_ = Some printer
       | None =>
           exists default_printer_name options,
             make_default_printer saver = Some (default_printer_name, options)
             /\ find_printer default_printer_name = Some printer
       end.

(** What the construction must produce for a resolved printer and saver. *)
Definition constructed (printer : printer_plugin) (saver : saver_plugin)
  (result : expected operator) : Prop :=
  (saver_requires_joining saver = true
   -> printer_allows_joining printer = false
   -> exists e, result = inl e /\ code e = invalid_argument)
  /\ (saver_requires_joining saver = false
      -> result = inr (print_save_operator printer saver))
  /\ (saver_requires_joining saver = true
      -> printer_allows_joining printer = true
      -> result = inr (pipeline [print_operator printer; save_operator saver])).

End Plugins.

Arguments printer_name {record} _.
Arguments printer_allows_joining {record} _.
Arguments make_default_saver {record} _.
Arguments saver_name {record} _.
Arguments saver_requires_joining {record} _.
Arguments make_default_printer {record} _.
Arguments print_operator {record} _.
Arguments save_operator {record} _.
Arguments print_save_operator {record} _ _.
Arguments pipeline {record} _.
Arguments write_make_operator {record} _ _ _ _.
Arguments to_make_operator {record} _ _ _ _.
Arguments write_resolves {record} _ _ _ _ _ _.
Arguments to_resolves {record} _ _ _ _ _ _.
Arguments constructed {record} _ _ _.

End WriteTo.


(* ================================================================= *)
(** * The execution node *)

Module ExecNode.
Import Batch Caf.

(** Points and spans of [std::chrono::steady_clock], in clock ticks. *)
Definition time_point : Type := Z.
Definition duration : Type := Z.

(** [defaults<>::max_batch_timeout], 250ms in nanosecond ticks, and
    [defaults<>::max_advances_per_run]. *)
Definition max_batch_timeout : duration := 250000000.
Definition max_advances_per_run : Z := 1.

(** Actor handles, and the requests that response promises answer. *)
Definition actor : Type := nat.
Definition request_id : Type := nat.

Inductive severity : Type :=
| severity_warning
| severity_error.

Record diagnostic : Type := {
  diagnostic_severity : severity;
  message : string;
  notes : list string
}.

(** [caf::result<void>], as a message handler returns it. *)
Inductive reply : Type :=
| reply_void
| reply_error (e : error)
| reply_promise (rp : request_id)
| reply_delegated (to : actor).

(** The operator's side of a resumption of its generator: what the body does
    between two suspension points.  It may advance the input adapter and call
    the control plane. *)
Inductive body_call : Type :=
| pull_input
| call_abort (e : error)
| call_warn (e : error).

(** Where the coroutine of [make_input_adapter] is suspended: before its
    first resumption and after [co_yield {}] it continues at the head of the
    outer loop, after [co_yield std::move(next)] at the test of the inner
    loop. *)
Inductive adapter_position : Type :=
| at_loop_head
| in_drain_loop
| adapter_done.

(** No single element has [2^62] rows or bytes or more. *)
Definition yield_limit : Z := 4611686018427387904.

(** A batch as a linked upstream node pushes it: no element is empty, and
    the batch is not larger than an outbound buffer can get. *)
Definition linked_push {T : Type} `{Element T} (input : list T) : Prop :=
  Forall (fun x => 0 < size x) input
  /\ total input < max_buffered (T := T) + yield_limit.

Section Node.
Context {Input Output : Type} `{Element Input} `{Element Output}.

(** [std::is_same_v<Input, std::monostate>] and
    [std::is_same_v<Output, std::monostate>]: a source has no inbound state
    and a sink no outbound state; the branches of [if constexpr] are taken
    accordingly and the unused state keeps its initial value. *)
Variable input_is_monostate : bool.
Variable output_is_monostate : bool.

(** [op->to_string()], [fmt::to_string] on errors, and the printed name of
    the actor. *)
Variable op_to_string : string.
Variable error_to_string : error -> string.
Variable self_to_string : string.

(** [outbound_state_mixin::demand]. *)
Record demand : Type := {
  rp : request_id;
  sink : actor;
  batch_size : Z;
  batch_timeout : time_point;
  ongoing : bool
}.

Record inbound_state_mixin : Type := {
  previous : option actor;
  signaled_demand : bool;
  inbound_buffer : list Input;
  inbound_buffer_size : Z
}.

Record outbound_state_mixin : Type := {
  outbound_buffer : list Output;
  outbound_buffer_size : Z;
  current_demand : option demand;
  reject_demand : bool
}.

(** [resumable_generator]: the iterator holds the element the generator has
    produced last, or is [gen.end()], here [None]. *)
Record resumable_generator : Type := {
  it : option Output
}.

(** [exec_node_state], with the flag of its diagnostic handler and the
    suspension point of its input adapter.  The timers are left out. *)
Record exec_node_state : Type := {
  inbound : inbound_state_mixin;
  outbound : outbound_state_mixin;
  instance : option resumable_generator;
  inbound_total : Z;
  num_inbound_batches : Z;
  outbound_total : Z;
  num_outbound_batches : Z;
  stalled : bool;
  run_scheduled : bool;
  abort : option error;
  has_seen_error_ : bool;
  input_adapter : adapter_position
}.

(** What a handler does to the world outside the node state. *)
Inductive action : Type :=
| schedule_run_action
| send_push (to : actor) (batch : list Output) (await : bool)
| send_pull (to : actor) (size_ : Z) (timeout : duration)
| send_start (to : actor) (chain : list actor)
| monitor (whom : actor)
| send_exit (to : actor)
| send_diagnostic (d : diagnostic)
| make_response_promise (request : request_id)
| deliver (promise : request_id) (outcome : option error)
| run_delayed (delay : duration) (a : action)
| quit (reason : option error).

(** A resumption of the operator's generator: the calls of the body and the
    element it yields next, [None] when the generator ends. *)
Record resumption : Type := {
  calls : list body_call;
  yields : option Output
}.

(** The outcome of [op->instantiate]: an error, an output of the wrong
    element type, or a generator, given with its run up to the first
    suspension point ([gen.begin()]). *)
Inductive instantiation : Type :=
| instantiate_error (e : error)
| instantiate_wrong_type
| instantiate_generator (first : resumption).

(** *** Field updates *)

Definition set_inbound (f : inbound_state_mixin -> inbound_state_mixin)
  (s : exec_node_state) : exec_node_state :=
  {| inbound := f (inbound s); outbound := outbound s; instance := instance s;
     inbound_total := inbound_total s;
     num_inbound_batches := num_inbound_batches s;
     outbound_total := outbound_total s;
     num_outbound_batches := num_outbound_batches s;
     stalled := stalled s; run_scheduled := run_scheduled s; abort := abort s;
     has_seen_error_ := has_seen_error_ s; input_adapter := input_adapter s |}.

Definition set_outbound (f : outbound_state_mixin -> outbound_state_mixin)
  (s : exec_node_state) : exec_node_state :=
  {| inbound := inbound s; outbound := f (outbound s); instance := instance s;
     inbound_total := inbound_total s;
     num_inbound_batches := num_inbound_batches s;
     outbound_total := outbound_total s;
     num_outbound_batches := num_outbound_batches s;
     stalled := stalled s; run_scheduled := run_scheduled s; abort := abort s;
     has_seen_error_ := has_seen_error_ s; input_adapter := input_adapter s |}.

Definition set_instance (v : option resumable_generator)
  (s : exec_node_state) : exec_node_state :=
  {| inbound := inbound s; outbound := outbound s; instance := v;
     inbound_total := inbound_total s;
     num_inbound_batches := num_inbound_batches s;
     outbound_total := outbound_total s;
     num_outbound_batches := num_outbound_batches s;
     stalled := stalled s; run_scheduled := run_scheduled s; abort := abort s;
     has_seen_error_ := has_seen_error_ s; input_adapter := input_adapter s |}.

Definition set_inbound_total (v : Z) (s : exec_node_state) : exec_node_state :=
  {| inbound := inbound s; outbound := outbound s; instance := instance s;
     inbound_total := v;
     num_inbound_batches := num_inbound_batches s;
     outbound_total := outbound_total s;
     num_outbound_batches := num_outbound_batches s;
     stalled := stalled s; run_scheduled := run_scheduled s; abort := abort s;
     has_seen_error_ := has_seen_error_ s; input_adapter := input_adapter s |}.

Definition set_num_inbound_batches (v : Z) (s : exec_node_state)
  : exec_node_state :=
  {| inbound := inbound s; outbound := outbound s; instance := instance s;
     inbound_total := inbound_total s;
     num_inbound_batches := v;
     outbound_total := outbound_total s;
     num_outbound_batches := num_outbound_batches s;
     stalled := stalled s; run_scheduled := run_scheduled s; abort := abort s;
     has_seen_error_ := has_seen_error_ s; input_adapter := input_adapter s |}.

Definition set_outbound_total (v : Z) (s : exec_node_state)
  : exec_node_state :=
  {| inbound := inbound s; outbound := outbound s; instance := instance s;
     inbound_total := inbound_total s;
     num_inbound_batches := num_inbound_batches s;
     outbound_total := v;
     num_outbound_batches := num_outbound_batches s;
     stalled := stalled s; run_scheduled := run_scheduled s; abort := abort s;
     has_seen_error_ := has_seen_error_ s; input_adapter := input_adapter s |}.

Definition set_num_outbound_batches (v : Z) (s : exec_node_state)
  : exec_node_state :=
  {| inbound := inbound s; outbound := outbound s; instance := instance s;
     inbound_total := inbound_total s;
     num_inbound_batches := num_inbound_batches s;
     outbound_total := outbound_total s;
     num_outbound_batches := v;
     stalled := stalled s; run_scheduled := run_scheduled s; abort := abort s;
     has_seen_error_ := has_seen_error_ s; input_adapter := input_adapter s |}.

Definition set_stalled (v : bool) (s : exec_node_state) : exec_node_state :=
  {| inbound := inbound s; outbound := outbound s; instance := instance s;
     inbound_total := inbound_total s;
     num_inbound_batches := num_inbound_batches s;
     outbound_total := outbound_total s;
     num_outbound_batches := num_outbound_batches s;
     stalled := v; run_scheduled := run_scheduled s; abort := abort s;
     has_seen_error_ := has_seen_error_ s; input_adapter := input_adapter s |}.

Definition set_run_scheduled (v : bool) (s : exec_node_state)
  : exec_node_state :=
  {| inbound := inbound s; outbound := outbound s; instance := instance s;
     inbound_total := inbound_total s;
     num_inbound_batches := num_inbound_batches s;
     outbound_total := outbound_total s;
     num_outbound_batches := num_outbound_batches s;
     stalled := stalled s; run_scheduled := v; abort := abort s;
     has_seen_error_ := has_seen_error_ s; input_adapter := input_adapter s |}.

Definition set_abort (v : option error) (s : exec_node_state)
  : exec_node_state :=
  {| inbound := inbound s; outbound := outbound s; instance := instance s;
     inbound_total := inbound_total s;
     num_inbound_batches := num_inbound_batches s;
     outbound_total := outbound_total s;
     num_outbound_batches := num_outbound_batches s;
     stalled := stalled s; run_scheduled := run_scheduled s; abort := v;
     has_seen_error_ := has_seen_error_ s; input_adapter := input_adapter s |}.

Definition set_has_seen_error (v : bool) (s : exec_node_state)
  : exec_node_state :=
  {| inbound := inbound s; outbound := outbound s; instance := instance s;
     inbound_total := inbound_total s;
     num_inbound_batches := num_inbound_batches s;
     outbound_total := outbound_total s;
     num_outbound_batches := num_outbound_batches s;
     stalled := stalled s; run_scheduled := run_scheduled s; abort := abort s;
     has_seen_error_ := v; input_adapter := input_adapter s |}.

Definition set_input_adapter (v : adapter_position) (s : exec_node_state)
  : exec_node_state :=
  {| inbound := inbound s; outbound := outbound s; instance := instance s;
     inbound_total := inbound_total s;
     num_inbound_batches := num_inbound_batches s;
     outbound_total := outbound_total s;
     num_outbound_batches := num_outbound_batches s;
     stalled := stalled s; run_scheduled := run_scheduled s; abort := abort s;
     has_seen_error_ := has_seen_error_ s; input_adapter := v |}.

Definition set_previous (v : option actor) : exec_node_state -> exec_node_state :=
  set_inbound (fun i =>
    {| previous := v; signaled_demand := signaled_demand i;
       inbound_buffer := inbound_buffer i;
       inbound_buffer_size := inbound_buffer_size i |}).

Definition set_signaled_demand (v : bool)
  : exec_node_state -> exec_node_state :=
  set_inbound (fun i =>
    {| previous := previous i; signaled_demand := v;
       inbound_buffer := inbound_buffer i;
       inbound_buffer_size := inbound_buffer_size i |}).

Definition set_inbound_buffer (buffer : list Input) (size_ : Z)
  : exec_node_state -> exec_node_state :=
  set_inbound (fun i =>
    {| previous := previous i; signaled_demand := signaled_demand i;
       inbound_buffer := buffer; inbound_buffer_size := size_ |}).

Definition set_outbound_buffer (buffer : list Output) (size_ : Z)
  : exec_node_state -> exec_node_state :=
  set_outbound (fun o =>
    {| outbound_buffer := buffer; outbound_buffer_size := size_;
       current_demand := current_demand o; reject_demand := reject_demand o |}).

Definition set_current_demand (v : option demand)
  : exec_node_state -> exec_node_state :=
  set_outbound (fun o =>
    {| outbound_buffer := outbound_buffer o;
       outbound_buffer_size := outbound_buffer_size o;
       current_demand := v; reject_demand := reject_demand o |}).

Definition set_reject_demand (v : bool)
  : exec_node_state -> exec_node_state :=
  set_outbound (fun o =>
    {| outbound_buffer := outbound_buffer o;
       outbound_buffer_size := outbound_buffer_size o;
       current_demand := current_demand o; reject_demand := v |}).

Definition set_ongoing (v : bool) (d : demand) : demand :=
  {| rp := rp d; sink := sink d; batch_size := batch_size d;
     batch_timeout := batch_timeout d; ongoing := v |}.

(** The state of a node when its actor is spawned: every member is
    value-initialised. *)
Definition initial_state : exec_node_state :=
  {| inbound := {| previous := None; signaled_demand := false;
                   inbound_buffer := []; inbound_buffer_size := 0 |};
     outbound := {| outbound_buffer := []; outbound_buffer_size := 0;
                    current_demand := None; reject_demand := false |};
     instance := None;
     inbound_total := 0; num_inbound_batches := 0;
     outbound_total := 0; num_outbound_batches := 0;
     stalled := false; run_scheduled := false; abort := None;
     has_seen_error_ := false; input_adapter := at_loop_head |}.

(** *** Handlers as state transformers

    A handler runs against the node state, may emit actions, and either
    returns or stops the process: a failed [VAST_ASSERT], the use of an
    empty [std::optional], or a loop that never ends. *)

Inductive result (A : Type) : Type :=
| Ok (value : A) (state' : exec_node_state) (log : list action)
| Fault (what : string).

Arguments Ok {A} _ _ _.
Arguments Fault {A} _.

Definition M (A : Type) : Type := exec_node_state -> result A.

Definition ret {A : Type} (a : A) : M A := fun s => Ok a s [].

Definition bind {A B : Type} (m : M A) (k : A -> M B) : M B :=
  fun s =>
    match m s with
    | Ok a s1 log1 =>
        match k a s1 with
        | Ok b s2 log2 => Ok b s2 (log1 ++ log2)
        | Fault what => Fault what
        end
    | Fault what => Fault what
    end.

Definition get : M exec_node_state := fun s => Ok s s [].

Definition modify (f : exec_node_state -> exec_node_state) : M unit :=
  fun s => Ok tt (f s) [].

Definition tell (a : action) : M unit := fun s => Ok tt s [a].

Definition crash {A : Type} (what : string) : M A := fun _ => Fault what.

(** [VAST_ASSERT]. *)
Definition vast_assert (condition : bool) (what : string) : M unit :=
  if condition then ret tt else crash what.

Declare Scope node_scope.
Delimit Scope node_scope with node.
Bind Scope node_scope with M.

Notation "x <- m ;; k" := (bind m (fun x => k))
  (at level 61, m at next level, right associativity) : node_scope.
Notation "m ;; k" := (bind m (fun _ => k))
  (at level 61, right associativity) : node_scope.

Local Open Scope node_scope.

(** *** Scheduling *)

Definition has_instance (s : exec_node_state) : bool :=
  match instance s with
  | Some _ => true
  | None => false
  end.

(** [instance->it == instance->gen.end()]. *)
Definition at_end (s : exec_node_state) : bool :=
  match instance s with
  | Some g => match it g with Some _ => false | None => true end
  | None => false
  end.

(** [schedule_run]. *)
Definition schedule_run : M unit :=
  s <- get ;;
  if negb (has_instance s) || run_scheduled s then ret tt
  else modify (set_run_scheduled true) ;; tell schedule_run_action.

(** *** Control plane and diagnostic handler *)

(** [ec::silent] converted to a [caf::error]. *)
Definition silent_error : error := make_error silent EmptyString.

(** [diagnostic::error("{}", error).note("from `{}`", op->to_string())] and
    its [warning] sibling. *)
Definition diagnostic_of (sev : severity) (e : error) : diagnostic :=
  {| diagnostic_severity := sev;
     message := error_to_string e;
     notes := [("from `" ++ op_to_string ++ "`")%string] |}.

Definition is_error (d : diagnostic) : bool :=
  match diagnostic_severity d with
  | severity_error => true
  | severity_warning => false
  end.

(** [exec_node_control_plane::abort] and [exec_node_diagnostic_handler::emit]
    call each other.  Each is written over the other one; the knot is tied
    below. *)
Definition abort_over (emit : diagnostic -> M unit) (e : error) : M unit :=
  (if negb (has_code e silent) then emit (diagnostic_of severity_error e)
   else ret tt) ;;
  s <- get ;;
  match abort s with
  | Some _ => ret tt
  | None => modify (set_abort (Some (make_error silent (error_to_string e))))
  end.

Definition emit_over (abort_ : error -> M unit) (d : diagnostic) : M unit :=
  tell (send_diagnostic d) ;;
  s <- get ;;
  if is_error d && negb (has_seen_error_ s) then
    modify (set_has_seen_error true) ;; abort_ silent_error
  else ret tt.

(** [emit] calls [abort] with [ec::silent] only, and [abort] does not emit
    for [ec::silent]: the recursion ends there. *)
Definition emit : diagnostic -> M unit :=
  emit_over (abort_over (fun _ => ret tt)).

(** [exec_node_control_plane::abort]. *)
Definition ctrl_abort : error -> M unit := abort_over emit.

(** [exec_node_control_plane::warn]. *)
Definition ctrl_warn (e : error) : M unit :=
  if negb (has_code e silent) then emit (diagnostic_of severity_warning e)
  else ret tt.

(** *** Requesting input *)

(** [request_more_input]. *)
Definition request_more_input : M unit :=
  s <- get ;;
  vast_assert (inbound_buffer_size (inbound s) <=? max_buffered (T := Input))
    "inbound_buffer_size <= max_buffered" ;;
  let batch_size_ :=
    Z.min (u64 (max_buffered (T := Input) - inbound_buffer_size (inbound s)))
          (max_batch_size (T := Input)) in
  match previous (inbound s) with
  | None => ret tt
  | Some prev =>
      if signaled_demand (inbound s)
         || (batch_size_ <? min_batch_size (T := Input))
      then ret tt
      else
        modify (set_signaled_demand true) ;;
        tell (send_pull prev batch_size_ max_batch_timeout)
  end.

(** The [handle_result] of [request_more_input]. *)
Definition request_handle_result : M unit :=
  modify (set_signaled_demand false) ;;
  schedule_run.

(** The [handle_error] of [request_more_input]. *)
Definition request_handle_error (e : error) : M unit :=
  modify (set_signaled_demand false) ;;
  schedule_run ;;
  if has_code e request_receiver_down then modify (set_previous None)
  else
    s <- get ;;
    match previous (inbound s) with
    | Some _ =>
        emit {| diagnostic_severity := severity_warning;
                message := error_to_string e;
                notes := [("`" ++ op_to_string
                           ++ "` failed to pull from previous execution node")%string] |}
    | None => ret tt
    end.

(** *** The input adapter *)

(** One pass through the body of the inner loop of [make_input_adapter]. *)
Definition adapter_take (next : Input) (rest : list Input) : M (option Input) :=
  vast_assert (negb (size next =? 0)) "size(next) != 0" ;;
  s <- get ;;
  modify (set_inbound_buffer rest
            (u64 (inbound_buffer_size (inbound s) - size next))) ;;
  modify (set_stalled false) ;;
  modify (set_input_adapter in_drain_loop) ;;
  ret (Some next).

(** The coroutine continues at the test of the outer loop. *)
Definition adapter_from_head : M (option Input) :=
  s <- get ;;
  if match previous (inbound s) with Some _ => true | None => false end
     || (0 <? inbound_buffer_size (inbound s))
     || signaled_demand (inbound s)
  then
    if inbound_buffer_size (inbound s) =? 0 then
      vast_assert (match inbound_buffer (inbound s) with
                   | [] => true
                   | _ :: _ => false
                   end) "inbound_buffer.empty()" ;;
      modify (set_stalled true) ;;
      modify (set_input_adapter at_loop_head) ;;
      ret (Some empty)
    else
      match inbound_buffer (inbound s) with
      | next :: rest => adapter_take next rest
      | [] =>
          (* the inner loop does not run and the outer test holds again *)
          crash "make_input_adapter loops without yielding"
      end
  else
    (* the scope guard runs when the coroutine returns *)
    modify (set_stalled false) ;;
    modify (set_input_adapter adapter_done) ;;
    ret None.

(** One resumption of the generator returned by [make_input_adapter]: the
    element it yields, or [None] when it ends. *)
Definition adapter_next : M (option Input) :=
  s <- get ;;
  match input_adapter s with
  | adapter_done => crash "resumed a finished generator"
  | at_loop_head => adapter_from_head
  | in_drain_loop =>
      match inbound_buffer (inbound s) with
      | next :: rest => adapter_take next rest
      | [] => adapter_from_head
      end
  end.

(** *** Advancing the operator *)

Definition run_call (c : body_call) : M unit :=
  match c with
  | pull_input =>
      if input_is_monostate then crash "a source has no input"
      else _ <- adapter_next ;; ret tt
  | call_abort e => ctrl_abort e
  | call_warn e => ctrl_warn e
  end.

Fixpoint run_calls (cs : list body_call) : M unit :=
  match cs with
  | [] => ret tt
  | c :: cs' => run_call c ;; run_calls cs'
  end.

(** [++instance->it], and [instance->gen.begin()]: the body runs up to its
    next suspension point and the iterator holds what it yielded. *)
Definition resume (r : resumption) : M unit :=
  run_calls (calls r) ;;
  modify (set_instance (Some {| it := yields r |})).

(** The tail of [advance_generator], after the generator has been advanced. *)
Definition advance_finish (empty_ : bool) : M bool :=
  s <- get ;;
  match abort s with
  | Some e => tell (quit (Some e)) ;; ret false
  | None => ret (negb empty_ && negb (at_end s))
  end.

(** [advance_generator]. *)
Definition advance_generator (r : resumption) : M bool :=
  s <- get ;;
  match instance s with
  | None => crash "instance"
  | Some g =>
      match it g with
      | None => crash "instance->it != instance->gen.end()"
      | Some next =>
          if output_is_monostate then
            resume r ;;
            advance_finish false
          else if max_buffered (T := Output)
                  <=? outbound_buffer_size (outbound s)
          then ret false
          else
            resume r ;;
            empty_ <-
              (if 0 <? size next then
                 s1 <- get ;;
                 modify (set_outbound_buffer
                           (outbound_buffer (outbound s1) ++ [next])
                           (u64 (outbound_buffer_size (outbound s1)
                                 + size next))) ;;
                 ret true
               else ret false) ;;
            advance_finish empty_
      end
  end.

(** *** Delivering batches *)

(** [deliver_batches]. *)
Definition deliver_batches (now : time_point) (force : bool) : M unit :=
  s <- get ;;
  match current_demand (outbound s) with
  | None => ret tt
  | Some d =>
      if ongoing d then ret tt
      else
        vast_assert (has_instance s) "instance" ;;
        if negb force
           && ((at_end s
                || (outbound_buffer_size (outbound s) <? batch_size d))
               && (now <? batch_timeout d))
        then ret tt
        else
          modify (set_current_demand (Some (set_ongoing true d))) ;;
          let capped_demand :=
            Z.min (outbound_buffer_size (outbound s)) (batch_size d) in
          if capped_demand =? 0 then
            tell (deliver (rp d) None) ;;
            modify (set_current_demand None) ;;
            schedule_run
          else
            let lhs := fst (split_vec (outbound_buffer (outbound s))
                                      capped_demand) in
            tell (send_push (sink d) lhs
                    (force || (max_buffered (T := Output)
                               <=? outbound_buffer_size (outbound s))))
  end.

(** The [handle_result] of [deliver_batches], with the [capped_demand] it
    has captured. *)
Definition push_handle_result (capped_demand : Z) : M unit :=
  s <- get ;;
  modify (set_outbound_total (u64 (outbound_total s + capped_demand))) ;;
  let '(lhs, rhs) := split_vec (outbound_buffer (outbound s)) capped_demand in
  modify (set_num_outbound_batches
            (u64 (num_outbound_batches s + Z.of_nat (length lhs)))) ;;
  modify (set_outbound_buffer rhs (total64 rhs)) ;;
  match current_demand (outbound s) with
  | None => crash "current_demand"
  | Some d =>
      tell (deliver (rp d) None) ;;
      modify (set_current_demand None) ;;
      schedule_run
  end.

(** The [handle_error] of [deliver_batches]. *)
Definition push_handle_error (e : error) : M unit :=
  s <- get ;;
  match current_demand (outbound s) with
  | None => crash "current_demand"
  | Some d =>
      tell (deliver (rp d) (Some e)) ;;
      modify (set_current_demand None) ;;
      schedule_run
  end.

(** *** The run loop *)

Definition has_demand (s : exec_node_state) : bool :=
  match current_demand (outbound s) with
  | Some _ => true
  | None => false
  end.

Definition has_previous (s : exec_node_state) : bool :=
  match previous (inbound s) with
  | Some _ => true
  | None => false
  end.

(** The end of [run]: whether to schedule the next run. *)
Definition reschedule : M unit :=
  s <- get ;;
  if output_is_monostate then
    if negb (stalled s) then schedule_run
    else vast_assert (signaled_demand (inbound s)) "signaled_demand"
  else if input_is_monostate then
    if negb (stalled s)
       && (has_demand s
           || ((outbound_buffer_size (outbound s)
                <? max_buffered (T := Output))
               && negb (at_end s)))
    then schedule_run else ret tt
  else
    let can_generate :=
      (outbound_buffer_size (outbound s) <? max_buffered (T := Output))
      && negb (at_end s) in
    let should_produce := has_demand s in
    let is_previous_dead := negb (has_previous s) in
    if is_previous_dead
       || (negb (stalled s) && (should_produce || can_generate))
    then schedule_run else ret tt.

(** [run], at the clock reading [now]; [r] is what the operator does if its
    generator is advanced.  The metrics it prints are left out. *)
Definition run (now : time_point) (r : resumption) : M unit :=
  s <- get ;;
  vast_assert (has_instance s) "instance" ;;
  if at_end s then
    (if negb input_is_monostate then
       match previous (inbound s) with
       | Some prev => tell (send_exit prev)
       | None => ret tt
       end
     else ret tt) ;;
    if negb output_is_monostate then
      (if has_demand s && (outbound_buffer_size (outbound s) =? 0)
       then modify (set_reject_demand true) else ret tt) ;;
      if has_demand s || (0 <? outbound_buffer_size (outbound s)) then
        deliver_batches now true ;;
        schedule_run
      else tell (quit None)
    else tell (quit None)
  else
    (if negb output_is_monostate then deliver_batches now false
     else ret tt) ;;
    (if negb input_is_monostate then request_more_input else ret tt) ;;
    _ <- advance_generator r ;;
    reschedule.

(** The action that [schedule_run] hands to the clock. *)
Definition scheduled_action (now : time_point) (r : resumption) : M unit :=
  s <- get ;;
  vast_assert (run_scheduled s) "run_scheduled" ;;
  modify (set_run_scheduled false) ;;
  run now r.

(** *** Pull and push *)

(** [pull]: the request [request] asks for [batch_size_] elements for [sink_]
    within [batch_timeout_]; [now] is the reading of the clock. *)
Definition pull (request : request_id) (sink_ : actor) (batch_size_ : Z)
  (batch_timeout_ : duration) (now : time_point) : M reply :=
  s <- get ;;
  if reject_demand (outbound s) then
    tell (make_response_promise request) ;;
    tell (run_delayed batch_timeout_ (deliver request None)) ;;
    ret reply_void
  else
    schedule_run ;;
    match current_demand (outbound s) with
    | Some _ => ret (reply_error (make_error logic_error "concurrent pull"))
    | None =>
        tell (make_response_promise request) ;;
        modify (set_current_demand
                  (Some {| rp := request; sink := sink_;
                           batch_size := batch_size_;
                           batch_timeout := now + batch_timeout_;
                           ongoing := false |})) ;;
        ret (reply_promise request)
    end.

(** [push]. *)
Definition push (input : list Input) : M reply :=
  schedule_run ;;
  let input_size := total64 input in
  s <- get ;;
  modify (set_num_inbound_batches
            (u64 (num_inbound_batches s + Z.of_nat (length input)))) ;;
  if input_size =? 0 then
    ret (reply_error (make_error logic_error "received empty batch"))
  else if max_buffered (T := Input)
          <? u64 (inbound_buffer_size (inbound s) + input_size)
  then ret (reply_error (make_error logic_error "inbound buffer full"))
  else
    modify (set_inbound_buffer
              (inbound_buffer (inbound s) ++ input)
              (u64 (inbound_buffer_size (inbound s) + input_size))) ;;
    modify (set_inbound_total (u64 (inbound_total s + input_size))) ;;
    ret reply_void.

(** *** Start-up *)

(** The down handler that [start] installs. *)
Definition down_handler (source : actor) (reason : option error) : M unit :=
  s <- get ;;
  match previous (inbound s) with
  | None => ret tt
  | Some prev =>
      if negb (Nat.eqb source prev) then ret tt
      else
        modify (set_previous None) ;;
        modify (set_signaled_demand false) ;;
        schedule_run ;;
        match reason with
        | Some why =>
            ctrl_abort
              (make_error unspecified
                 (op_to_string
                  ++ " shuts down because of irregular exit of previous operator: "
                  ++ error_to_string why)%string)
        | None => ret tt
        end
  end.

(** The second half of [start], once the previous node is known. *)
Definition start_instantiate (request : request_id) (chain : list actor)
  (inst : instantiation) : M reply :=
  match inst with
  | instantiate_error e =>
      ret (reply_error
             (make_error (code e)
                (self_to_string ++ " failed to instantiate operator: "
                 ++ context e)%string))
  | instantiate_wrong_type =>
      ret (reply_error
             (make_error logic_error
                (self_to_string ++ " got an unexpected element type")%string))
  | instantiate_generator first =>
      modify (set_instance (Some {| it := None |})) ;;
      resume first ;;
      s <- get ;;
      match abort s with
      | Some e => ret (reply_error e)
      | None =>
          if output_is_monostate then
            match previous (inbound s) with
            | Some prev =>
                tell (make_response_promise request) ;;
                tell (send_start prev chain) ;;
                ret (reply_promise request)
            | None => crash "request to a null handle"
            end
          else if negb input_is_monostate then
            match previous (inbound s) with
            | Some prev => ret (reply_delegated prev)
            | None => crash "delegate to a null handle"
            end
          else ret reply_void
      end
  end.

(** [start]. *)
Definition start (request : request_id) (chain : list actor)
  (inst : instantiation) : M reply :=
  s <- get ;;
  if has_instance s then
    ret (reply_error
           (make_error logic_error
              (self_to_string ++ " was already started")%string))
  else if input_is_monostate then
    match chain with
    | _ :: _ =>
        ret (reply_error
               (make_error logic_error
                  (self_to_string
                   ++ " runs a source operator and must not have a previous exec-node")%string))
    | [] => start_instantiate request chain inst
    end
  else
    match chain with
    | [] =>
        ret (reply_error
               (make_error logic_error
                  (self_to_string
                   ++ " runs a transformation/sink operator and must have a previous exec-node")%string))
    | first :: _ =>
        let prev := last chain first in
        modify (set_previous (Some prev)) ;;
        tell (monitor prev) ;;
        start_instantiate request (removelast chain) inst
    end.

(** The handlers of the [start] request a sink sends upstream. *)
Definition start_handle_result (request : request_id) : M unit :=
  schedule_run ;;
  tell (deliver request None).

Definition start_handle_error (request : request_id) (e : error) : M unit :=
  tell (deliver request (Some e)).

(** *** Behaviour: the message handlers of [exec_node] *)

Definition on_push (input : list Input) : M reply :=
  if input_is_monostate then
    ret (reply_error
           (make_error logic_error
              (self_to_string ++ " does not accept this input")%string))
  else push input.

Definition on_pull (request : request_id) (sink_ : actor) (batch_size_ : Z)
  (batch_timeout_ : duration) (now : time_point) : M reply :=
  if output_is_monostate then
    ret (reply_error
           (make_error logic_error
              (self_to_string ++ " is a sink and must not be pulled from")%string))
  else pull request sink_ batch_size_ batch_timeout_ now.

(** *** The node as a transition system *)

(** What a node reacts to: the messages of its behaviour, the replies to the
    requests it has sent, the action it has scheduled, the down message of
    the node it monitors, and calls of the control plane from the operator's
    own callbacks. *)
Inductive event : Type :=
| ev_start (request : request_id) (chain : list actor) (inst : instantiation)
| ev_start_ok (request : request_id)
| ev_start_failed (request : request_id) (e : error)
| ev_push (input : list Input)
| ev_pull (request : request_id) (sink_ : actor) (batch_size_ : Z)
          (batch_timeout_ : duration) (now : time_point)
| ev_run (now : time_point) (r : resumption)
| ev_push_ok (capped_demand : Z)
| ev_push_failed (e : error)
| ev_pull_ok
| ev_pull_failed (e : error)
| ev_down (source : actor) (reason : option error)
| ev_abort (e : error)
| ev_warn (e : error).

Definition handle (e : event) : M unit :=
  match e with
  | ev_start request chain inst => _ <- start request chain inst ;; ret tt
  | ev_start_ok request => start_handle_result request
  | ev_start_failed request e => start_handle_error request e
  | ev_push input => _ <- on_push input ;; ret tt
  | ev_pull request sink_ batch_size_ batch_timeout_ now =>
      _ <- on_pull request sink_ batch_size_ batch_timeout_ now ;; ret tt
  | ev_run now r => scheduled_action now r
  | ev_push_ok capped_demand => push_handle_result capped_demand
  | ev_push_failed e => push_handle_error e
  | ev_pull_ok => request_handle_result
  | ev_pull_failed e => request_handle_error e
  | ev_down source reason => down_handler source reason
  | ev_abort e => ctrl_abort e
  | ev_warn e => ctrl_warn e
  end.

(** The element a resumption yields respects the limit. *)
Definition fits (r : resumption) : Prop :=
  match yields r with
  | Some o => size o < yield_limit
  | None => True
  end.

(** A push this node has sent is awaiting its reply. *)
Definition push_in_flight (s : exec_node_state) : Prop :=
  exists d, current_demand (outbound s) = Some d /\ ongoing d = true.

(** When an event can occur. *)
Definition enabled (s : exec_node_state) (e : event) : Prop :=
  match e with
  | ev_start _ _ (instantiate_generator first) => fits first
  | ev_push input => linked_push input
  | ev_pull _ _ batch_size_ _ _ => 0 <= batch_size_
  | ev_run _ r => fits r
  | ev_push_ok capped_demand => 0 < capped_demand /\ push_in_flight s
  | ev_push_failed _ => push_in_flight s
  | _ => True
  end.

(** The states a node can be in. *)
Inductive reachable : exec_node_state -> Prop :=
| reachable_initial : reachable initial_state
| reachable_step (s s' : exec_node_state) (e : event) (log : list action) :
    reachable s ->
    enabled s e ->
    handle e s = Ok tt s' log ->
    reachable s'.

(** The batches a node pushes downstream when it handles an event. *)
Definition pushes (s : exec_node_state) (e : event) (batch : list Output)
  : Prop :=
  exists s' log to await,
    handle e s = Ok tt s' log /\ In (send_push to batch await) log.

(** What holds of the buffers and of the demand of a node at all times. *)
Record node_inv (s : exec_node_state) : Prop := {
  inv_inbound_bound :
    0 <= inbound_buffer_size (inbound s) <= max_buffered (T := Input);
  inv_inbound_count :
    inbound_buffer_size (inbound s) = total (inbound_buffer (inbound s));
  inv_inbound_nonempty :
    Forall (fun x => 0 < size x) (inbound_buffer (inbound s));
  inv_outbound_count :
    outbound_buffer_size (outbound s) = total (outbound_buffer (outbound s));
  inv_outbound_nonempty :
    Forall (fun x => 0 < size x) (outbound_buffer (outbound s));
  inv_outbound_bound :
    0 <= outbound_buffer_size (outbound s)
    < max_buffered (T := Output) + yield_limit;
  inv_current_fits :
    forall g o, instance s = Some g -> it g = Some o -> size o < yield_limit;
  inv_reject_demand :
    reject_demand (outbound s) = true -> current_demand (outbound s) = None;
  inv_ongoing :
    forall d, current_demand (outbound s) = Some d -> ongoing d = true ->
              0 < outbound_buffer_size (outbound s);
  inv_demand_size :
    forall d, current_demand (outbound s) = Some d -> 0 <= batch_size d
}.

(** The state a node is in after it has handled an event. *)
Definition after (e : event) (s : exec_node_state) : exec_node_state :=
  match handle e s with
  | Ok _ s' _ => s'
  | Fault _ => s
  end.

(** The actions a node emits when it handles an event. *)
Definition emitted (e : event) (s : exec_node_state) : list action :=
  match handle e s with
  | Ok _ _ log => log
  | Fault _ => []
  end.

(** Whether a handler returns. *)
Definition returns {A : Type} (m : M A) (s : exec_node_state) : bool :=
  match m s with
  | Ok _ _ _ => true
  | Fault _ => false
  end.

(** The error diagnostics among the actions emitted. *)
Definition error_diagnostics (log : list action) : list diagnostic :=
  flat_map (fun a =>
              match a with
              | send_diagnostic d => if is_error d then [d] else []
              | _ => []
              end) log.

(** *** Reasoning about handlers *)

(** [wp m Q s]: if the handler [m] returns from the state [s], then its
    value, the state it leaves and the actions it has emitted satisfy [Q]. *)
Definition wp {A : Type} (m : M A)
  (Q : A -> exec_node_state -> list action -> Prop) (s : exec_node_state)
  : Prop :=
  match m s with
  | Ok a s' log => Q a s' log
  | Fault _ => True
  end.

(** The buffers, the demand and the generator are the same in two states. *)
Definition same_buffers (s s' : exec_node_state) : Prop :=
  inbound_buffer (inbound s') = inbound_buffer (inbound s)
  /\ inbound_buffer_size (inbound s') = inbound_buffer_size (inbound s)
  /\ outbound s' = outbound s
  /\ instance s' = instance s.

(** Every batch pushed is one a linked node accepts as input: its elements
    are non-empty, and so is the batch. *)
Definition action_ok (a : action) : Prop :=
  forall to batch await,
    a = send_push to batch await -> linked_push batch /\ 0 < total batch.

(** What a handler that leaves the buffers alone guarantees, when it is run
    from the state [s]. *)
Definition keeps {A : Type} (s : exec_node_state)
  : A -> exec_node_state -> list action -> Prop :=
  fun _ s' log => same_buffers s s' /\ Forall action_ok log.

(** What every handler guarantees. *)
Definition maintains {A : Type}
  : A -> exec_node_state -> list action -> Prop :=
  fun _ s' log => node_inv s' /\ Forall action_ok log.

(** *** Time *)







(** Whether an action, now or when its delay has passed, pushes data. *)
Fixpoint pushes_data (a : action) : bool :=
  match a with
  | send_push _ _ _ => true
  | run_delayed _ a' => pushes_data a'
  | _ => false
  end.

(** *** What a node keeps, and what it says *)

(** What is set stays set: the abort reason, the mark that an error has been
    seen, the refusal of further demand, the instance of the operator, and
    the end of its generator. *)
Definition latched (s s' : exec_node_state) : Prop :=
  (forall e, abort s = Some e -> abort s' = Some e)
  /\ (has_seen_error_ s = true -> has_seen_error_ s' = true)
  /\ (reject_demand (outbound s) = true
      -> reject_demand (outbound s') = true)
  /\ (has_instance s = true -> has_instance s' = true)
  /\ (at_end s = true -> at_end s' = true).

(** A node that has seen an error diagnostic is aborted. *)
Definition error_aborts (s : exec_node_state) : Prop :=
  has_seen_error_ s = true -> abort s <> None.

(** The runs that the actions of a log hand to the clock, and the runs a node
    has handed to the clock that have not started yet. *)
Definition is_schedule_run (a : action) : bool :=
  match a with
  | schedule_run_action => true
  | _ => false
  end.

Definition scheduled_runs (log : list action) : Z :=
  Z.of_nat (length (filter is_schedule_run log)).

Definition pending_runs (s : exec_node_state) : Z :=
  if run_scheduled s then 1 else 0.

(** The actions by which a node moves data, asks for data, shuts its
    neighbour down or ends. *)
Definition outward (a : action) : bool :=
  match a with
  | send_push _ _ _ | send_pull _ _ _ | send_exit _ | quit _ => true
  | _ => false
  end.

(** What every handler but the scheduled action observes: what is set stays
    set, an error seen comes with an abort, and a run is handed to the clock
    exactly when the node marks one as pending. *)
Definition evolves (s s' : exec_node_state) (log : list action) : Prop :=
  latched s s'
  /\ (error_aborts s -> error_aborts s')
  /\ scheduled_runs log + pending_runs s = pending_runs s'.

(** What a run may say to the neighbours of a node, by the state [s] the run
    starts from and the state [s'] it leaves.  A push carries the head of
    the outbound buffer, as much as the open demand asks for, to the sink of
    that demand, which is then marked as being served.  A pull request is
    sent while the generator has not ended.  The previous node is told to
    exit once the generator has ended.  The node quits without a reason once
    the generator has ended and nothing is left to deliver, and with the
    abort reason while the generator has not ended. *)
Definition talk_ok (s s' : exec_node_state) (a : action) : Prop :=
  match a with
  | send_push to batch await =>
      exists d,
        current_demand (outbound s) = Some d
        /\ ongoing d = false
        /\ to = sink d
        /\ batch
           = fst (split_vec (outbound_buffer (outbound s))
                    (Z.min (outbound_buffer_size (outbound s))
                           (batch_size d)))
        /\ Z.min (outbound_buffer_size (outbound s)) (batch_size d) <> 0
        /\ await
           = (at_end s
              || (max_buffered (T := Output)
                  <=? outbound_buffer_size (outbound s)))
        /\ current_demand (outbound s') = Some (set_ongoing true d)
  | send_pull to size_ timeout =>
      at_end s = false /\ input_is_monostate = false
      /\ previous (inbound s) = Some to
      /\ signaled_demand (inbound s) = false
  | send_exit to =>
      at_end s = true /\ input_is_monostate = false
      /\ previous (inbound s) = Some to
  | quit None =>
      at_end s = true
      /\ (output_is_monostate = false ->
          outbound_buffer_size (outbound s) = 0
          /\ current_demand (outbound s) = None)
  | quit (Some e) => at_end s = false /\ abort s' = Some e
  | _ => True
  end.

(** A node that refuses further demand has nothing left to deliver: its
    generator has ended, its outbound buffer is empty, and no demand is
    open. *)
Definition drained (s : exec_node_state) : Prop :=
  reject_demand (outbound s) = true ->
  at_end s = true
  /\ outbound_buffer (outbound s) = []
  /\ outbound_buffer_size (outbound s) = 0
  /\ current_demand (outbound s) = None.

End Node.

Arguments Ok {Input Output A} _ _ _.
Arguments Fault {Input Output A} _.

End ExecNode.

(* ================================================================= *)
(** * Example nodes and plugins *)

Module Examples.
Import Batch Caf ExecNode.

(** Batches of events whose rows carry no data. *)
Definition events : Type := table_slice unit.

Definition batch_of (n : Z) : events := repeat tt (Z.to_nat n).

(** A source of events: no input, events as output. *)
Definition source_handle
  : @event events events -> @M events events unit :=
  handle true false "source" context "exec-node".

Definition source_reachable : @exec_node_state events events -> Prop :=
  reachable true false "source" context "exec-node".

(** The operator yields one batch of [n] rows and ends. *)
Definition start_with (n : Z) : @event events events :=
  ev_start 0%nat []
    (instantiate_generator {| calls := []; yields := Some (batch_of n) |}).

(** The downstream node, the actor 7, asks for one row within 10 ticks. *)
Definition pull_one : @event events events := ev_pull 1%nat 7%nat 1 10 0.

(** The scheduled run, at the tick 0; the generator ends when advanced. *)
Definition run_to_end : @event events events :=
  ev_run 0 {| calls := []; yields := None |}.

(** A source that has started with a batch of two rows and has been asked for
    one row. *)
Definition asked : @exec_node_state events events :=
  after true false "source" context "exec-node" pull_one
    (after true false "source" context "exec-node" (start_with 2)
       initial_state).

(** The same source once its scheduled run has moved the batch to the
    outbound buffer. *)
Definition filled : @exec_node_state events events :=
  after true false "source" context "exec-node" run_to_end asked.

(** A source whose operator yields a batch of [Ki 254 + 1] rows, after its
    first run. *)
Definition overfull : @exec_node_state events events :=
  after true false "source" context "exec-node" run_to_end
    (after true false "source" context "exec-node" pull_one
       (after true false "source" context "exec-node"
          (start_with (Ki 254 + 1)) initial_state)).

(** A printer that allows joining and a saver that requires it. *)
Definition json_printer : WriteTo.printer_plugin unit :=
  {| WriteTo.printer_name := "json";
     WriteTo.printer_allows_joining := true;
     WriteTo.make_default_saver := Some ("stdout"%string, tt) |}.

Definition stdout_saver : WriteTo.saver_plugin unit :=
  {| WriteTo.saver_name := "stdout";
     WriteTo.saver_requires_joining := true;
     WriteTo.make_default_printer := Some ("json"%string, tt) |}.

Definition find_printer (name : string) : option (WriteTo.printer_plugin unit) :=
  if String.eqb name "json" then Some json_printer else None.

Definition find_saver (name : string) : option (WriteTo.saver_plugin unit) :=
  if String.eqb name "stdout" then Some stdout_saver else None.

(** A parser that takes the whole text for the first plugin name. *)
Definition parse_name (text : string)
  : string * option (string * option (string * string)) :=
  (EmptyString, Some (text, None)).

(** The same source once its second run has pushed one row to the actor 7. *)
Definition pushed : @exec_node_state events events :=
  after true false "source" context "exec-node" run_to_end filled.

(** A source whose generator has ended at its first suspension point, asked
    for one row. *)
Definition start_ended : @event events events :=
  ev_start 0%nat [] (instantiate_generator {| calls := []; yields := None |}).

Definition ended_source : @exec_node_state events events :=
  after true false "source" context "exec-node" pull_one
    (after true false "source" context "exec-node" start_ended
       initial_state).

(** The same source once its scheduled run has answered the demand. *)
Definition rejecting : @exec_node_state events events :=
  after true false "source" context "exec-node" run_to_end ended_source.

(** The scheduled run, at the tick 0; the generator yields one row when
    advanced. *)
Definition run_on : @event events events :=
  ev_run 0 {| calls := []; yields := Some (batch_of 1) |}.

(** A source whose operator has yielded a batch of [Ki 254 + 1] rows and has
    more to yield. *)
Definition backed_up : @exec_node_state events events :=
  after true false "source" context "exec-node" run_on
    (after true false "source" context "exec-node" pull_one
       (after true false "source" context "exec-node"
          (start_with (Ki 254 + 1)) initial_state)).

(** A transformation from events to events, started behind the actor 5; its
    operator yields an empty batch first. *)
Definition stage_reachable : @exec_node_state events events -> Prop :=
  reachable false false "stage" context "exec-node".

Definition stage_start : @event events events :=
  ev_start 0%nat [5%nat]
    (instantiate_generator {| calls := []; yields := Some (batch_of 0) |}).

Definition started_stage : @exec_node_state events events :=
  after false false "stage" context "exec-node" stage_start initial_state.

(** An error diagnostic. *)
Definition failed_read : diagnostic :=
  {| diagnostic_severity := severity_error;
     message := "failed to read";
     notes := [] |}.

(** Parsers of one pipeline text each: [write json to stdout] and its mirror
    [to stdout write json]. *)
Definition parse_write_json (text : string)
  : string * option (string * option (string * string)) :=
  (EmptyString, Some ("json"%string, Some ("to"%string, "stdout"%string))).

Definition parse_to_stdout (text : string)
  : string * option (string * option (string * string)) :=
  (EmptyString, Some ("stdout"%string, Some ("write"%string, "json"%string))).

(** A source whose operator yields four batches of [Ki 64] rows: it has been
    asked for one row and has run four times; the push of that row, sent by
    the second run, has not been answered yet. *)
Definition run_more : @event events events :=
  ev_run 0 {| calls := []; yields := Some (batch_of (Ki 64)) |}.

Definition three_batches : @exec_node_state events events :=
  after true false "source" context "exec-node" run_more
    (after true false "source" context "exec-node" run_more
       (after true false "source" context "exec-node" run_more
          (after true false "source" context "exec-node" pull_one
             (after true false "source" context "exec-node"
                (start_with (Ki 64)) initial_state)))).

Definition four_batches : @exec_node_state events events :=
  after true false "source" context "exec-node" run_to_end three_batches.


End Examples.


(* ################################################################# *)
(** * Properties *)

(* ================================================================= *)
(** ** Machine integers *)

Lemma u64_small (x : Z) : 0 <= x < two64 -> u64 x = x.
Proof. intros Hx. unfold u64. now apply Z.mod_small. Qed.

Lemma u64_range (x : Z) : 0 <= u64 x < two64.
Proof. unfold u64. apply Z.mod_pos_bound. reflexivity. Qed.

Lemma u64_le (x : Z) : 0 <= x -> u64 x <= x.
Proof. intros Hx. unfold u64. apply Z.mod_le; [assumption | reflexivity]. Qed.

(* ================================================================= *)
(** ** Positions in a list of rows or bytes *)

Section Positions.
Context {A : Type}.
Implicit Types l s r : list A.

Lemma rows_at_app s r (lo hi : Z) :
  Slice.rows_at (s ++ r) lo hi
  = Slice.rows_at s lo hi
    ++ Slice.rows_at r (lo - Z.of_nat (length s)) (hi - Z.of_nat (length s)).
Proof.
  unfold Slice.rows_at.
  rewrite firstn_app, skipn_app, length_firstn.
  replace (Z.to_nat (hi - Z.of_nat (length s)))
    with (Z.to_nat hi - length s)%nat by lia.
  replace (Z.to_nat (lo - Z.of_nat (length s)))
    with (Z.to_nat lo - length s)%nat by lia.
  f_equal.
  destruct (Nat.le_gt_cases (length s) (Z.to_nat hi)) as [Hle | Hgt].
  - now rewrite Nat.min_r by assumption.
  - replace (Z.to_nat hi - length s)%nat with 0%nat by lia.
    cbn [firstn]. now rewrite !skipn_nil.
Qed.

Lemma rows_at_nil (lo hi : Z) : Slice.rows_at (@nil A) lo hi = [].
Proof. unfold Slice.rows_at. now rewrite firstn_nil, skipn_nil. Qed.

Lemma rows_at_empty l (lo hi : Z) : hi <= lo -> Slice.rows_at l lo hi = [].
Proof.
  intros Hle. unfold Slice.rows_at. apply skipn_all2.
  rewrite length_firstn. lia.
Qed.

Lemma rows_at_nonpos l (lo hi : Z) : hi <= 0 -> Slice.rows_at l lo hi = [].
Proof.
  intros Hle. unfold Slice.rows_at.
  replace (Z.to_nat hi) with 0%nat by lia. cbn [firstn]. apply skipn_nil.
Qed.

Lemma rows_at_beyond l (lo hi : Z) :
  Z.of_nat (length l) <= lo -> Slice.rows_at l lo hi = [].
Proof.
  intros Hle. unfold Slice.rows_at. apply skipn_all2.
  rewrite length_firstn. lia.
Qed.

Lemma rows_at_all l (lo hi : Z) :
  lo <= 0 -> Z.of_nat (length l) <= hi -> Slice.rows_at l lo hi = l.
Proof.
  intros Hlo Hhi. unfold Slice.rows_at.
  replace (Z.to_nat lo) with 0%nat by lia. cbn [skipn].
  apply firstn_all2. lia.
Qed.

Lemma rows_at_length l (lo hi : Z) :
  Z.of_nat (length (Slice.rows_at l lo hi))
  = Z.max 0 (Z.min hi (Z.of_nat (length l)) - Z.max 0 lo).
Proof. unfold Slice.rows_at. rewrite length_skipn, length_firstn. lia. Qed.

(** Clamping the bounds to the batch, as the operator does before it calls
    [subslice], does not change the rows selected. *)
Lemma subslice_clamped s (lo hi : Z) :
  Batch.subslice s (Z.max 0 lo) (Z.min (Batch.rows s) hi)
  = Slice.rows_at s lo hi.
Proof.
  unfold Batch.subslice, Slice.rows_at, Batch.rows.
  replace (Z.to_nat (Z.max 0 lo)) with (Z.to_nat lo) by lia.
  f_equal.
  destruct (Z.le_gt_cases (Z.of_nat (length s)) hi) as [Hle | Hgt].
  - rewrite Z.min_l by assumption. rewrite Nat2Z.id.
    rewrite firstn_all. symmetry. apply firstn_all2. lia.
  - now rewrite Z.min_r by lia.
Qed.

Lemma subslice_from s (lo : Z) :
  Batch.subslice s (Z.max 0 lo) (Batch.rows s)
  = Slice.rows_at s lo (Batch.rows s).
Proof.
  rewrite <- (subslice_clamped s lo (Batch.rows s)).
  now rewrite Z.min_id.
Qed.

Lemma subslice_upto s (hi : Z) :
  Batch.subslice s 0 (Z.min (Batch.rows s) hi) = Slice.rows_at s 0 hi.
Proof. rewrite <- (subslice_clamped s 0 hi). now rewrite Z.max_id. Qed.

End Positions.

(* ================================================================= *)
(** ** Batch primitives *)

Section ChunkSplit.
Import Batch.

Lemma chunk_size_nonneg (chunk : chunk_ptr) : 0 <= chunk_size chunk.
Proof. destruct chunk; cbn; lia. Qed.

Lemma chunk_size_bytes (chunk : chunk_ptr) :
  chunk_size chunk = Z.of_nat (length (bytes_of chunk)).
Proof. now destruct chunk. Qed.

Lemma chunk_split_content (chunk : chunk_ptr) (n : Z) :
  0 <= n ->
  bytes_of (fst (chunk_split chunk n)) ++ bytes_of (snd (chunk_split chunk n))
  = bytes_of chunk.
Proof.
  intros Hn. unfold chunk_split.
  destruct (Z.eqb_spec n 0) as [-> | Hn0]; [reflexivity |].
  destruct (Z.leb_spec (chunk_size chunk) n) as [Hle | Hlt].
  - cbn. apply app_nil_r.
  - cbn. rewrite chunk_size_bytes in *.
    set (b := bytes_of chunk) in *.
    replace (Z.to_nat (Z.of_nat (length b) - n))
      with (length (skipn (Z.to_nat n) b)) by (rewrite length_skipn; lia).
    rewrite firstn_all. apply firstn_skipn.
Qed.

Lemma chunk_split_sizes (chunk : chunk_ptr) (n : Z) :
  0 <= n ->
  chunk_size (fst (chunk_split chunk n)) = Z.min n (chunk_size chunk)
  /\ chunk_size (snd (chunk_split chunk n))
     = chunk_size chunk - Z.min n (chunk_size chunk).
Proof.
  intros Hn. pose proof (chunk_size_nonneg chunk) as Hsz. unfold chunk_split.
  destruct (Z.eqb_spec n 0) as [-> | Hn0]; [cbn; lia |].
  destruct (Z.leb_spec (chunk_size chunk) n) as [Hle | Hlt]; [cbn; lia |].
  cbn. rewrite !chunk_size_bytes in *.
  rewrite !length_firstn, !length_skipn. lia.
Qed.

#[export] Instance chunk_laws : ElementLaws chunk_ptr.
Proof.
  constructor.
  - apply chunk_size_nonneg.
  - reflexivity.
  - apply chunk_split_sizes.
  - cbv. split; [reflexivity | discriminate].
Qed.

#[export] Instance slice_laws (row : Type) : ElementLaws (table_slice row).
Proof.
  constructor.
  - intros x. cbn. unfold rows. lia.
  - reflexivity.
  - intros x n Hn. cbn. unfold slice_split, subslice, rows. cbn [fst snd].
    rewrite !length_skipn, !length_firstn. cbn [Z.to_nat]. lia.
  - cbv. split; [reflexivity | discriminate].
Qed.

End ChunkSplit.

Section VectorSplitFacts.
Import Batch.
Context {T : Type} `{ElementLaws T}.

Lemma total_cons (x : T) (xs : list T) : total (x :: xs) = size x + total xs.
Proof. reflexivity. Qed.

Lemma total_nonneg (xs : list T) : 0 <= total xs.
Proof.
  induction xs as [| x xs IH]; [cbn; lia |].
  rewrite total_cons. pose proof (size_nonneg x). lia.
Qed.

Lemma total_app (xs ys : list T) : total (xs ++ ys) = total xs + total ys.
Proof.
  induction xs as [| x xs IH]; [reflexivity |].
  cbn [app]. rewrite !total_cons, IH. lia.
Qed.

Lemma total_nil : total (@nil T) = 0.
Proof. reflexivity. Qed.

(** The sizes of the two halves of the vector split. *)
Lemma split_vec_total (chunks : list T) (n : Z) :
  0 <= n ->
  total (fst (split_vec chunks n)) = Z.min n (total chunks)
  /\ total (snd (split_vec chunks n)) = total chunks - Z.min n (total chunks).
Proof.
  revert n. induction chunks as [| x rest IH]; intros n Hn; cbn [split_vec].
  - cbn [fst snd]. rewrite total_nil. lia.
  - pose proof (size_nonneg x) as Hx. pose proof (total_nonneg rest) as Hr.
    rewrite total_cons.
    destruct (Z.eqb_spec n (size x)) as [-> | Hne].
    { cbn [fst snd]. rewrite total_cons, total_nil. lia. }
    destruct (Z.ltb_spec n (size x)) as [Hlt | Hge].
    + pose proof (split_sizes x n Hn) as [Hl Hrr].
      destruct (split x n) as [split_lhs split_rhs].
      cbn [fst snd] in *. rewrite !total_cons, total_nil. lia.
    + assert (Hn' : 0 <= n - size x) by lia. specialize (IH _ Hn').
      destruct (split_vec rest (n - size x)) as [lhs rhs].
      cbn [fst snd] in *. rewrite total_cons. lia.
Qed.

(** The vector split cuts along an element boundary. *)
Lemma split_vec_boundary (chunks : list T) (n : Z) :
  0 <= n ->
  along_boundary chunks n (fst (split_vec chunks n)) (snd (split_vec chunks n)).
Proof.
  revert n. induction chunks as [| x rest IH]; intros n Hn; cbn [split_vec].
  - left. exists [], []. cbn [fst snd app]. rewrite total_nil.
    repeat split. lia.
  - pose proof (size_nonneg x) as Hx. pose proof (total_nonneg rest) as Hr.
    destruct (Z.eqb_spec n (size x)) as [-> | Hne].
    + left. exists [x], rest. cbn [fst snd app].
      rewrite !total_cons, total_nil. repeat split. lia.
    + destruct (Z.ltb_spec n (size x)) as [Hlt | Hge].
      * right. exists [], x, rest. cbn [app]. rewrite total_nil, Z.sub_0_r.
        destruct (split x n) as [split_lhs split_rhs]. cbn [fst snd].
        repeat split; lia.
      * assert (Hn' : 0 <= n - size x) by lia. specialize (IH _ Hn').
        destruct (split_vec rest (n - size x)) as [lhs rhs]. cbn [fst snd] in *.
        destruct IH as [(pre & post & -> & -> & -> & Ht)
                       | (pre & y & post & -> & Hb & -> & ->)].
        -- left. exists (x :: pre), post. cbn [app]. rewrite !total_cons.
           repeat split. lia.
        -- right. exists (x :: pre), y, post. cbn [app]. rewrite total_cons.
           replace (n - (size x + total pre)) with (n - size x - total pre)
             by lia.
           repeat split; lia.
Qed.

End VectorSplitFacts.

Section ChunkVectorSplit.
Import Batch.

Lemma content_app (xs ys : list chunk_ptr) :
  content (xs ++ ys) = content xs ++ content ys.
Proof. unfold content. apply flat_map_app. Qed.

Lemma split_vec_content (chunks : list chunk_ptr) (n : Z) :
  0 <= n ->
  content (fst (split_vec chunks n)) ++ content (snd (split_vec chunks n))
  = content chunks.
Proof.
  intros Hn.
  destruct (split_vec_boundary chunks n Hn)
    as [(pre & post & -> & -> & -> & _) | (pre & x & post & -> & Hb & -> & ->)].
  - now rewrite content_app.
  - rewrite !content_app. cbn [content flat_map]. rewrite app_nil_r.
    rewrite <- !app_assoc. f_equal. rewrite app_assoc. f_equal.
    apply chunk_split_content. lia.
Qed.

(** C7. Splitting a byte chunk at [n] gives a prefix and a remainder whose
    bytes concatenate to the bytes of the chunk; the prefix has
    [min n (size x)] bytes, so it is empty for [n = 0], and the remainder is
    empty for [n >= size x].  Splitting a vector of chunks cuts along an
    element boundary, divides only the element that straddles the partition
    point, and satisfies the same two equations over the total size. *)
Theorem split_round_trip (x : chunk_ptr) (chunks : list chunk_ptr) (n : Z) :
  0 <= n ->
  (bytes_of (fst (split x n)) ++ bytes_of (snd (split x n)) = bytes_of x
   /\ size (fst (split x n)) = Z.min n (size x)
   /\ (n = 0 -> size (fst (split x n)) = 0)
   /\ (size x <= n -> size (snd (split x n)) = 0))
  /\ (content (fst (split_vec chunks n)) ++ content (snd (split_vec chunks n))
      = content chunks
      /\ total (fst (split_vec chunks n)) = Z.min n (total chunks)
      /\ along_boundary chunks n
           (fst (split_vec chunks n)) (snd (split_vec chunks n))).
Proof.
  intros Hn. split.
  - pose proof (chunk_split_sizes x n Hn) as [Hp Hr].
    pose proof (chunk_size_nonneg x) as Hx.
    cbn [size split chunk_element] in *.
    repeat split.
    + now apply chunk_split_content.
    + exact Hp.
    + intros ->. lia.
    + intros Hle. lia.
  - repeat split.
    + now apply split_vec_content.
    + now apply split_vec_total.
    + now apply split_vec_boundary.
Qed.

End ChunkVectorSplit.

(* ================================================================= *)
(** ** The [slice] operator *)

Section SliceFacts.
Import Batch Slice.
Context {row : Type}.
Variable moved_from : table_slice row -> table_slice row.

Local Abbreviation batch := (table_slice row).

Implicit Types input buffer yields : list batch.

Lemma stream_rows_cons (slice : batch) input :
  stream_rows (slice :: input) = slice ++ stream_rows input.
Proof. reflexivity. Qed.

Lemma stream_rows_app (xs ys : list batch) :
  stream_rows (xs ++ ys) = stream_rows xs ++ stream_rows ys.
Proof. apply concat_app. Qed.

Lemma rows_zero_nil (slice : batch) : rows slice = 0 -> slice = [].
Proof. unfold rows. destruct slice; cbn; [reflexivity | lia]. Qed.

Lemma rows_length (l : list row) : rows l = Z.of_nat (length l).
Proof. reflexivity. Qed.

(** *** Non-negative begin, non-negative end *)

Lemma pp_loop_rows input (begin_ end_ offset : Z) :
  stream_rows (pp_loop input begin_ end_ offset)
  = rows_at (stream_rows input) (begin_ - offset) (end_ - offset).
Proof.
  revert offset. induction input as [| slice input IH]; intros offset.
  - cbn. now rewrite rows_at_nil.
  - cbn [pp_loop]. rewrite stream_rows_cons, rows_at_app.
    destruct (Z.eqb_spec (rows slice) 0) as [Hz | Hnz].
    + rewrite stream_rows_cons, IH. rewrite (rows_zero_nil slice Hz).
      cbn [length app]. rewrite rows_at_nil. cbn [app Z.of_nat].
      now rewrite !Z.sub_0_r.
    + rewrite stream_rows_cons, subslice_clamped. f_equal.
      fold (rows slice).
      destruct (Z.leb_spec end_ (offset + rows slice)) as [Hle | Hgt].
      * cbn. symmetry. apply rows_at_nonpos. lia.
      * rewrite IH. f_equal; lia.
Qed.

Lemma positive_begin_positive_end_rows input (begin_ end_ : Z) :
  stream_rows (positive_begin_positive_end input begin_ end_)
  = rows_at (stream_rows input) begin_ end_.
Proof.
  unfold positive_begin_positive_end.
  destruct (Z.leb_spec end_ begin_) as [Hle | Hgt].
  - cbn. symmetry. now apply rows_at_empty.
  - rewrite pp_loop_rows. now rewrite !Z.sub_0_r.
Qed.

(** *** Non-negative begin, negative end *)

Lemma stream_rows_length_cons (slice : batch) input :
  Z.of_nat (length (stream_rows (slice :: input)))
  = rows slice + Z.of_nat (length (stream_rows input)).
Proof. rewrite stream_rows_cons, length_app. unfold rows. lia. Qed.

Lemma pn_fill_spec input (begin_ offset : Z) buffer :
  let '(yields, (offset', buffer')) := pn_fill input begin_ offset buffer in
  stream_rows yields = []
  /\ offset' = offset + Z.of_nat (length (stream_rows input))
  /\ stream_rows buffer'
     = stream_rows buffer
       ++ skipn (Z.to_nat (begin_ - offset)) (stream_rows input)
  /\ (Forall (fun s => 0 < rows s) buffer ->
      Forall (fun s => 0 < rows s) buffer').
Proof.
  revert offset buffer.
  induction input as [| slice input IH]; intros offset buffer.
  - cbn. rewrite skipn_nil, app_nil_r. repeat split; [lia | auto].
  - cbn [pn_fill]. rewrite stream_rows_length_cons.
    destruct (Z.eqb_spec (rows slice) 0) as [Hz | Hnz].
    + specialize (IH offset buffer).
      destruct (pn_fill input begin_ offset buffer)
        as [yields [offset' buffer']].
      destruct IH as (Hy & Ho & Hb & Hf).
      rewrite stream_rows_cons, (rows_zero_nil slice Hz).
      cbn [app]. repeat split; auto.
    + set (result := subslice slice (Z.max 0 (begin_ - offset)) (rows slice)).
      set (buffer1 := if 0 <? rows result then buffer ++ [result] else buffer).
      specialize (IH (offset + rows slice) buffer1).
      destruct (pn_fill input begin_ (offset + rows slice) buffer1)
        as [yields [offset' buffer']].
      destruct IH as (Hy & Ho & Hb & Hf).
      assert (Hres : result = skipn (Z.to_nat (begin_ - offset)) slice).
      { unfold result. rewrite subslice_from. unfold rows_at, rows.
        now rewrite Nat2Z.id, firstn_all. }
      assert (Hb1 : stream_rows buffer1 = stream_rows buffer ++ result).
      { unfold buffer1. destruct (Z.ltb_spec 0 (rows result)) as [Hp | Hnp].
        - rewrite stream_rows_app. cbn. now rewrite app_nil_r.
        - rewrite (rows_zero_nil result); [now rewrite app_nil_r |].
          unfold rows in *. lia. }
      repeat split.
      * exact Hy.
      * lia.
      * rewrite Hb, Hb1, Hres, stream_rows_cons, skipn_app, <- app_assoc.
        do 3 f_equal. unfold rows. lia.
      * intros HF. apply Hf. unfold buffer1.
        destruct (Z.ltb_spec 0 (rows result)) as [Hp | Hnp]; [| exact HF].
        apply Forall_app. split; [exact HF | now constructor].
Qed.

Lemma pn_drain_rows buffer (end_ offset : Z) :
  Forall (fun s => 0 < rows s) buffer ->
  stream_rows (pn_drain buffer end_ offset)
  = firstn (Z.to_nat (end_ - offset)) (stream_rows buffer).
Proof.
  revert offset. induction buffer as [| slice buffer IH]; intros offset HF.
  - cbn. now rewrite firstn_nil.
  - inversion HF as [| ? ? Hpos HF']; subst.
    cbn [pn_drain]. rewrite subslice_upto, stream_rows_cons, firstn_app.
    assert (Hres : rows_at slice 0 (end_ - offset)
                   = firstn (Z.to_nat (end_ - offset)) slice) by reflexivity.
    rewrite Hres.
    destruct (Z.eqb_spec (rows (firstn (Z.to_nat (end_ - offset)) slice)) 0)
      as [Hz | Hnz].
    + unfold rows in Hz, Hpos. rewrite length_firstn in Hz.
      replace (Z.to_nat (end_ - offset)) with 0%nat by lia. reflexivity.
    + rewrite stream_rows_cons, IH by assumption. do 2 f_equal.
      unfold rows. lia.
Qed.

Lemma positive_begin_negative_end_rows input (begin_ end_ : Z) :
  0 <= begin_ ->
  stream_rows (positive_begin_negative_end input begin_ end_)
  = rows_at (stream_rows input) begin_
            (Z.of_nat (length (stream_rows input)) + end_).
Proof.
  intros Hb. unfold positive_begin_negative_end.
  pose proof (pn_fill_spec input begin_ 0 []) as Hfill.
  destruct (pn_fill input begin_ 0 []) as [yields [offset buffer]].
  destruct Hfill as (Hy & Ho & Hbuf & HF). specialize (HF (Forall_nil _)).
  change (stream_rows []) with (@nil row) in Hbuf.
  cbn [app] in Hbuf. rewrite Z.sub_0_r in Hbuf.
  rewrite Z.add_0_l in Ho. subst offset.
  set (l := stream_rows input) in *.
  destruct (Z.ltb_spec (Z.of_nat (length l) + end_ - begin_) 0)
    as [Hneg | Hpos].
  - rewrite Hy. symmetry. apply rows_at_empty. lia.
  - rewrite stream_rows_app, Hy, pn_drain_rows by assumption.
    cbn [app]. rewrite Hbuf, Z.sub_0_r, firstn_skipn_comm.
    unfold rows_at. do 2 f_equal. lia.
Qed.

(** *** Negative begin, negative end *)

Lemma nn_fill_spec input (offset : Z) buffer :
  let '(yields, (offset', buffer')) := nn_fill input offset buffer in
  stream_rows yields = []
  /\ offset' = offset + Z.of_nat (length (stream_rows input))
  /\ stream_rows buffer' = stream_rows buffer ++ stream_rows input.
Proof.
  revert offset buffer.
  induction input as [| slice input IH]; intros offset buffer.
  - cbn. rewrite app_nil_r. repeat split; lia.
  - cbn [nn_fill]. rewrite stream_rows_length_cons.
    destruct (Z.eqb_spec (rows slice) 0) as [Hz | Hnz].
    + specialize (IH offset buffer).
      destruct (nn_fill input offset buffer) as [yields [offset' buffer']].
      destruct IH as (Hy & Ho & Hb).
      rewrite !stream_rows_cons, (rows_zero_nil slice Hz).
      cbn [app]. repeat split; auto.
    + specialize (IH (offset + rows slice) (buffer ++ [slice])).
      destruct (nn_fill input (offset + rows slice) (buffer ++ [slice]))
        as [yields [offset' buffer']].
      destruct IH as (Hy & Ho & Hb).
      repeat split.
      * exact Hy.
      * lia.
      * rewrite Hb, stream_rows_app, stream_rows_cons, <- app_assoc.
        do 2 f_equal. cbn. now rewrite app_nil_r.
Qed.

Lemma nn_drain_rows buffer (begin_ end_ offset : Z) :
  stream_rows (nn_drain buffer begin_ end_ offset)
  = rows_at (stream_rows buffer) (begin_ - offset) (end_ - offset).
Proof.
  revert offset. induction buffer as [| slice buffer IH]; intros offset.
  - cbn. now rewrite rows_at_nil.
  - cbn [nn_drain]. rewrite stream_rows_cons, rows_at_app.
    fold (rows slice).
    destruct (Z.leb_spec (rows slice) (Z.max 0 (begin_ - offset)))
      as [Hskip | Hin].
    + rewrite IH.
      replace (rows_at slice (begin_ - offset) (end_ - offset))
        with (@nil row).
      * cbn [app]. unfold rows. f_equal; lia.
      * symmetry. unfold rows_at. apply skipn_all2.
        rewrite length_firstn. unfold rows in Hskip. lia.
    + rewrite subslice_clamped.
      pose proof (rows_at_length slice (begin_ - offset) (end_ - offset))
        as Hlen.
      destruct (Z.eqb_spec (rows (rows_at slice (begin_ - offset)
                                          (end_ - offset))) 0) as [Hz | Hnz].
      * rewrite (rows_zero_nil _ Hz). cbn [app]. symmetry.
        unfold rows in *. rewrite Hlen in Hz.
        destruct (Z.le_gt_cases (end_ - offset) 0) as [Hle | Hgt].
        -- apply rows_at_nonpos. lia.
        -- apply rows_at_empty. lia.
      * rewrite stream_rows_cons, IH. unfold rows. do 2 f_equal; lia.
Qed.

Lemma negative_begin_negative_end_rows input (begin_ end_ : Z) :
  stream_rows (negative_begin_negative_end input begin_ end_)
  = rows_at (stream_rows input)
            (Z.of_nat (length (stream_rows input)) + begin_)
            (Z.of_nat (length (stream_rows input)) + end_).
Proof.
  unfold negative_begin_negative_end.
  destruct (Z.leb_spec end_ begin_) as [Hle | Hgt].
  - cbn. symmetry. apply rows_at_empty. lia.
  - pose proof (nn_fill_spec input 0 []) as Hfill.
    destruct (nn_fill input 0 []) as [yields [offset buffer]].
    destruct Hfill as (Hy & Ho & Hbuf).
    change (stream_rows []) with (@nil row) in Hbuf. cbn [app] in Hbuf.
    rewrite Z.add_0_l in Ho. subst offset.
    rewrite stream_rows_app, Hy, nn_drain_rows, Hbuf. cbn [app].
    now rewrite !Z.sub_0_r.
Qed.

(** With a negative end bound the operator resolves the end to [N + end], a
    negative begin to [N + begin], and clamps what falls outside the stream. *)
Lemma slice_negative_end_rows input (b e : Z) :
  e < 0 ->
  stream_rows (slice_operator moved_from (Some b) (Some e) input)
  = rows_at (stream_rows input)
            (if 0 <=? b then b
             else Z.of_nat (length (stream_rows input)) + b)
            (Z.of_nat (length (stream_rows input)) + e).
Proof.
  intros He. unfold slice_operator, value_or.
  destruct (Z.leb_spec 0 e) as [Hbad | _]; [lia |].
  destruct (Z.leb_spec 0 b) as [Hb | Hb].
  - now apply positive_begin_negative_end_rows.
  - apply negative_begin_negative_end_rows.
Qed.

(** C2. With both bounds non-negative and [0 <= b <= e <= N], where [N] is
    the total row count of the input stream, [slice] yields exactly the rows
    at the global positions [b, e), in their original order; there are
    [e - b] of them. *)
Theorem slice_positive_bounds input (b e : Z) :
  0 <= b -> b <= e -> e <= Z.of_nat (length (stream_rows input)) ->
  stream_rows (slice_operator moved_from (Some b) (Some e) input)
  = rows_at (stream_rows input) b e
  /\ Z.of_nat (length (stream_rows
                         (slice_operator moved_from (Some b) (Some e) input)))
     = e - b.
Proof.
  intros Hb Hbe He.
  assert (Hrows : stream_rows (slice_operator moved_from (Some b) (Some e) input)
                  = rows_at (stream_rows input) b e).
  { unfold slice_operator, value_or.
    destruct (Z.leb_spec 0 b) as [_ | Hbad]; [| lia].
    destruct (Z.leb_spec 0 e) as [_ | Hbad]; [| lia].
    apply positive_begin_positive_end_rows. }
  split; [exact Hrows |].
  rewrite Hrows, rows_at_length. lia.
Qed.

(** C3, as amended.  With a negative end bound [e] the operator resolves
    the end to [N + e] and a negative begin [b] to [N + b], where [N] is the
    total row count of the input stream, and clamps a begin that falls before
    the stream to its start, as Python slicing does; it yields exactly the
    rows between the resolved bounds, in order.  For [N > 0], [-N <= b < N]
    and [-N <= e < 0] (the non-negative/negative and the negative/negative
    combinations within the stream) these are the rows at the global
    positions [(N + b) mod N, (N + e) mod N). *)
Theorem slice_negative_end input (b e : Z) :
  let N := Z.of_nat (length (stream_rows input)) in
  e < 0 ->
  stream_rows (slice_operator moved_from (Some b) (Some e) input)
  = rows_at (stream_rows input)
            (if 0 <=? b then b else Z.max 0 (N + b)) (N + e)
  /\ (0 < N -> - N <= b < N -> - N <= e ->
      stream_rows (slice_operator moved_from (Some b) (Some e) input)
      = rows_at (stream_rows input) ((N + b) mod N) ((N + e) mod N)).
Proof.
  intros N He. rewrite slice_negative_end_rows by lia. fold N. split.
  - destruct (Z.leb_spec 0 b) as [Hpos | Hneg]; [reflexivity |].
    unfold rows_at. f_equal. lia.
  - intros HN Hb HeN.
    assert (HmodE : (N + e) mod N = N + e) by (apply Z.mod_small; lia).
    rewrite HmodE.
    destruct (Z.leb_spec 0 b) as [Hpos | Hneg].
    + replace ((N + b) mod N) with b; [reflexivity |].
      apply Z.mod_unique with (q := 1); lia.
    + replace ((N + b) mod N) with (N + b); [reflexivity |].
      symmetry. apply Z.mod_small. lia.
Qed.

End SliceFacts.

Lemma slice_positive_bounds_witness :
  Slice.stream_rows
    (Slice.slice_operator (fun s => s) (Some 5) (Some 25)
       [[0;1;2;3;4;5;6;7;8;9]; [10;11;12;13;14;15;16;17;18;19];
        [20;21;22;23;24;25;26;27;28;29]])
  = [5;6;7;8;9;10;11;12;13;14;15;16;17;18;19;20;21;22;23;24].
Proof.
  refine (proj1 (slice_positive_bounds (fun s => s) _ 5 25 _ _ _));
    cbn; lia.
Defined.

Lemma slice_negative_end_witness :
  Slice.stream_rows
    (Slice.slice_operator (fun s => s) (Some (-4)) (Some (-1))
       [[0;1;2]; [3;4;5]])
  = [2;3;4].
Proof.
  refine (proj2 (slice_negative_end (fun s => s) [[0;1;2]; [3;4;5]]
                   (-4) (-1) _) _ _ _);
    cbn; lia.
Defined.

(** C3 as stated fails: on a stream of three rows, [slice] with begin [-4]
    and end [-1] yields the rows at the positions 0 and 1, as Python's
    [x[-4:-1]] does, while the positions [(N + b) mod N, (N + e) mod N) are
    [2, 2), which hold no row. *)
Lemma slice_negative_bounds_counterexample :
  let input := [[0; 1; 2]] in
  let N := Z.of_nat (length (Slice.stream_rows input)) in
  let b := -4 in
  let e := -1 in
  0 < N /\ b < 0 /\ e < 0
  /\ Slice.stream_rows
       (Slice.slice_operator (fun s => s) (Some b) (Some e) input) = [0; 1]
  /\ Slice.rows_at (Slice.stream_rows input) ((N + b) mod N) ((N + e) mod N)
     = []
  /\ Slice.stream_rows
       (Slice.slice_operator (fun s => s) (Some b) (Some e) input)
     <> Slice.rows_at (Slice.stream_rows input)
                      ((N + b) mod N) ((N + e) mod N).
Proof. cbv. repeat split; discriminate. Qed.

(** The negative/positive combination resolves a negative begin against the
    rows read so far, and it stops reading once the end bound is passed (at
    the latest; the test reads a moved-from batch).  On three batches of two
    rows, begin [-5] and end [2] select the position 1 in Python; the
    operator yields the rows at the positions 0 and 1, whatever a moved-from
    batch looks like, as long as a moved-from empty batch is empty. *)
Lemma negative_begin_positive_end_stops_early
  (moved_from : Batch.table_slice Z -> Batch.table_slice Z) :
  Batch.rows (moved_from []) = 0 ->
  Slice.stream_rows
    (Slice.slice_operator moved_from (Some (-5)) (Some 2)
       [[0; 1]; [2; 3]; [4; 5]])
  = [0; 1].
Proof.
  intros Hmoved.
  unfold Slice.slice_operator, Slice.negative_begin_positive_end, Slice.value_or.
  cbn -[Batch.rows Batch.subslice Z.add Z.sub Z.min Z.max].
  change (Batch.rows [0; 1]) with 2. change (Batch.rows [2; 3]) with 2.
  change (Batch.subslice [0; 1] 0 (Z.min 2 (2 - 0))) with [0; 1].
  destruct (Batch.rows (moved_from [0; 1]) =? 0).
  - reflexivity.
  - change (Batch.subslice [2; 3] 0 (Z.min 2 (2 - (0 + 2)))) with (@nil Z).
    rewrite Hmoved. reflexivity.
Qed.

(* ================================================================= *)
(** ** The [write] and [to] operators *)

Section WriteToFacts.
Import Caf WriteTo.
Context {record : Type}.
Variable find_printer : string -> option (printer_plugin record).
Variable find_saver : string -> option (saver_plugin record).
Variable parse_write parse_to :
  string -> string * option (string * option (string * string)).

(** The decision both plugins take once the printer and the saver are
    known. *)
Lemma constructed_by_joining
  (rest : string) (printer : printer_plugin record)
  (saver : saver_plugin record) :
  constructed printer saver
    (snd (if saver_requires_joining saver
             && negb (printer_allows_joining printer)
          then (rest, inl (make_error invalid_argument
                             (not_allowed_message (printer_name printer)
                                                  (saver_name saver))))
          else if negb (saver_requires_joining saver)
               then (rest, inr (print_save_operator printer saver))
               else (rest, inr (pipeline [print_operator printer;
                                          save_operator saver])))).
Proof.
  unfold constructed.
  destruct (saver_requires_joining saver), (printer_allows_joining printer);
    cbn; repeat split; intros; try discriminate; try reflexivity.
  eexists. split; reflexivity.
Qed.

(** C8. For [write FMT [to SINK]] and for its mirror [to SINK [write FMT]],
    once the text resolves to a printer and a saver: if the saver requires
    joining and the printer disallows it, construction fails with an
    invalid-argument error; if the saver does not require joining, a single
    fused print-and-save operator is constructed; otherwise a pipeline of
    two operators, the print operator followed by the save operator. *)
Theorem write_to_construction
  (text : string) (printer : printer_plugin record)
  (saver : saver_plugin record) :
  (write_resolves find_printer find_saver parse_write text printer saver ->
   constructed printer saver
     (snd (write_make_operator find_printer find_saver parse_write text)))
  /\ (to_resolves find_printer find_saver parse_to text printer saver ->
      constructed printer saver
        (snd (to_make_operator find_printer find_saver parse_to text))).
Proof.
  split.
  - intros (pname & sarg & Hparse & Hprinter & Hsaver).
    unfold write_make_operator.
    destruct (parse_write text) as [rest result]. cbn [snd] in Hparse.
    subst result. rewrite Hprinter.
    destruct sarg as [[keyword sname] |].
    + rewrite Hsaver. apply constructed_by_joining.
    + destruct Hsaver as (dname & options & Hdefault & Hfind).
      rewrite Hdefault, Hfind. apply constructed_by_joining.
  - intros (sname & parg & Hparse & Hsaver & Hprinter).
    unfold to_make_operator.
    destruct (parse_to text) as [rest result]. cbn [snd] in Hparse.
    subst result. rewrite Hsaver.
    destruct parg as [[keyword pname] |].
    + rewrite Hprinter. apply constructed_by_joining.
    + destruct Hprinter as (dname & options & Hdefault & Hfind).
      rewrite Hdefault, Hfind. apply constructed_by_joining.
Qed.

End WriteToFacts.

(* ================================================================= *)
(** ** The execution node: handlers *)

Section HandlerLogic.
Import Batch Caf ExecNode.
Context {Input Output : Type}.

Local Abbreviation state := (@exec_node_state Input Output).
Local Abbreviation M := (@ExecNode.M Input Output).
Local Abbreviation action := (@ExecNode.action Output).

Implicit Types s : state.

Lemma wp_ret {A} (a : A) (Q : A -> state -> list action -> Prop) s :
  wp (ret a) Q s = Q a s [].
Proof. reflexivity. Qed.

Lemma wp_bind {A B} (m : M A) (k : A -> M B)
  (Q : B -> state -> list action -> Prop) s :
  wp (bind m k) Q s
  = wp m (fun a s1 log1 =>
            wp (k a) (fun b s2 log2 => Q b s2 (log1 ++ log2)) s1) s.
Proof.
  unfold wp, bind. destruct (m s) as [a s1 log1 | what]; [| reflexivity].
  now destruct (k a s1).
Qed.

Lemma wp_get (Q : state -> state -> list action -> Prop) s :
  wp get Q s = Q s s [].
Proof. reflexivity. Qed.

Lemma wp_modify (f : state -> state) (Q : unit -> state -> list action -> Prop) s :
  wp (modify f) Q s = Q tt (f s) [].
Proof. reflexivity. Qed.

Lemma wp_tell (a : action) (Q : unit -> state -> list action -> Prop) s :
  wp (tell a) Q s = Q tt s [a].
Proof. reflexivity. Qed.

Lemma wp_crash {A} (what : string) (Q : A -> state -> list action -> Prop) s :
  wp (crash what) Q s = True.
Proof. reflexivity. Qed.

Lemma wp_vast_assert (c : bool) (what : string)
  (Q : unit -> state -> list action -> Prop) s :
  wp (vast_assert c what) Q s = (if c then Q tt s [] else True).
Proof. now destruct c. Qed.

Lemma wp_consequence {A} (m : M A)
  (Q Q' : A -> state -> list action -> Prop) s :
  wp m Q s -> (forall a s' log, Q a s' log -> Q' a s' log) -> wp m Q' s.
Proof. unfold wp. destruct (m s); auto. Qed.

Lemma wp_returns {A} (m : M A) (Q : A -> state -> list action -> Prop)
  s a s' log :
  wp m Q s -> m s = Ok a s' log -> Q a s' log.
Proof. unfold wp. intros Hwp Hm. now rewrite Hm in Hwp. Qed.

End HandlerLogic.

Create Rewrite HintDb wp.
#[local] Hint Rewrite @wp_ret @wp_bind @wp_get @wp_modify @wp_tell @wp_crash
  @wp_vast_assert : wp.

Ltac wp_simpl := autorewrite with wp; cbn beta.

#[local] Arguments Batch.total : simpl never.
#[local] Arguments Batch.total64 : simpl never.
#[local] Arguments u64 : simpl never.

(** Arithmetic over the constants of the machine. *)
Ltac arith := unfold ExecNode.yield_limit, two64 in *; lia.

(** Case analysis on the tests a handler makes. *)
Ltac wp_branches :=
  repeat (wp_simpl;
          match goal with
          | |- True => exact I
          | |- context [if ?c then _ else _] => destruct c eqn:?
          | |- context [match ?x with Some _ => _ | None => _ end] =>
              destruct x eqn:?
          end).

(** Logs made of actions other than pushes. *)
Ltac benign_log :=
  repeat first
    [ apply Forall_nil
    | apply Forall_cons;
      [ intros ? ? ? ?; discriminate | ]
    | apply Forall_app; split ];
  try assumption.

Section NodeKeeps.
Import Batch Caf ExecNode.
Context {Input Output : Type} `{ElementLaws Input} `{ElementLaws Output}.
Variable input_is_monostate output_is_monostate : bool.
Variable op_to_string : string.
Variable error_to_string : error -> string.
Variable self_to_string : string.

Local Abbreviation state := (@exec_node_state Input Output).
Local Abbreviation M := (@ExecNode.M Input Output).
Local Abbreviation action := (@ExecNode.action Output).

Implicit Types s : state.

(** *** Counters *)

Lemma total64_total {T : Type} `{ElementLaws T} (xs : list T) :
  total xs < two64 -> total64 xs = total xs.
Proof.
  unfold total64.
  assert (Hgen : forall acc, 0 <= acc -> acc + total xs < two64 ->
            fold_left (fun a x => u64 (a + size x)) xs acc = acc + total xs).
  { induction xs as [| x xs IH]; intros acc Hacc Hsum.
    - cbn [fold_left]. rewrite total_nil. lia.
    - cbn [fold_left]. rewrite total_cons in *.
      pose proof (size_nonneg x). pose proof (total_nonneg xs).
      rewrite u64_small by lia. rewrite IH by lia. lia. }
  intros Hlt. rewrite Hgen; [lia | lia |]. pose proof (total_nonneg xs). lia.
Qed.

Lemma total_pos {T : Type} `{ElementLaws T} (xs : list T) :
  Forall (fun x => 0 < size x) xs -> xs <> [] -> 0 < total xs.
Proof.
  intros HF Hne. destruct xs as [| x xs]; [congruence |].
  inversion HF; subst. rewrite total_cons. pose proof (total_nonneg xs). lia.
Qed.

Lemma total_zero_nil {T : Type} `{ElementLaws T} (xs : list T) :
  Forall (fun x => 0 < size x) xs -> total xs = 0 -> xs = [].
Proof.
  intros HF Hz. destruct xs as [| x xs]; [reflexivity |].
  inversion HF; subst. rewrite total_cons in Hz.
  pose proof (total_nonneg xs). lia.
Qed.

(** The two halves of the vector split of non-empty elements at a positive
    partition point hold non-empty elements. *)
Lemma split_vec_nonempty {T : Type} `{ElementLaws T} (chunks : list T) (n : Z) :
  0 < n ->
  Forall (fun x => 0 < size x) chunks ->
  Forall (fun x => 0 < size x) (fst (split_vec chunks n))
  /\ Forall (fun x => 0 < size x) (snd (split_vec chunks n)).
Proof.
  revert n. induction chunks as [| x rest IH]; intros n Hn HF.
  - cbn. split; constructor.
  - inversion HF as [| ? ? Hx HF']; subst. cbn [split_vec].
    destruct (Z.eqb_spec n (size x)) as [-> | Hne].
    + cbn. split; [now constructor | assumption].
    + destruct (Z.ltb_spec n (size x)) as [Hlt | Hge].
      * assert (Hn0 : 0 <= n) by lia.
        pose proof (split_sizes x n Hn0) as [Hl Hr].
        destruct (split x n) as [split_lhs split_rhs]. cbn [fst snd] in *.
        split; constructor; try assumption; try constructor; lia.
      * assert (Hn' : 0 < n - size x) by lia.
        specialize (IH _ Hn' HF').
        destruct (split_vec rest (n - size x)) as [lhs rhs].
        cbn [fst snd] in *. destruct IH as [IHl IHr].
        split; [now constructor | assumption].
Qed.

(** *** Frames *)

Lemma same_buffers_refl s : same_buffers s s.
Proof. repeat split. Qed.

Lemma same_buffers_trans s1 s2 s3 :
  same_buffers s1 s2 -> same_buffers s2 s3 -> same_buffers s1 s3.
Proof.
  intros (A1 & A2 & A3 & A4) (B1 & B2 & B3 & B4).
  repeat split; congruence.
Qed.

Lemma node_inv_same s s' : node_inv s -> same_buffers s s' -> node_inv s'.
Proof.
  intros [I1 I2 I3 O1 O2 O3 G D1 D2 D3] (E1 & E2 & E3 & E4).
  constructor; rewrite ?E1, ?E2, ?E3, ?E4; assumption.
Qed.

(** *** Handlers that leave the buffers alone *)

Lemma schedule_run_keeps s : wp schedule_run (keeps s) s.
Proof.
  unfold schedule_run. wp_simpl.
  destruct (negb (has_instance s) || run_scheduled s); wp_simpl.
  - split; [apply same_buffers_refl | constructor].
  - split; [repeat split | benign_log].
Qed.

Ltac keeps_by_cases :=
  wp_branches; wp_simpl; (split; [repeat split | benign_log]).

Lemma emit_keeps (d : diagnostic) s :
  wp (emit op_to_string error_to_string d) (keeps s) s.
Proof. unfold emit, emit_over, abort_over. keeps_by_cases. Qed.

Lemma ctrl_abort_keeps (e : error) s :
  wp (ctrl_abort op_to_string error_to_string e) (keeps s) s.
Proof. unfold ctrl_abort, abort_over, emit, emit_over, abort_over. keeps_by_cases. Qed.

Lemma ctrl_warn_keeps (e : error) s :
  wp (ctrl_warn op_to_string error_to_string e) (keeps s) s.
Proof. unfold ctrl_warn, emit, emit_over, abort_over. keeps_by_cases. Qed.

Lemma request_more_input_keeps s : wp request_more_input (keeps s) s.
Proof. unfold request_more_input. keeps_by_cases. Qed.

Lemma request_handle_result_keeps s : wp request_handle_result (keeps s) s.
Proof. unfold request_handle_result, schedule_run. keeps_by_cases. Qed.

Lemma request_handle_error_keeps (e : error) s :
  wp (request_handle_error op_to_string error_to_string e) (keeps s) s.
Proof.
  unfold request_handle_error, schedule_run, emit, emit_over, abort_over.
  keeps_by_cases.
Qed.

Lemma down_handler_keeps (source : actor) (reason : option error) s :
  wp (down_handler op_to_string error_to_string source reason) (keeps s) s.
Proof.
  unfold down_handler, schedule_run, ctrl_abort, abort_over, emit, emit_over,
    abort_over.
  keeps_by_cases.
Qed.

Lemma start_handle_result_keeps (request : request_id) s :
  wp (start_handle_result request) (keeps s) s.
Proof. unfold start_handle_result, schedule_run. keeps_by_cases. Qed.

Lemma start_handle_error_keeps (request : request_id) (e : error) s :
  wp (start_handle_error request e) (keeps s) s.
Proof. unfold start_handle_error. keeps_by_cases. Qed.

(** *** The input adapter *)


Lemma adapter_take_maintains (next : Input) (rest : list Input) s :
  node_inv s ->
  inbound_buffer (inbound s) = next :: rest ->
  wp (adapter_take next rest)
     (fun _ s' log =>
        node_inv s' /\ Forall action_ok log
        /\ outbound s' = outbound s /\ instance s' = instance s) s.
Proof.
  intros [I1 I2 I3 O1 O2 O3 G D1 D2 D3] Hbuf.
  unfold adapter_take. wp_branches. wp_simpl.
  rewrite Hbuf in I2, I3. rewrite total_cons in I2.
  inversion I3 as [| ? ? Hnext Hrest]; subst.
  pose proof (total_nonneg rest) as Hr.
  pose proof (max_buffered_range (T := Input)) as Hm.
  repeat split; try assumption; cbn; try benign_log.
  all: try (rewrite u64_small by arith); arith.
Qed.

End NodeKeeps.

(* ================================================================= *)
(** ** The execution node: the invariant *)

Section NodeInvariant.
Import Batch Caf ExecNode.
Context {Input Output : Type} `{ElementLaws Input} `{ElementLaws Output}.
Variable input_is_monostate output_is_monostate : bool.
Variable op_to_string : string.
Variable error_to_string : error -> string.
Variable self_to_string : string.

Local Abbreviation state := (@exec_node_state Input Output).
Local Abbreviation M := (@ExecNode.M Input Output).
Local Abbreviation action := (@ExecNode.action Output).

Implicit Types s : state.

(** What the operator's body guarantees: the invariant, and that it touches
    neither the outbound state nor the generator. *)
Local Abbreviation body_post s :=
  (fun (_ : unit) (s' : state) (log : list action) =>
     node_inv s' /\ Forall action_ok log
     /\ outbound s' = outbound s /\ instance s' = instance s).

Lemma keeps_body_post {A} (m : M A) s :
  node_inv s ->
  wp m (keeps s) s ->
  wp m (fun _ s' log =>
          node_inv s' /\ Forall action_ok log
          /\ outbound s' = outbound s /\ instance s' = instance s) s.
Proof.
  intros Hinv Hwp. eapply wp_consequence; [exact Hwp |].
  intros a s' log [Hsame Hlog]. pose proof Hsame as (_ & _ & Eo & Ei).
  split; [now apply (node_inv_same s) | now repeat split].
Qed.

Lemma adapter_from_head_maintains s :
  node_inv s ->
  wp adapter_from_head
     (fun _ s' log =>
        node_inv s' /\ Forall action_ok log
        /\ outbound s' = outbound s /\ instance s' = instance s) s.
Proof.
  intros Hinv. unfold adapter_from_head. wp_simpl.
  destruct (_ || _ || _); wp_simpl.
  - destruct (inbound_buffer_size (inbound s) =? 0) eqn:Hz; wp_simpl.
    + destruct (inbound_buffer (inbound s)); wp_simpl; [| exact I].
      split; [| repeat split; benign_log].
      apply (node_inv_same s); [assumption | repeat split].
    + destruct (inbound_buffer (inbound s)) as [| next rest] eqn:Hbuf;
        wp_simpl; [exact I |].
      eapply wp_consequence; [now apply adapter_take_maintains |].
      intros a s' log (? & ? & ? & ?). (split; [assumption | repeat split; assumption]).
  - split; [| repeat split; benign_log].
    apply (node_inv_same s); [assumption | repeat split].
Qed.

Lemma adapter_next_maintains s :
  node_inv s ->
  wp adapter_next
     (fun _ s' log =>
        node_inv s' /\ Forall action_ok log
        /\ outbound s' = outbound s /\ instance s' = instance s) s.
Proof.
  intros Hinv. unfold adapter_next. wp_simpl.
  destruct (input_adapter s); wp_simpl.
  - now apply adapter_from_head_maintains.
  - destruct (inbound_buffer (inbound s)) as [| next rest] eqn:Hbuf.
    + now apply adapter_from_head_maintains.
    + now apply adapter_take_maintains.
  - exact I.
Qed.

Lemma run_call_maintains (c : body_call) s :
  node_inv s ->
  wp (run_call input_is_monostate op_to_string error_to_string c)
     (body_post s) s.
Proof.
  intros Hinv. destruct c as [| e | e]; cbn [run_call].
  - destruct input_is_monostate; wp_simpl; [exact I |].
    eapply wp_consequence; [now apply adapter_next_maintains |].
    intros a s' log (? & ? & ? & ?). wp_simpl. rewrite app_nil_r.
    (split; [assumption | repeat split; assumption]).
  - apply keeps_body_post; [assumption | apply ctrl_abort_keeps].
  - apply keeps_body_post; [assumption | apply ctrl_warn_keeps].
Qed.

Lemma run_calls_maintains (cs : list body_call) s :
  node_inv s ->
  wp (run_calls input_is_monostate op_to_string error_to_string cs)
     (body_post s) s.
Proof.
  revert s. induction cs as [| c cs IH]; intros s Hinv; cbn [run_calls].
  - wp_simpl. split; [assumption | repeat split; constructor].
  - wp_simpl. eapply wp_consequence; [now apply run_call_maintains |].
    intros a s1 log1 (Hinv1 & Hlog1 & Eo1 & Ei1).
    eapply wp_consequence; [now apply IH |].
    intros b s2 log2 (Hinv2 & Hlog2 & Eo2 & Ei2).
    split; [assumption |].
    split; [apply Forall_app; now split |].
    split; congruence.
Qed.

Lemma resume_maintains (r : resumption) s :
  node_inv s -> fits r ->
  wp (resume input_is_monostate op_to_string error_to_string r)
     (fun _ s' log =>
        node_inv s' /\ Forall action_ok log
        /\ outbound s' = outbound s
        /\ instance s' = Some {| it := yields r |}) s.
Proof.
  intros Hinv Hfits. unfold resume. wp_simpl.
  eapply wp_consequence; [now apply run_calls_maintains |].
  intros a s1 log1 ([I1 I2 I3 O1 O2 O3 G D1 D2 D3] & Hlog1 & Eo1 & Ei1).
  wp_simpl. rewrite app_nil_r.
  split; [| repeat split; assumption].
  constructor; try assumption.
  cbn. intros g o [= <-] Hy. cbn in Hy. unfold fits in Hfits.
  now rewrite Hy in Hfits.
Qed.

(** *** Composition *)

Lemma maintains_frame {A} (m : M A) (log0 : list action) s :
  wp m maintains s ->
  Forall action_ok log0 ->
  wp m (fun a s' log => maintains a s' (log0 ++ log)) s.
Proof.
  intros Hwp Hlog0. eapply wp_consequence; [exact Hwp |].
  intros a s' log [Hinv Hlog]. split; [assumption |].
  apply Forall_app. now split.
Qed.

Lemma keeps_maintains {A} (m : M A) s :
  node_inv s -> wp m (keeps s) s -> wp m maintains s.
Proof.
  intros Hinv Hwp. eapply wp_consequence; [exact Hwp |].
  intros a s' log [Hsame Hlog]. split; [| assumption].
  now apply (node_inv_same s).
Qed.

Lemma schedule_run_maintains s : node_inv s -> wp schedule_run maintains s.
Proof. intros Hinv. apply keeps_maintains; [assumption | apply schedule_run_keeps]. Qed.

(** *** Advancing the operator *)

Lemma node_inv_append (next : Output) s :
  node_inv s ->
  0 < size next < yield_limit ->
  outbound_buffer_size (outbound s) < max_buffered (T := Output) ->
  node_inv (set_outbound_buffer
              (outbound_buffer (outbound s) ++ [next])
              (u64 (outbound_buffer_size (outbound s) + size next)) s).
Proof.
  intros [I1 I2 I3 O1 O2 O3 G D1 D2 D3] Hnext Hroom.
  pose proof (max_buffered_range (T := Output)) as Hm.
  assert (Hu : u64 (outbound_buffer_size (outbound s) + size next)
               = outbound_buffer_size (outbound s) + size next)
    by (apply u64_small; arith).
  constructor; cbn; rewrite ?Hu; try assumption.
  - rewrite total_app, total_cons, total_nil. lia.
  - apply Forall_app. split; [assumption |]. constructor; [lia | constructor].
  - lia.
  - intros d Hd Hon. specialize (D2 d Hd Hon). lia.
Qed.

Lemma advance_finish_maintains (empty_ : bool) s :
  node_inv s -> wp (advance_finish empty_) maintains s.
Proof.
  intros Hinv. unfold advance_finish. wp_simpl.
  destruct (abort s); wp_simpl; (split; [assumption | benign_log]).
Qed.

Lemma advance_generator_maintains (r : resumption) s :
  node_inv s -> fits r ->
  wp (advance_generator input_is_monostate output_is_monostate op_to_string
        error_to_string r) maintains s.
Proof.
  intros Hinv Hfits. unfold advance_generator. wp_simpl.
  destruct (instance s) as [g |] eqn:Hi; wp_simpl; [| exact I].
  destruct (it g) as [next |] eqn:Hit; wp_simpl; [| exact I].
  assert (Hnext : size next < yield_limit)
    by exact (inv_current_fits _ Hinv g next Hi Hit).
  destruct output_is_monostate.
  - wp_simpl. eapply wp_consequence; [now apply resume_maintains |].
    intros a s1 log1 (Hinv1 & Hlog1 & _ & _).
    apply maintains_frame; [| assumption].
    now apply advance_finish_maintains.
  - destruct (Z.leb_spec (max_buffered (T := Output))
                (outbound_buffer_size (outbound s)))
      as [Hfull | Hroom]; wp_simpl.
    + split; [assumption | constructor].
    + eapply wp_consequence; [now apply resume_maintains |].
      intros a s1 log1 (Hinv1 & Hlog1 & Eo1 & _).
      apply maintains_frame; [| assumption].
      destruct (Z.ltb_spec 0 (size next)) as [Hpos | Hzero]; wp_simpl.
      * apply maintains_frame; [| constructor].
        apply advance_finish_maintains.
        apply node_inv_append; [assumption | lia | now rewrite Eo1].
      * apply maintains_frame; [| constructor].
        now apply advance_finish_maintains.
Qed.

(** *** Delivering batches *)

Lemma split_vec_lhs_push (buffer : list Output) (n : Z) :
  Forall (fun x => 0 < size x) buffer ->
  0 < n <= total buffer ->
  total buffer < max_buffered (T := Output) + yield_limit ->
  linked_push (fst (split_vec buffer n))
  /\ 0 < total (fst (split_vec buffer n)).
Proof.
  intros HF Hn Hbound.
  assert (Hn0 : 0 <= n) by lia.
  pose proof (split_vec_total buffer n Hn0) as [Hl _].
  pose proof (split_vec_nonempty buffer n ltac:(lia) HF) as [Hne _].
  unfold linked_push. repeat split; [assumption | lia | lia].
Qed.

Lemma deliver_batches_maintains (now : time_point) (force : bool) s :
  node_inv s -> wp (deliver_batches now force) maintains s.
Proof.
  intros Hinv. pose proof Hinv as [I1 I2 I3 O1 O2 O3 G D1 D2 D3].
  unfold deliver_batches. wp_simpl.
  destruct (current_demand (outbound s)) as [d |] eqn:Hd; wp_simpl;
    [| split; [assumption | constructor]].
  destruct (ongoing d) eqn:Hon; wp_simpl;
    [split; [assumption | constructor] |].
  destruct (has_instance s); wp_simpl; [| exact I].
  destruct (negb force && _); wp_simpl;
    [split; [assumption | constructor] |].
  specialize (D3 d eq_refl).
  destruct (Z.eqb_spec (Z.min (outbound_buffer_size (outbound s))
                              (batch_size d)) 0) as [Hz | Hnz]; wp_simpl.
  - apply maintains_frame; [| benign_log].
    apply schedule_run_maintains.
    constructor; cbn; try assumption; try discriminate. reflexivity.
  - split.
    + constructor; cbn; try assumption.
      * intros Hrej. specialize (D1 Hrej). discriminate.
      * intros d' [= <-] _. lia.
      * intros d' [= <-]. exact D3.
    + apply Forall_cons; [| constructor].
      intros to batch await [= <- <- <-].
      apply split_vec_lhs_push; [assumption | lia | lia].
Qed.

Lemma push_handle_result_maintains (capped_demand : Z) s :
  node_inv s -> 0 < capped_demand ->
  wp (push_handle_result capped_demand) maintains s.
Proof.
  intros [I1 I2 I3 O1 O2 O3 G D1 D2 D3] Hcap.
  assert (Hcap0 : 0 <= capped_demand) by lia.
  pose proof (split_vec_total (outbound_buffer (outbound s)) capped_demand
                Hcap0) as [_ Hr].
  pose proof (split_vec_nonempty (outbound_buffer (outbound s)) capped_demand
                Hcap O2) as [_ Hne].
  pose proof (total_nonneg (outbound_buffer (outbound s))) as Hb.
  pose proof (max_buffered_range (T := Output)) as Hm.
  unfold push_handle_result. wp_simpl.
  destruct (split_vec (outbound_buffer (outbound s)) capped_demand)
    as [lhs rhs]. cbn [fst snd] in *.
  pose proof (total_nonneg rhs) as Hrhs.
  assert (Ht : total64 rhs = total rhs) by (apply total64_total; arith).
  wp_simpl.
  destruct (current_demand (outbound s)) as [d |]; wp_simpl; [| exact I].
  apply maintains_frame; [| benign_log].
  apply schedule_run_maintains.
  constructor; cbn; rewrite ?Ht; try assumption; try discriminate;
    try reflexivity; lia.
Qed.

Lemma push_handle_error_maintains (e : error) s :
  node_inv s -> wp (push_handle_error e) maintains s.
Proof.
  intros [I1 I2 I3 O1 O2 O3 G D1 D2 D3].
  unfold push_handle_error. wp_simpl.
  destruct (current_demand (outbound s)) as [d |]; wp_simpl; [| exact I].
  apply maintains_frame; [| benign_log].
  apply schedule_run_maintains.
  constructor; cbn; try assumption; try discriminate; reflexivity.
Qed.

(** *** Pull and push *)

Lemma push_maintains (input : list Input) s :
  node_inv s -> linked_push input -> wp (push input) maintains s.
Proof.
  intros Hinv [Hne Hsize]. unfold push. wp_simpl.
  eapply wp_consequence; [apply schedule_run_keeps |].
  intros a s1 log1 [Hsame Hlog1].
  pose proof (node_inv_same s s1 Hinv Hsame)
    as [I1 I2 I3 O1 O2 O3 G D1 D2 D3].
  pose proof (max_buffered_range (T := Input)) as Hm.
  pose proof (total_nonneg input) as Hin.
  assert (Ht : total64 input = total input) by (apply total64_total; arith).
  rewrite Ht. wp_simpl.
  destruct (total input =? 0); wp_simpl.
  { unfold maintains. split; [| benign_log]. constructor; cbn; assumption. }
  rewrite u64_small by arith.
  destruct (Z.ltb_spec (max_buffered (T := Input))
              (inbound_buffer_size (inbound s1) + total input))
    as [Hfull | Hroom]; wp_simpl.
  { unfold maintains. split; [| benign_log]. constructor; cbn; assumption. }
  unfold maintains. split; [| benign_log].
  constructor; cbn; try assumption.
  - lia.
  - rewrite total_app. lia.
  - apply Forall_app. now split.
Qed.

Lemma pull_maintains (request : request_id) (sink_ : actor) (batch_size_ : Z)
  (batch_timeout_ : duration) (now : time_point) s :
  node_inv s -> 0 <= batch_size_ ->
  wp (pull request sink_ batch_size_ batch_timeout_ now) maintains s.
Proof.
  intros Hinv Hsize. unfold pull. wp_simpl.
  destruct (reject_demand (outbound s)) eqn:Hrej; wp_simpl.
  { unfold maintains. split; [assumption | benign_log]. }
  eapply wp_consequence; [apply schedule_run_keeps |].
  intros a s1 log1 [Hsame Hlog1].
  pose proof Hsame as (_ & _ & Eo & _).
  pose proof (node_inv_same s s1 Hinv Hsame)
    as [I1 I2 I3 O1 O2 O3 G D1 D2 D3].
  destruct (current_demand (outbound s)); wp_simpl.
  { unfold maintains. split; [| benign_log]. constructor; assumption. }
  unfold maintains. split; [| benign_log].
  constructor; cbn; try assumption.
  - rewrite Eo, Hrej. discriminate.
  - intros d [= <-]. cbn. discriminate.
  - intros d [= <-]. exact Hsize.
Qed.

(** *** The run loop *)

Lemma reschedule_maintains s :
  node_inv s ->
  wp (reschedule input_is_monostate output_is_monostate) maintains s.
Proof.
  intros Hinv. unfold reschedule. wp_branches; wp_simpl;
    first [ now apply schedule_run_maintains
          | exact I
          | split; [assumption | benign_log] ].
Qed.

(** At the end of the generator, a pending demand on an empty outbound buffer
    is answered at once, and no demand remains. *)
Lemma deliver_batches_drained (now : time_point) (d : demand) s :
  node_inv s ->
  current_demand (outbound s) = Some d ->
  outbound_buffer_size (outbound s) = 0 ->
  wp (deliver_batches now true) maintains (set_reject_demand true s).
Proof.
  intros [I1 I2 I3 O1 O2 O3 G D1 D2 D3] Hd Hz.
  unfold deliver_batches. wp_simpl. cbn [outbound set_reject_demand
    set_outbound current_demand]. rewrite Hd.
  destruct (ongoing d) eqn:Hon.
  { specialize (D2 d Hd Hon). lia. }
  wp_simpl.
  destruct (has_instance _); wp_simpl; [| exact I].
  cbn [negb andb outbound_buffer_size]. rewrite Hz.
  specialize (D3 d Hd). rewrite Z.min_l by lia. cbn [Z.eqb]. wp_simpl.
  apply maintains_frame; [| benign_log].
  apply schedule_run_maintains.
  constructor; cbn; try assumption; try discriminate; try reflexivity.
Qed.

Lemma run_maintains (now : time_point) (r : resumption) s :
  node_inv s -> fits r ->
  wp (run input_is_monostate output_is_monostate op_to_string error_to_string
          now r) maintains s.
Proof.
  intros Hinv Hfits. unfold run. wp_simpl.
  destruct (has_instance s); wp_simpl; [| exact I].
  destruct (at_end s).
  - (* the generator has ended *)
    wp_simpl.
    assert (Hexit :
      wp (if negb input_is_monostate
          then match previous (inbound s) with
               | Some prev => tell (send_exit prev)
               | None => ret tt
               end
          else ret tt)
         (keeps s) s).
    { destruct input_is_monostate; cbn [negb]; [| destruct (previous _)];
        wp_simpl; (split; [apply same_buffers_refl | benign_log]). }
    eapply wp_consequence; [exact Hexit |].
    intros a s1 log1 [Hsame Hlog1].
    pose proof Hsame as (_ & _ & Eo & _).
    pose proof (node_inv_same s s1 Hinv Hsame) as Hinv1.
    apply maintains_frame; [| assumption].
    destruct output_is_monostate; cbn [negb]; wp_simpl;
      [split; [assumption | benign_log] |].
    unfold has_demand.
    destruct (current_demand (outbound s)) as [d |] eqn:Hd.
    + cbn [andb orb].
      destruct (Z.eqb_spec (outbound_buffer_size (outbound s)) 0) as [Hz | Hnz];
        wp_simpl.
      * eapply wp_consequence;
          [apply (deliver_batches_drained now d s1); congruence |].
        intros b s2 log2 [Hinv2 Hlog2].
        cbn [app].
        apply maintains_frame; [| assumption].
        now apply schedule_run_maintains.
      * eapply wp_consequence; [now apply deliver_batches_maintains |].
        intros b s2 log2 [Hinv2 Hlog2].
        cbn [app].
        apply maintains_frame; [| assumption].
        now apply schedule_run_maintains.
    + cbn [andb orb]. wp_simpl.
      destruct (0 <? outbound_buffer_size (outbound s)); wp_simpl.
      * eapply wp_consequence; [now apply deliver_batches_maintains |].
        intros b s2 log2 [Hinv2 Hlog2].
        cbn [app].
        apply maintains_frame; [| assumption].
        now apply schedule_run_maintains.
      * split; [assumption | benign_log].
  - (* the generator has more to give *)
    wp_simpl.
    assert (Hdeliver :
      wp (if negb output_is_monostate then deliver_batches now false
          else ret tt) maintains s).
    { destruct output_is_monostate; cbn [negb];
        [wp_simpl; split; [assumption | constructor]
        | now apply deliver_batches_maintains]. }
    eapply wp_consequence; [exact Hdeliver |].
    intros a s1 log1 [Hinv1 Hlog1].
    apply maintains_frame; [| assumption].
    wp_simpl.
    assert (Hrequest :
      wp (if negb input_is_monostate then request_more_input else ret tt)
         maintains s1).
    { destruct input_is_monostate; cbn [negb];
        [wp_simpl; split; [assumption | constructor]
        | apply keeps_maintains;
          [assumption | apply request_more_input_keeps]]. }
    eapply wp_consequence; [exact Hrequest |].
    intros b s2 log2 [Hinv2 Hlog2].
    apply maintains_frame; [| assumption].
    wp_simpl.
    eapply wp_consequence; [now apply advance_generator_maintains |].
    intros c s3 log3 [Hinv3 Hlog3].
    apply maintains_frame; [| assumption].
    now apply reschedule_maintains.
Qed.

Lemma scheduled_action_maintains (now : time_point) (r : resumption) s :
  node_inv s -> fits r ->
  wp (scheduled_action input_is_monostate output_is_monostate op_to_string
        error_to_string now r) maintains s.
Proof.
  intros Hinv Hfits. unfold scheduled_action. wp_simpl.
  destruct (run_scheduled s); wp_simpl; [| exact I].
  apply maintains_frame; [| constructor].
  apply run_maintains; [| assumption].
  apply (node_inv_same s); [assumption | repeat split].
Qed.

(** *** Start-up *)

Lemma wp_if {A} (c : bool) (m1 m2 : M A)
  (Q : A -> state -> list action -> Prop) s :
  (c = true -> wp m1 Q s) -> (c = false -> wp m2 Q s) ->
  wp (if c then m1 else m2) Q s.
Proof. destruct c; auto. Qed.

Lemma start_instantiate_maintains (request : request_id) (chain : list actor)
  (inst : instantiation) s :
  node_inv s ->
  match inst with instantiate_generator first => fits first | _ => True end ->
  wp (start_instantiate input_is_monostate output_is_monostate op_to_string
        error_to_string self_to_string request chain inst) maintains s.
Proof.
  intros Hinv Hfits. destruct inst as [e | | first]; cbn [start_instantiate];
    wp_simpl; try (split; [assumption | constructor]).
  eapply wp_consequence.
  { apply resume_maintains; [| exact Hfits].
    destruct Hinv as [I1 I2 I3 O1 O2 O3 G D1 D2 D3].
    constructor; cbn; try assumption. intros g o [= <-]. discriminate. }
  intros a s1 log1 (Hinv1 & Hlog1 & _ & _). cbn [app].
  wp_branches; wp_simpl; (split; [assumption | benign_log]).
Qed.

Lemma start_maintains (request : request_id) (chain : list actor)
  (inst : instantiation) s :
  node_inv s ->
  match inst with instantiate_generator first => fits first | _ => True end ->
  wp (start input_is_monostate output_is_monostate op_to_string
        error_to_string self_to_string request chain inst) maintains s.
Proof.
  intros Hinv Hfits. unfold start. wp_simpl.
  destruct (has_instance s); wp_simpl; [split; [assumption | constructor] |].
  apply wp_if; intros _.
  - destruct chain; wp_simpl; [| split; [assumption | constructor]].
    apply maintains_frame; [| constructor].
    now apply start_instantiate_maintains.
  - destruct chain as [| first chain']; wp_simpl;
      [split; [assumption | constructor] |].
    apply maintains_frame; [| benign_log].
    apply start_instantiate_maintains; [| assumption].
    apply (node_inv_same s); [assumption | repeat split].
Qed.

(** *** Every handler maintains the invariant *)

Lemma discard_reply_maintains {A} (m : M A) s :
  wp m maintains s -> wp (bind m (fun _ => ret tt)) maintains s.
Proof.
  intros Hwp. wp_simpl. eapply wp_consequence; [exact Hwp |].
  intros a s' log [Hinv Hlog]. wp_simpl. rewrite app_nil_r. now split.
Qed.

Lemma handle_maintains (e : event) s :
  node_inv s -> enabled s e ->
  wp (handle input_is_monostate output_is_monostate op_to_string
        error_to_string self_to_string e) maintains s.
Proof.
  intros Hinv Hen. destruct e; cbn [handle enabled] in *.
  - apply discard_reply_maintains. now apply start_maintains.
  - apply keeps_maintains; [assumption | apply start_handle_result_keeps].
  - apply keeps_maintains; [assumption | apply start_handle_error_keeps].
  - apply discard_reply_maintains. unfold on_push.
    apply wp_if; intros _;
      [wp_simpl; split; [assumption | constructor] | now apply push_maintains].
  - apply discard_reply_maintains. unfold on_pull.
    apply wp_if; intros _;
      [wp_simpl; split; [assumption | constructor] | now apply pull_maintains].
  - now apply scheduled_action_maintains.
  - destruct Hen as [Hcap _]. now apply push_handle_result_maintains.
  - now apply push_handle_error_maintains.
  - apply keeps_maintains; [assumption | apply request_handle_result_keeps].
  - apply keeps_maintains; [assumption | apply request_handle_error_keeps].
  - apply keeps_maintains; [assumption | apply down_handler_keeps].
  - apply keeps_maintains; [assumption | apply ctrl_abort_keeps].
  - apply keeps_maintains; [assumption | apply ctrl_warn_keeps].
Qed.

Lemma initial_state_inv : node_inv (@initial_state Input Output).
Proof.
  pose proof (max_buffered_range (T := Input)) as Hi.
  pose proof (max_buffered_range (T := Output)) as Ho.
  constructor; cbn; try discriminate; try constructor; try arith;
    try reflexivity.
Qed.

(** The invariant holds in every state a node can be in. *)
Lemma reachable_inv s :
  reachable input_is_monostate output_is_monostate op_to_string
    error_to_string self_to_string s ->
  node_inv s.
Proof.
  induction 1 as [| s s' e log Hreach IH Hen Hstep].
  - apply initial_state_inv.
  - pose proof (handle_maintains e s IH Hen) as Hwp.
    apply (wp_returns _ _ _ _ _ _ Hwp) in Hstep. apply Hstep.
Qed.

(** Every batch a node pushes downstream is one a linked node accepts. *)
Lemma reachable_pushes s (e : event) (batch : list Output) :
  reachable input_is_monostate output_is_monostate op_to_string
    error_to_string self_to_string s ->
  enabled s e ->
  pushes input_is_monostate output_is_monostate op_to_string error_to_string
    self_to_string s e batch ->
  linked_push batch /\ 0 < total batch.
Proof.
  intros Hreach Hen (s' & log & to & await & Hstep & Hin).
  pose proof (handle_maintains e s (reachable_inv s Hreach) Hen) as Hwp.
  apply (wp_returns _ _ _ _ _ _ Hwp) in Hstep. destruct Hstep as [_ Hlog].
  rewrite Forall_forall in Hlog. exact (Hlog _ Hin to batch await eq_refl).
Qed.

End NodeInvariant.

(* ================================================================= *)
(** ** The execution node: pull, push and abort *)

Section NodeClaims.
Import Batch Caf ExecNode.
Context {Input Output : Type} `{ElementLaws Input} `{ElementLaws Output}.
Variable input_is_monostate output_is_monostate : bool.
Variable op_to_string : string.
Variable error_to_string : error -> string.
Variable self_to_string : string.

Local Abbreviation state := (@exec_node_state Input Output).
Local Abbreviation M := (@ExecNode.M Input Output).
Local Abbreviation action := (@ExecNode.action Output).

Implicit Types s : state.

(** [schedule_run] returns, and changes the scheduling flag only. *)
Lemma schedule_run_returns s :
  exists s' log,
    schedule_run s = Ok tt s' log
    /\ inbound s' = inbound s /\ outbound s' = outbound s
    /\ num_inbound_batches s' = num_inbound_batches s
    /\ inbound_total s' = inbound_total s.
Proof.
  unfold schedule_run, bind, get.
  destruct (negb (has_instance s) || run_scheduled s); cbn.
  - now exists s, [].
  - eexists _, _. repeat split.
Qed.

(** C5. For a node that is not a source, [push] succeeds exactly when the
    total size of the elements is not zero and [inbound_buffer_size] plus
    that total does not exceed [max_buffered] of the input type.  On success
    the elements are appended to the inbound buffer in order and
    [inbound_buffer_size] grows by the total; on rejection a [logic_error]
    is returned and the inbound buffer and [inbound_buffer_size] are as
    before.  The sizes are those of a 64-bit counter. *)
Theorem push_accepts (input : list Input) s :
  input_is_monostate = false ->
  0 <= inbound_buffer_size (inbound s) ->
  inbound_buffer_size (inbound s) + total input < two64 ->
  exists r s' log,
    on_push input_is_monostate self_to_string input s = Ok r s' log
    /\ (r = reply_void
        <-> total input <> 0
            /\ inbound_buffer_size (inbound s) + total input
               <= max_buffered (T := Input))
    /\ (r = reply_void ->
        inbound_buffer (inbound s') = inbound_buffer (inbound s) ++ input
        /\ inbound_buffer_size (inbound s')
           = inbound_buffer_size (inbound s) + total input)
    /\ (r <> reply_void ->
        (exists e, r = reply_error e /\ code e = logic_error)
        /\ inbound_buffer (inbound s') = inbound_buffer (inbound s)
        /\ inbound_buffer_size (inbound s') = inbound_buffer_size (inbound s)).
Proof.
  intros Hsrc Hsize Hfit.
  pose proof (total_nonneg input) as Htot.
  assert (Ht : total64 input = total input) by (apply total64_total; lia).
  unfold on_push. rewrite Hsrc. unfold push.
  destruct (schedule_run_returns s) as (s1 & log1 & Hrun & Ei & Eo & En & Et).
  unfold bind at 1. rewrite Hrun. unfold bind, get, modify, ret. cbn.
  rewrite Ht, Ei.
  destruct (Z.eqb_spec (total input) 0) as [Hz | Hnz]; cbn.
  { eexists _, _, _. split; [reflexivity |]. cbn. rewrite ?Ei.
    repeat split; try discriminate; try tauto; intros; try lia.
    eexists. split; reflexivity. }
  rewrite u64_small by lia.
  destruct (Z.ltb_spec (max_buffered (T := Input))
              (inbound_buffer_size (inbound s) + total input))
    as [Hfull | Hroom]; cbn.
  { eexists _, _, _. split; [reflexivity |]. cbn. rewrite ?Ei.
    repeat split; try discriminate; try tauto; intros; try lia.
    eexists. split; reflexivity. }
  eexists _, _, _. split; [reflexivity |]. cbn. rewrite ?Ei.
  repeat split; try tauto; intros; try lia; try congruence.
Qed.

(** [pull] on a node that rejects demand. *)
Lemma pull_rejecting (request : request_id) (sink_ : actor) (batch_size_ : Z)
  (batch_timeout_ : duration) (now : time_point) s :
  reject_demand (outbound s) = true ->
  pull request sink_ batch_size_ batch_timeout_ now s
  = Ok reply_void s [make_response_promise request;
                     run_delayed batch_timeout_ (deliver request None)].
Proof. intros Hrej. unfold pull, bind, get. rewrite Hrej. reflexivity. Qed.

(** C6. On a node with an output, whenever a [pull] arrives while a demand
    is pending, it is rejected with the [logic_error] "concurrent pull", and
    the pending demand is as before. *)
Theorem concurrent_pull_rejected (d : demand) (request : request_id)
  (sink_ : actor) (batch_size_ : Z) (batch_timeout_ : duration)
  (now : time_point) s :
  reachable input_is_monostate output_is_monostate op_to_string
    error_to_string self_to_string s ->
  output_is_monostate = false ->
  current_demand (outbound s) = Some d ->
  exists s' log,
    on_pull output_is_monostate self_to_string request sink_ batch_size_
            batch_timeout_ now s
    = Ok (reply_error (make_error logic_error "concurrent pull")) s' log
    /\ current_demand (outbound s') = Some d.
Proof.
  intros Hreach Hout Hd.
  pose proof (reachable_inv _ _ _ _ _ s Hreach) as Hinv.
  assert (Hrej : reject_demand (outbound s) = false).
  { destruct (reject_demand (outbound s)) eqn:Hrej; [| reflexivity].
    pose proof (inv_reject_demand _ Hinv Hrej). congruence. }
  unfold on_pull. rewrite Hout. unfold pull.
  destruct (schedule_run_returns s) as (s1 & log1 & Hrun & Ei & Eo & _).
  unfold bind at 1, get at 1. rewrite Hrej.
  unfold bind at 1. rewrite Hrun. rewrite Hd. cbn.
  eexists _, _. split; [reflexivity |]. now rewrite Eo.
Qed.

(** *** Abort *)

(** [emit] calls [abort], as the source has it. *)
Lemma emit_calls_abort (d : diagnostic) s :
  emit op_to_string error_to_string d s
  = emit_over (ctrl_abort op_to_string error_to_string) d s.
Proof. reflexivity. Qed.

Lemma ctrl_abort_loud (e : error) s :
  has_code e silent = false ->
  exists s',
    ctrl_abort op_to_string error_to_string e s
    = Ok tt s' [send_diagnostic
                  (diagnostic_of op_to_string error_to_string
                                 severity_error e)]
    /\ abort s' <> None
    /\ (abort s <> None -> abort s' = abort s)
    /\ outbound s' = outbound s /\ inbound s' = inbound s.
Proof.
  intros Hloud.
  unfold ctrl_abort, abort_over, emit, emit_over, abort_over, bind, get,
    modify, tell, ret.
  rewrite Hloud. cbn.
  destruct (has_seen_error_ s); cbn; destruct (abort s) eqn:Ha; cbn;
    rewrite ?Ha; cbn; rewrite ?Ha;
    eexists; (split; [reflexivity |]); cbn; rewrite ?Ha;
    repeat split; congruence.
Qed.

Lemma ctrl_abort_silent (e : error) s :
  has_code e silent = true ->
  ctrl_abort op_to_string error_to_string e s
  = Ok tt (match abort s with
           | Some _ => s
           | None => set_abort (Some (make_error silent (error_to_string e))) s
           end) [].
Proof.
  intros Hsilent.
  unfold ctrl_abort, abort_over, bind, get, modify, ret.
  rewrite Hsilent. cbn. now destruct (abort s).
Qed.

(** C9, as amended.  Every invocation of [abort] with an error other than
    the silent one emits one error diagnostic of its own, so two invocations
    emit two; the abort latch is set by the first invocation and the second
    leaves it as it is.  An abort with the silent error emits no diagnostic,
    sets the latch if it is unset and leaves it alone otherwise. *)
Theorem abort_latches_once (e1 e2 e0 : error) s :
  has_code e1 silent = false ->
  has_code e2 silent = false ->
  has_code e0 silent = true ->
  (exists s1 s2 log1 log2,
      ctrl_abort op_to_string error_to_string e1 s = Ok tt s1 log1
      /\ ctrl_abort op_to_string error_to_string e2 s1 = Ok tt s2 log2
      /\ length (error_diagnostics log1) = 1%nat
      /\ length (error_diagnostics log2) = 1%nat
      /\ abort s1 <> None
      /\ abort s2 = abort s1)
  /\ (exists s0,
        ctrl_abort op_to_string error_to_string e0 s = Ok tt s0 []
        /\ abort s0 <> None
        /\ (abort s <> None -> abort s0 = abort s)).
Proof.
  intros H1' H2' H0'. split.
  - destruct (ctrl_abort_loud e1 s H1') as (s1 & Hrun1 & Hset1 & _).
    destruct (ctrl_abort_loud e2 s1 H2') as (s2 & Hrun2 & _ & Hkeep2 & _).
    exists s1, s2. eexists _, _.
    split; [exact Hrun1 |]. split; [exact Hrun2 |].
    repeat split; auto.
  - rewrite (ctrl_abort_silent e0 s H0'). eexists. split; [reflexivity |].
    destruct (abort s) eqn:Ha; cbn; rewrite ?Ha; split; congruence.
Qed.

(** *** Buffer bounds *)

Lemma adapter_next_outbound s :
  wp adapter_next (fun _ s' _ => outbound s' = outbound s) s.
Proof.
  unfold adapter_next, adapter_from_head, adapter_take. wp_simpl.
  destruct (input_adapter s); wp_simpl; try exact I;
    repeat match goal with
           | |- context [if ?c then _ else _] => destruct c; wp_simpl
           | |- context [match inbound_buffer ?i with _ => _ end] =>
               destruct (inbound_buffer i); wp_simpl
           end;
    try exact I; reflexivity.
Qed.

Lemma run_calls_outbound (cs : list body_call) s :
  wp (run_calls input_is_monostate op_to_string error_to_string cs)
     (fun _ s' _ => outbound s' = outbound s) s.
Proof.
  revert s. induction cs as [| c cs IH]; intros s; cbn [run_calls]; wp_simpl;
    [reflexivity |].
  assert (Hcall :
    wp (run_call input_is_monostate op_to_string error_to_string c)
       (fun _ s' _ => outbound s' = outbound s) s).
  { destruct c as [| e | e]; cbn [run_call].
    - destruct input_is_monostate; wp_simpl; [exact I |].
      eapply wp_consequence; [apply adapter_next_outbound |].
      intros a s' log Eo. now wp_simpl.
    - eapply wp_consequence; [apply ctrl_abort_keeps |].
      now intros a s' log [(_ & _ & Eo & _) _].
    - eapply wp_consequence; [apply ctrl_warn_keeps |].
      now intros a s' log [(_ & _ & Eo & _) _]. }
  eapply wp_consequence; [exact Hcall |].
  intros a s1 log1 Eo1. eapply wp_consequence; [apply IH |].
  intros b s2 log2 Eo2. congruence.
Qed.

(** [advance_generator] appends to the outbound buffer only when the buffer
    is below its bound. *)
Lemma advance_generator_appends (r : resumption) s :
  node_inv s ->
  wp (advance_generator input_is_monostate output_is_monostate op_to_string
        error_to_string r)
     (fun _ s' _ =>
        output_is_monostate = false ->
        forall next,
          outbound_buffer (outbound s')
          = outbound_buffer (outbound s) ++ [next] ->
          outbound_buffer_size (outbound s) < max_buffered (T := Output)
          /\ outbound_buffer_size (outbound s')
             = outbound_buffer_size (outbound s) + size next) s.
Proof.
  intros Hinv. pose proof Hinv as [I1 I2 I3 O1 O2 O3 G D1 D2 D3].
  pose proof (max_buffered_range (T := Output)) as Hm.
  assert (Hsame : forall (l : list Output) x, l = l ++ [x] -> False).
  { intros l x E. apply (f_equal (@length _)) in E.
    rewrite length_app in E. cbn in E. lia. }
  unfold advance_generator, resume, advance_finish. wp_simpl.
  destruct (instance s) as [g |] eqn:Hi; wp_simpl; [| exact I].
  destruct (it g) as [next0 |] eqn:Hit; wp_simpl; [| exact I].
  specialize (G g next0 eq_refl Hit).
  apply wp_if; intros Hout; wp_simpl.
  { eapply wp_consequence; [apply run_calls_outbound |].
    intros a s1 log1 Eo1. cbn beta in Eo1. wp_simpl. cbn.
    destruct (abort s1); wp_simpl; intros Hno; congruence. }
  destruct (Z.leb_spec (max_buffered (T := Output))
              (outbound_buffer_size (outbound s))) as [Hfull | Hroom];
    wp_simpl.
  { intros _ next E. now elim (Hsame _ _ E). }
  eapply wp_consequence; [apply run_calls_outbound |].
  intros a s1 log1 Eo1. cbn beta in Eo1. wp_simpl. cbn.
  destruct (Z.ltb_spec 0 (size next0)) as [Hpos | Hzero]; wp_simpl; cbn.
  - destruct (abort s1); wp_simpl; cbn; rewrite ?Eo1; intros _ next E;
      apply app_inj_tail in E; destruct E as [_ <-];
      (split; [assumption | apply u64_small; arith]).
  - destruct (abort s1); wp_simpl; cbn; rewrite ?Eo1; intros _ next E;
      now elim (Hsame _ _ E).
Qed.

(** A batch that [push] accepts leaves the inbound buffer within its bound,
    whatever the state and the batch. *)
Lemma push_accepted_bound (input : list Input) s s' (log : list action) :
  push input s = Ok reply_void s' log ->
  0 <= inbound_buffer_size (inbound s') <= max_buffered (T := Input).
Proof.
  unfold push. destruct (schedule_run_returns s)
    as (s1 & log1 & Hrun & Ei & Eo & _).
  unfold bind at 1. rewrite Hrun. unfold bind, get, modify, ret. cbn.
  destruct (total64 input =? 0); cbn; [discriminate |].
  destruct (Z.ltb_spec (max_buffered (T := Input))
              (u64 (inbound_buffer_size (inbound s1) + total64 input)))
    as [Hfull | Hroom]; cbn; [discriminate |].
  intros [= <- _]. cbn.
  pose proof (u64_range (inbound_buffer_size (inbound s1) + total64 input)).
  lia.
Qed.

(** What the code keeps of the bounds on the buffers.  In every state of a
    node the inbound buffer size is at most [max_buffered] of the input type,
    also right after [push] has appended a batch it accepted.  The outbound
    buffer size is below [max_buffered] of the output type whenever
    [advance_generator] appends an element, so right after the append it is
    below [max_buffered] plus the size of that element, and no more is
    kept: it stays below [max_buffered] plus the size limit of a single
    element. *)
Theorem buffer_bounds s :
  reachable input_is_monostate output_is_monostate op_to_string
    error_to_string self_to_string s ->
  0 <= inbound_buffer_size (inbound s) <= max_buffered (T := Input)
  /\ 0 <= outbound_buffer_size (outbound s)
     < max_buffered (T := Output) + yield_limit
  /\ (forall input s' log,
        push input s = Ok reply_void s' log ->
        0 <= inbound_buffer_size (inbound s') <= max_buffered (T := Input))
  /\ (forall r b s' log next,
        output_is_monostate = false ->
        advance_generator input_is_monostate output_is_monostate op_to_string
          error_to_string r s = Ok b s' log ->
        outbound_buffer (outbound s')
        = outbound_buffer (outbound s) ++ [next] ->
        outbound_buffer_size (outbound s) < max_buffered (T := Output)
        /\ outbound_buffer_size (outbound s')
           < max_buffered (T := Output) + size next).
Proof.
  intros Hreach. pose proof (reachable_inv _ _ _ _ _ s Hreach) as Hinv.
  split; [apply Hinv |]. split; [apply Hinv |]. split.
  - intros input s' log. apply push_accepted_bound.
  - intros r b s' log next Hout Hrun Happ.
    pose proof (advance_generator_appends r s Hinv) as Hwp.
    pose proof (wp_returns _ _ _ _ _ _ Hwp Hrun) as Hpost. cbn beta in Hpost.
    destruct (Hpost Hout next Happ) as [Hroom Hsize]. split; [assumption | lia].
Qed.

(** *** Empty elements *)

(** [push] rejects a batch whose sizes add up to zero, and leaves the inbound
    state alone. *)
Lemma push_rejects_empty (input : list Input) s :
  total64 input = 0 ->
  exists s' log,
    push input s
    = Ok (reply_error (make_error logic_error "received empty batch")) s' log
    /\ inbound s' = inbound s.
Proof.
  intros Hz. unfold push.
  destruct (schedule_run_returns s) as (s1 & log1 & Hrun & Ei & _).
  unfold bind at 1. rewrite Hrun. unfold bind, get, modify, ret. cbn.
  rewrite Hz. cbn. eexists _, _. split; [reflexivity |]. cbn. exact Ei.
Qed.

(** The input adapter yields the empty token when the inbound buffer is
    empty, and otherwise the element at the front of the buffer, which is
    not empty. *)
Lemma adapter_next_dequeues s :
  node_inv s ->
  wp adapter_next
     (fun r s' _ =>
        forall x, r = Some x ->
          (x = empty /\ inbound_buffer (inbound s) = []
           /\ inbound_buffer (inbound s') = [])
          \/ (0 < size x
              /\ inbound_buffer (inbound s) = x :: inbound_buffer (inbound s')))
     s.
Proof.
  intros [I1 I2 I3 O1 O2 O3 G D1 D2 D3].
  assert (Htake : forall next rest,
    inbound_buffer (inbound s) = next :: rest ->
    wp (adapter_take next rest)
       (fun r s' _ =>
          forall x, r = Some x ->
            (x = empty /\ inbound_buffer (inbound s) = []
             /\ inbound_buffer (inbound s') = [])
            \/ (0 < size x
                /\ inbound_buffer (inbound s)
                   = x :: inbound_buffer (inbound s'))) s).
  { intros next rest Hbuf. unfold adapter_take. wp_simpl.
    destruct (negb (size next =? 0)); wp_simpl; [| exact I].
    intros x [= <-]. right. cbn. rewrite Hbuf in I3.
    inversion I3; subst. split; assumption. }
  assert (Hhead :
    wp adapter_from_head
       (fun r s' _ =>
          forall x, r = Some x ->
            (x = empty /\ inbound_buffer (inbound s) = []
             /\ inbound_buffer (inbound s') = [])
            \/ (0 < size x
                /\ inbound_buffer (inbound s)
                   = x :: inbound_buffer (inbound s'))) s).
  { unfold adapter_from_head. wp_simpl.
    destruct (_ || _ || _); wp_simpl; [| discriminate].
    destruct (inbound_buffer_size (inbound s) =? 0); wp_simpl.
    - destruct (inbound_buffer (inbound s)) eqn:Hbuf; wp_simpl; [| exact I].
      intros x [= <-]. left. cbn. rewrite Hbuf. repeat split.
    - destruct (inbound_buffer (inbound s)) as [| next rest] eqn:Hbuf;
        wp_simpl; [exact I |].
      apply Htake. reflexivity. }
  unfold adapter_next. wp_simpl.
  destruct (input_adapter s); wp_simpl; [exact Hhead | | exact I].
  destruct (inbound_buffer (inbound s)) as [| next rest] eqn:Hbuf;
    [exact Hhead | now apply Htake].
Qed.

(** [advance_generator] does not buffer an empty element. *)
Lemma advance_generator_discards (r : resumption) (g : resumable_generator)
  (next : Output) s :
  instance s = Some g -> it g = Some next -> size next = 0 ->
  wp (advance_generator input_is_monostate output_is_monostate op_to_string
        error_to_string r)
     (fun _ s' _ => outbound s' = outbound s) s.
Proof.
  intros Hi Hit Hz. unfold advance_generator, resume, advance_finish.
  wp_simpl. rewrite Hi. wp_simpl. rewrite Hit. wp_simpl.
  apply wp_if; intros _; wp_simpl.
  { eapply wp_consequence; [apply run_calls_outbound |].
    intros a s1 log1 Eo1. cbn beta in Eo1. wp_simpl. cbn.
    destruct (abort s1); wp_simpl; cbn; exact Eo1. }
  destruct (_ <=? _); wp_simpl; [reflexivity |].
  eapply wp_consequence; [apply run_calls_outbound |].
  intros a s1 log1 Eo1. cbn beta in Eo1. wp_simpl. rewrite Hz. cbn [Z.ltb Z.compare].
  wp_simpl. cbn.
  destruct (abort s1); wp_simpl; cbn; exact Eo1.
Qed.

End NodeClaims.

(* ================================================================= *)
(** ** Linked nodes *)

Section NodeLinks.
Import Batch Caf ExecNode.
Context {Input Output Next : Type}
  `{ElementLaws Input} `{ElementLaws Output} `{ElementLaws Next}.
Variable input_is_monostate output_is_monostate : bool.
Variable op_to_string : string.
Variable error_to_string : error -> string.
Variable self_to_string : string.

(** A batch with a total size other than zero does not take the branch
    "received empty batch" of [push]. *)
Lemma push_not_empty (batch : list Output)
  (d : @exec_node_state Output Next) :
  0 < total batch < two64 ->
  exists r d' log,
    push batch d = Ok r d' log
    /\ r <> reply_error (make_error logic_error "received empty batch").
Proof.
  intros Htot.
  assert (Ht : total64 batch = total batch) by (apply total64_total; lia).
  unfold push. destruct (schedule_run_returns d)
    as (d1 & log1 & Hrun & Ei & Eo & _).
  unfold bind at 1. rewrite Hrun. unfold bind, get, modify, ret. cbn.
  rewrite Ht. destruct (Z.eqb_spec (total batch) 0) as [Hz | _]; [lia |].
  cbn. destruct (_ <? _); cbn; eexists _, _, _;
    (split; [reflexivity | discriminate]).
Qed.

(** C10. In every state of a node fed by linked nodes, every element held in
    the inbound or in the outbound buffer has a size greater than zero: [push] rejects a batch
    of total size zero, the input adapter dequeues non-empty elements only
    (and yields the empty token when the buffer is empty), and
    [advance_generator] leaves an empty yield out of the outbound buffer.
    Consequently every batch a node pushes downstream when it fulfils a
    demand holds non-empty elements only and has a total size other than
    zero, and the receiving node does not answer it with the [logic_error]
    "received empty batch". *)
Theorem buffered_elements_nonempty (s : @exec_node_state Input Output) :
  reachable input_is_monostate output_is_monostate op_to_string
    error_to_string self_to_string s ->
  (Forall (fun x => 0 < size x) (inbound_buffer (inbound s))
   /\ Forall (fun x => 0 < size x) (outbound_buffer (outbound s)))
  /\ (forall input, total64 input = 0 ->
      exists s' log,
        push input s
        = Ok (reply_error (make_error logic_error "received empty batch"))
             s' log
        /\ inbound s' = inbound s)
  /\ (forall x s' log,
        adapter_next s = Ok (Some x) s' log ->
        (x = empty /\ inbound_buffer (inbound s) = []
         /\ inbound_buffer (inbound s') = [])
        \/ (0 < size x
            /\ inbound_buffer (inbound s) = x :: inbound_buffer (inbound s')))
  /\ (forall r g next b s' log,
        instance s = Some g -> it g = Some next -> size next = 0 ->
        advance_generator input_is_monostate output_is_monostate op_to_string
          error_to_string r s = Ok b s' log ->
        outbound s' = outbound s)
  /\ (forall (e : @event Input Output) (batch : list Output),
        enabled s e ->
        pushes input_is_monostate output_is_monostate op_to_string
          error_to_string self_to_string s e batch ->
        (Forall (fun x => 0 < size x) batch /\ 0 < total batch)
        /\ forall d : @exec_node_state Output Next,
             exists r d' log,
               push batch d = Ok r d' log
               /\ r <> reply_error
                         (make_error logic_error "received empty batch")).
Proof.
  intros Hreach.
  pose proof (reachable_inv _ _ _ _ _ s Hreach) as Hinv.
  pose proof (max_buffered_range (T := Output)) as Hm.
  split; [split; apply Hinv |].
  split; [intros input; apply push_rejects_empty |].
  split.
  { intros x s' log Hrun.
    exact (wp_returns _ _ _ _ _ _ (adapter_next_dequeues s Hinv) Hrun x
             eq_refl). }
  split.
  { intros r g next b s' log Hi Hit Hz Hrun.
    exact (wp_returns _ _ _ _ _ _
             (advance_generator_discards _ _ _ _ r g next s Hi Hit Hz) Hrun). }
  intros e batch Hen Hpush.
  destruct (reachable_pushes _ _ _ _ _ s e batch Hreach Hen Hpush)
    as [[Hne Hsize] Hpos].
  split; [split; assumption |].
  intros d. apply push_not_empty. arith.
Qed.

End NodeLinks.

(* ================================================================= *)
(** ** Example runs *)

Section Runs.
Import Batch Caf ExecNode.
Context {Input Output : Type} `{ElementLaws Input} `{ElementLaws Output}.
Variable input_is_monostate output_is_monostate : bool.
Variable op_to_string : string.
Variable error_to_string : error -> string.
Variable self_to_string : string.

(** A node that can be in [s] can be in the state after an enabled event
    that it handles without stopping. *)
Lemma reachable_after (e : @event Input Output) (s : exec_node_state) :
  reachable input_is_monostate output_is_monostate op_to_string
    error_to_string self_to_string s ->
  enabled s e ->
  returns (handle input_is_monostate output_is_monostate op_to_string
             error_to_string self_to_string e) s = true ->
  reachable input_is_monostate output_is_monostate op_to_string
    error_to_string self_to_string
    (after input_is_monostate output_is_monostate op_to_string
       error_to_string self_to_string e s).
Proof.
  intros Hreach Hen Hret. unfold returns, after in *.
  destruct (handle _ _ _ _ _ e s) as [[] s' log | what] eqn:Hstep;
    [| discriminate].
  now apply (reachable_step _ _ _ _ _ s s' e log).
Qed.

End Runs.

Section ExampleRuns.
Import Batch Caf ExecNode Examples.

Lemma batch_of_size (n : Z) : 0 <= n -> size (batch_of n) = n.
Proof.
  intros Hn. cbn. unfold rows, batch_of. rewrite repeat_length. lia.
Qed.

Lemma started_reachable (n : Z) :
  0 <= n < yield_limit ->
  source_reachable
    (after true false "source" context "exec-node" (start_with n)
       initial_state).
Proof.
  intros Hn. apply reachable_after.
  - apply reachable_initial.
  - cbn [enabled start_with fits yields]. rewrite batch_of_size; lia.
  - reflexivity.
Qed.

Lemma asked_reachable : source_reachable asked.
Proof.
  apply reachable_after.
  - apply started_reachable. unfold yield_limit. lia.
  - cbn. lia.
  - reflexivity.
Qed.

Lemma filled_reachable : source_reachable filled.
Proof.
  apply reachable_after.
  - apply asked_reachable.
  - exact I.
  - reflexivity.
Qed.

Lemma overfull_reachable : source_reachable overfull.
Proof.
  apply reachable_after.
  - apply reachable_after.
    + apply started_reachable. unfold yield_limit, Ki. lia.
    + cbn. lia.
    + vm_compute. reflexivity.
  - exact I.
  - vm_compute. reflexivity.
Qed.

(** A single element can take the outbound buffer over the bound as well: a
    source whose operator yields a batch of [Ki 254 + 1] rows holds, right
    after [advance_generator] has appended the batch, more than
    [max_buffered] rows in its outbound buffer. *)
Lemma outbound_bound_counterexample :
  source_reachable overfull
  /\ outbound_buffer_size (outbound overfull) = Ki 254 + 1
  /\ max_buffered (T := events) < outbound_buffer_size (outbound overfull).
Proof.
  split; [apply overfull_reachable |].
  assert (Hsize : outbound_buffer_size (outbound overfull) = Ki 254 + 1)
    by (vm_compute; reflexivity).
  split; [exact Hsize |]. rewrite Hsize. reflexivity.
Qed.

End ExampleRuns.

(* ================================================================= *)
(** ** The claims at concrete inputs *)

Section Witnesses.
Import Batch Caf ExecNode Examples.

Lemma split_round_trip_witness :
  let x : chunk_ptr := Some [x01; x02; x03]%byte in
  let chunks : list chunk_ptr := [Some [x01; x02]%byte; Some [x03; x04]%byte] in
  (fst (split x 2), snd (split x 2))
  = (Some [x01; x02]%byte, Some [x03]%byte)
  /\ content (fst (split_vec chunks 3)) ++ content (snd (split_vec chunks 3))
     = content chunks
  /\ total (fst (split_vec chunks 3)) = 3.
Proof.
  destruct (split_round_trip (Some [x01; x02; x03]%byte)
              [Some [x01; x02]%byte; Some [x03; x04]%byte] 3 ltac:(lia))
    as [_ (Hcontent & Htotal & _)].
  split; [reflexivity |]. split; [exact Hcontent | exact Htotal].
Defined.

Lemma write_to_construction_witness :
  snd (WriteTo.write_make_operator find_printer find_saver parse_name "json")
  = inr (WriteTo.pipeline [WriteTo.print_operator json_printer;
                           WriteTo.save_operator stdout_saver]).
Proof.
  destruct (write_to_construction find_printer find_saver parse_name
              parse_name "json" json_printer stdout_saver) as [Hwrite _].
  apply Hwrite; [| reflexivity | reflexivity].
  exists "json"%string, None. cbn. repeat split.
  exists "stdout"%string, tt. split; reflexivity.
Defined.

Lemma push_accepts_witness :
  exists r s' log,
    on_push false "exec-node" [batch_of 1] (@initial_state events events)
    = Ok r s' log
    /\ r = reply_void
    /\ inbound_buffer_size (inbound s') = 1.
Proof.
  destruct (push_accepts false "exec-node" [batch_of 1]
              (@initial_state events events) eq_refl)
    as (r & s' & log & Hrun & Hiff & Hok & _).
  - cbn. lia.
  - vm_compute. reflexivity.
  - assert (Hr : r = reply_void).
    { apply Hiff. vm_compute. split; discriminate. }
    exists r, s', log. split; [exact Hrun |]. split; [exact Hr |].
    apply (Hok Hr).
Defined.

Lemma concurrent_pull_rejected_witness :
  exists s' log,
    on_pull false "exec-node" 2%nat 7%nat 16 250 5 asked
    = Ok (reply_error (make_error logic_error "concurrent pull")) s' log
    /\ current_demand (outbound s')
       = Some {| rp := 1%nat; sink := 7%nat; batch_size := 1;
                 batch_timeout := 10; ongoing := false |}.
Proof.
  apply (concurrent_pull_rejected true false "source" context "exec-node").
  - apply asked_reachable.
  - reflexivity.
  - vm_compute. reflexivity.
Defined.

Lemma abort_latches_once_witness :
  exists s1 s2 log1 log2,
    ctrl_abort "source" context (make_error logic_error "first")
               (@initial_state events events) = Ok tt s1 log1
    /\ ctrl_abort "source" context (make_error unspecified "second") s1
       = Ok tt s2 log2
    /\ length (error_diagnostics log1) = 1%nat
    /\ length (error_diagnostics log2) = 1%nat
    /\ abort s1 <> None
    /\ abort s2 = abort s1.
Proof.
  exact (proj1 (abort_latches_once "source" context
                  (make_error logic_error "first")
                  (make_error unspecified "second")
                  (make_error silent "quiet")
                  (@initial_state events events) eq_refl eq_refl eq_refl)).
Defined.

Lemma buffer_bounds_witness :
  0 <= outbound_buffer_size (outbound filled)
  < max_buffered (T := events) + yield_limit.
Proof.
  exact (proj1 (proj2 (buffer_bounds true false "source" context "exec-node"
                         filled filled_reachable))).
Defined.

Lemma buffered_elements_nonempty_witness :
  Forall (fun x : events => 0 < size x) (outbound_buffer (outbound filled))
  /\ Forall (fun x : events => 0 < size x) [batch_of 1]
  /\ exists r d' log,
       push [batch_of 1] (@initial_state events events) = Ok r d' log
       /\ r <> reply_error (make_error logic_error "received empty batch").
Proof.
  destruct (buffered_elements_nonempty (Next := events) true false "source"
              context "exec-node" filled filled_reachable)
    as ([_ Hout] & _ & _ & _ & Hpush).
  destruct (Hpush run_to_end [batch_of 1]) as [[Hne _] Haccepts].
  - exact I.
  - eexists _, _, _, _. split.
    + vm_compute. reflexivity.
    + left. reflexivity.
  - split; [exact Hout |]. split; [exact Hne |].
    exact (Haccepts (@initial_state events events)).
Defined.

(** C9 as stated fails: two invocations of [abort] with errors other than
    the silent one emit two error diagnostics, not one. *)
Lemma abort_twice_counterexample :
  let e1 := make_error logic_error "first" in
  let e2 := make_error unspecified "second" in
  has_code e1 silent = false /\ has_code e2 silent = false
  /\ exists s1 s2 log1 log2,
       ctrl_abort "source" context e1 (@initial_state events events)
       = Ok tt s1 log1
       /\ ctrl_abort "source" context e2 s1 = Ok tt s2 log2
       /\ length (error_diagnostics (log1 ++ log2)) = 2%nat
       /\ length (error_diagnostics (log1 ++ log2)) <> 1%nat.
Proof.
  cbn zeta. split; [reflexivity |]. split; [reflexivity |].
  eexists _, _, _, _. split; [vm_compute; reflexivity |].
  split; [vm_compute; reflexivity |].
  split; [reflexivity | discriminate].
Qed.

End Witnesses.
(* ================================================================= *)
(** ** The [slice] operator: absent bounds, reading, buffering *)

Section SliceReading.
Import Batch Slice.
Context {row : Type}.
Variable moved_from : table_slice row -> table_slice row.

Local Abbreviation batch := (table_slice row).

Implicit Types input buffer yields pre post : list batch.

(** X1. An absent end bound stands for the end of the stream and an absent
    begin bound for its start.  With a begin bound only, [slice] drops the
    first [b] rows for [b >= 0] and keeps the last [-b] rows for [b < 0]; with
    an end bound only, it keeps the first [e] rows for [e >= 0] and drops the
    last [-e] rows for [e < 0]; with neither bound it returns its input as it
    is. *)
Theorem slice_absent_bounds input (b e : Z) :
  let N := Z.of_nat (length (stream_rows input)) in
  slice_operator moved_from None None input = input
  /\ stream_rows (slice_operator moved_from (Some b) None input)
     = skipn (Z.to_nat (if 0 <=? b then b else N + b)) (stream_rows input)
  /\ stream_rows (slice_operator moved_from None (Some e) input)
     = firstn (Z.to_nat (if 0 <=? e then e else N + e)) (stream_rows input).
Proof.
  intros N. split; [reflexivity |]. split.
  - unfold slice_operator, value_or.
    destruct (Z.leb_spec 0 b) as [Hb | Hb].
    + rewrite positive_begin_negative_end_rows by assumption.
      unfold rows_at. rewrite Z.add_0_r, Nat2Z.id. now rewrite firstn_all.
    + rewrite negative_begin_negative_end_rows.
      unfold rows_at. rewrite Z.add_0_r, Nat2Z.id. now rewrite firstn_all.
  - unfold slice_operator, value_or. cbn [Z.leb].
    destruct (Z.leb_spec 0 e) as [He | He].
    + rewrite positive_begin_positive_end_rows. reflexivity.
    + rewrite positive_begin_negative_end_rows by lia. reflexivity.
Qed.

(** Once [end_] rows have been read, the loop of
    [positive_begin_positive_end] is left. *)
Lemma pp_loop_stops pre post (begin_ end_ offset : Z) :
  offset < end_ ->
  end_ - offset <= Z.of_nat (length (stream_rows pre)) ->
  pp_loop (pre ++ post) begin_ end_ offset = pp_loop pre begin_ end_ offset.
Proof.
  revert offset. induction pre as [| slice pre IH]; intros offset Hlt Hle.
  - cbn in Hle. lia.
  - rewrite stream_rows_length_cons in Hle. cbn [app pp_loop].
    destruct (Z.eqb_spec (rows slice) 0) as [Hz | Hnz].
    + f_equal. apply IH; lia.
    + f_equal.
      destruct (Z.leb_spec end_ (offset + rows slice)) as [Hend | Hmore];
        [reflexivity |].
      apply IH; lia.
Qed.

(** X2. With non-negative bounds, [slice] stops reading its input once [e]
    rows have been read: what it yields for an input whose first batches
    [pre] hold at least [e] rows does not depend on the batches [post] that
    follow. *)
Theorem slice_stops_reading pre post (b e : Z) :
  0 <= b -> 0 <= e ->
  e <= Z.of_nat (length (stream_rows pre)) ->
  slice_operator moved_from (Some b) (Some e) (pre ++ post)
  = slice_operator moved_from (Some b) (Some e) pre.
Proof.
  intros Hb He Hpre. unfold slice_operator, value_or.
  destruct (Z.leb_spec 0 b) as [_ | Hbad]; [| lia].
  destruct (Z.leb_spec 0 e) as [_ | Hbad]; [| lia].
  unfold positive_begin_positive_end.
  destruct (Z.leb_spec e b) as [Hle | Hgt]; [reflexivity |].
  apply pp_loop_stops; lia.
Qed.

(** *** Empty batches and buffering *)

(** The empty batches the operator yields while it reads: one for every empty
    batch of its input. *)
Local Abbreviation stall_tokens input :=
  (map (fun _ : batch => @empty_slice row)
       (filter (fun slice => rows slice =? 0) input)).

Lemma pn_fill_yields input (begin_ offset : Z) buffer :
  fst (pn_fill input begin_ offset buffer) = stall_tokens input.
Proof.
  revert offset buffer.
  induction input as [| slice input IH]; intros offset buffer;
    [reflexivity |].
  cbn [pn_fill filter]. destruct (rows slice =? 0).
  - specialize (IH offset buffer).
    destruct (pn_fill input begin_ offset buffer) as [yields final].
    cbn [fst map] in *. now rewrite IH.
  - apply IH.
Qed.

Lemma nn_fill_yields input (offset : Z) buffer :
  fst (nn_fill input offset buffer) = stall_tokens input.
Proof.
  revert offset buffer.
  induction input as [| slice input IH]; intros offset buffer;
    [reflexivity |].
  cbn [nn_fill filter]. destruct (rows slice =? 0).
  - specialize (IH offset buffer).
    destruct (nn_fill input offset buffer) as [yields final].
    cbn [fst map] in *. now rewrite IH.
  - apply IH.
Qed.

Lemma rows_nonneg (slice : batch) : 0 <= rows slice.
Proof. unfold rows. lia. Qed.

Lemma pn_drain_nonempty buffer (end_ offset : Z) :
  Forall (fun slice => 0 < rows slice) (pn_drain buffer end_ offset).
Proof.
  revert offset. induction buffer as [| slice buffer IH]; intros offset;
    cbn [pn_drain]; [constructor |].
  match goal with |- context [rows ?r =? 0] => set (result := r) end.
  destruct (Z.eqb_spec (rows result) 0) as [Hz | Hnz]; [constructor |].
  constructor; [| apply IH].
  pose proof (rows_nonneg result). lia.
Qed.

Lemma nn_drain_nonempty buffer (begin_ end_ offset : Z) :
  Forall (fun slice => 0 < rows slice) (nn_drain buffer begin_ end_ offset).
Proof.
  revert offset. induction buffer as [| slice buffer IH]; intros offset;
    cbn [nn_drain]; [constructor |].
  destruct (rows slice <=? Z.max 0 (begin_ - offset)); [apply IH |].
  match goal with |- context [rows ?r =? 0] => set (result := r) end.
  destruct (Z.eqb_spec (rows result) 0) as [Hz | Hnz]; [constructor |].
  constructor; [| apply IH].
  pose proof (rows_nonneg result). lia.
Qed.

(** X3. When the end bound is negative or absent, [slice] has to read its
    whole input before it can yield a row, unless both bounds are negative
    and the end is not after the begin.  While it reads it yields one empty
    batch for every empty batch of its input and nothing else; the batches it
    yields afterwards are never empty. *)
Theorem slice_negative_end_blocks input (b : Z) (end_ : option Z) :
  (forall e, end_ = Some e -> e < 0) ->
  0 <= b \/ b < value_or end_ 0 ->
  exists results,
    slice_operator moved_from (Some b) end_ input
    = stall_tokens input ++ results
    /\ Forall (fun slice => 0 < rows slice) results.
Proof.
  intros Hend Hb.
  assert (Hpn : exists results,
             positive_begin_negative_end input b (value_or end_ 0)
             = stall_tokens input ++ results
             /\ Forall (fun slice => 0 < rows slice) results).
  { unfold positive_begin_negative_end.
    pose proof (pn_fill_yields input b 0 []) as Hy.
    destruct (pn_fill input b 0 []) as [yields [offset buffer]].
    cbn [fst] in Hy. rewrite Hy.
    destruct (offset + value_or end_ 0 - b <? 0).
    - exists []. rewrite app_nil_r. split; [reflexivity | constructor].
    - eexists. split; [reflexivity | apply pn_drain_nonempty]. }
  assert (Hnn : b < value_or end_ 0 ->
           exists results,
             negative_begin_negative_end input b (value_or end_ 0)
             = stall_tokens input ++ results
             /\ Forall (fun slice => 0 < rows slice) results).
  { intros Hlt. unfold negative_begin_negative_end.
    destruct (Z.leb_spec (value_or end_ 0) b) as [Hbad | _]; [lia |].
    pose proof (nn_fill_yields input 0 []) as Hy.
    destruct (nn_fill input 0 []) as [yields [offset buffer]].
    cbn [fst] in Hy. rewrite Hy.
    eexists. split; [reflexivity | apply nn_drain_nonempty]. }
  unfold slice_operator.
  destruct end_ as [e |].
  - specialize (Hend e eq_refl).
    destruct (Z.leb_spec 0 e) as [Hbad | _]; [lia |].
    destruct (Z.leb_spec 0 b) as [Hpos | Hneg]; [exact Hpn |].
    apply Hnn. destruct Hb; [lia | assumption].
  - destruct (Z.leb_spec 0 b) as [Hpos | Hneg]; [exact Hpn |].
    apply Hnn. destruct Hb; [lia | assumption].
Qed.

(** *** Negative begin, non-negative end *)

(** The first loop of [negative_begin_positive_end] reads a prefix of its
    input, which ends with a non-empty batch unless it is the whole input, and
    buffers the rows of that prefix that lie before [end_]. *)
Lemma np_fill_spec input (end_ offset : Z) buffer :
  let '(yields, (offset', buffer')) :=
    np_fill moved_from input end_ offset buffer in
  stream_rows yields = []
  /\ exists consumed rest,
      input = consumed ++ rest
      /\ offset' = offset + Z.of_nat (length (stream_rows consumed))
      /\ stream_rows buffer'
         = stream_rows buffer
           ++ firstn (Z.to_nat (end_ - offset)) (stream_rows consumed)
      /\ (rest = []
          \/ exists before last,
               consumed = before ++ [last] /\ 0 < rows last).
Proof.
  revert offset buffer.
  induction input as [| slice input IH]; intros offset buffer.
  - cbn. split; [reflexivity |]. exists [], []. cbn.
    rewrite firstn_nil, app_nil_r. repeat split; [lia | now left].
  - cbn [np_fill].
    destruct (Z.eqb_spec (rows slice) 0) as [Hz | Hnz].
    + specialize (IH offset buffer).
      destruct (np_fill moved_from input end_ offset buffer)
        as [yields [offset' buffer']].
      destruct IH as (Hy & consumed & rest & Hin & Ho & Hb & Hlast).
      pose proof (rows_zero_nil slice Hz) as Hnil.
      split; [exact Hy |].
      exists ([] :: consumed), rest. subst slice.
      split; [now rewrite Hin |]. split; [exact Ho |]. split; [exact Hb |].
      destruct Hlast as [-> | (before & last & -> & Hpos)]; [now left |].
      right. exists ([] :: before), last. split; [reflexivity | assumption].
    + set (result := subslice slice 0 (Z.min (rows slice) (end_ - offset))).
      assert (Hres : result = firstn (Z.to_nat (end_ - offset)) slice).
      { unfold result. now rewrite subslice_upto. }
      assert (Hpos : 0 < rows slice)
        by (pose proof (rows_nonneg slice); lia).
      destruct (rows (moved_from result) =? 0).
      * split; [reflexivity |]. exists [slice], input.
        cbn [app stream_rows concat]. rewrite app_nil_r.
        split; [reflexivity |]. split; [unfold rows; lia |]. split.
        -- rewrite stream_rows_app. cbn [stream_rows concat].
           now rewrite app_nil_r, Hres.
        -- right. exists [], slice. split; [reflexivity | assumption].
      * specialize (IH (offset + rows slice) (buffer ++ [result])).
        destruct (np_fill moved_from input end_ (offset + rows slice)
                    (buffer ++ [result])) as [yields [offset' buffer']].
        destruct IH as (Hy & consumed & rest & Hin & Ho & Hb & Hlast).
        split; [exact Hy |].
        exists (slice :: consumed), rest.
        split; [now rewrite Hin |].
        split; [rewrite stream_rows_length_cons; lia |]. split.
        -- rewrite Hb, stream_rows_app, (stream_rows_cons slice consumed),
             firstn_app, <- app_assoc.
           change (stream_rows [result]) with (result ++ []).
           rewrite app_nil_r, Hres.
           do 3 f_equal. unfold rows. lia.
        -- destruct Hlast as [-> | (before & last & -> & Hl)]; [now left |].
           right. exists (slice :: before), last.
           split; [reflexivity | assumption].
Qed.

Lemma np_drain_rows buffer (begin_ offset : Z) :
  stream_rows (np_drain buffer begin_ offset)
  = skipn (Z.to_nat (begin_ - offset)) (stream_rows buffer).
Proof.
  revert offset. induction buffer as [| slice buffer IH]; intros offset.
  - cbn. now rewrite skipn_nil.
  - cbn [np_drain]. rewrite stream_rows_cons, skipn_app.
    assert (Hrest : (Z.to_nat (begin_ - offset) - length slice)%nat
                    = Z.to_nat (begin_ - (offset + rows slice)))
      by (unfold rows; lia).
    rewrite Hrest.
    destruct (Z.leb_spec (rows slice) (Z.max 0 (begin_ - offset)))
      as [Hskip | Hin].
    + rewrite IH. rewrite (skipn_all2 slice); [reflexivity |].
      unfold rows in Hskip. lia.
    + assert (Hres : subslice slice (Z.max 0 (begin_ - offset)) (rows slice)
                     = skipn (Z.to_nat (begin_ - offset)) slice).
      { rewrite subslice_from. unfold rows_at, rows.
        now rewrite Nat2Z.id, firstn_all. }
      rewrite Hres.
      destruct (Z.ltb_spec 0 (rows (skipn (Z.to_nat (begin_ - offset)) slice)))
        as [Hp | Hnp].
      * now rewrite stream_rows_cons, IH.
      * rewrite IH. rewrite (rows_zero_nil (skipn _ slice)); [reflexivity |].
        pose proof (rows_nonneg (skipn (Z.to_nat (begin_ - offset)) slice)).
        lia.
Qed.

(** X4. With a negative begin bound [b] and a non-negative end bound [e],
    [slice] resolves the begin bound against the rows it has read when it
    leaves its first loop, not against the whole stream: it yields the rows
    at the positions [max 0 (C + b), e) of the batches [consumed] it has read,
    where [C] is their row count.  It reads at least up to the first
    non-empty batch, so that for an input with at most one non-empty batch
    these are the rows at the positions [max 0 (N + b), e) of the stream. *)
Theorem slice_negative_begin_positive_end input (b e : Z) :
  b < 0 -> 0 <= e ->
  (exists consumed rest,
      input = consumed ++ rest
      /\ (rest = []
          \/ exists before last,
               consumed = before ++ [last] /\ 0 < rows last)
      /\ stream_rows (slice_operator moved_from (Some b) (Some e) input)
         = rows_at (stream_rows consumed)
             (Z.max 0 (Z.of_nat (length (stream_rows consumed)) + b)) e)
  /\ ((length (filter (fun slice => negb (rows slice =? 0)%Z) input) <= 1)%nat ->
      stream_rows (slice_operator moved_from (Some b) (Some e) input)
      = rows_at (stream_rows input)
          (Z.max 0 (Z.of_nat (length (stream_rows input)) + b)) e).
Proof.
  intros Hb He.
  assert (Hrows : exists consumed rest,
      input = consumed ++ rest
      /\ (rest = []
          \/ exists before last,
               consumed = before ++ [last] /\ 0 < rows last)
      /\ stream_rows (slice_operator moved_from (Some b) (Some e) input)
         = rows_at (stream_rows consumed)
             (Z.max 0 (Z.of_nat (length (stream_rows consumed)) + b)) e).
  { unfold slice_operator, value_or.
    destruct (Z.leb_spec 0 b) as [Hbad | _]; [lia |].
    destruct (Z.leb_spec 0 e) as [_ | Hbad]; [| lia].
    unfold negative_begin_positive_end.
    pose proof (np_fill_spec input e 0 []) as Hfill.
    destruct (np_fill moved_from input e 0 []) as [yields [offset buffer]].
    destruct Hfill as (Hy & consumed & rest & Hin & Ho & Hbuf & Hlast).
    exists consumed, rest. split; [assumption |]. split; [assumption |].
    change (stream_rows []) with (@nil row) in Hbuf. cbn [app] in Hbuf.
    rewrite Z.sub_0_r in Hbuf. rewrite Z.add_0_l in Ho. subst offset.
    destruct (Z.leb_spec (Z.of_nat (length (stream_rows consumed)))
                (Z.of_nat (length (stream_rows consumed)) + b))
      as [Hbad | _]; [lia |].
    rewrite stream_rows_app, Hy, np_drain_rows, Hbuf. cbn [app].
    unfold rows_at. rewrite Z.sub_0_r. f_equal. lia. }
  split; [exact Hrows |].
  intros Hone. destruct Hrows as (consumed & rest & Hin & Hlast & Hout).
  assert (Hsame : stream_rows consumed = stream_rows input).
  { destruct Hlast as [-> | (before & last & -> & Hpos)].
    - now rewrite Hin, app_nil_r.
    - rewrite Hin, (stream_rows_app (before ++ [last]) rest).
      assert (Hrest : stream_rows rest = []).
      { rewrite Hin, !filter_app, !length_app in Hone. cbn [filter] in Hone.
        destruct (Z.eqb_spec (rows last) 0) as [Hz | _]; [lia |].
        cbn [negb length] in Hone.
        assert (Hnone : filter (fun slice => negb (rows slice =? 0)) rest = [])
          by (apply length_zero_iff_nil; lia).
        clear - Hnone. induction rest as [| slice rest IH]; [reflexivity |].
        cbn [filter] in Hnone. rewrite stream_rows_cons.
        destruct (Z.eqb_spec (rows slice) 0) as [Hz | Hnz];
          cbn [negb] in Hnone; [| discriminate].
        rewrite (rows_zero_nil slice Hz). cbn [app]. now apply IH. }
      now rewrite Hrest, app_nil_r. }
  now rewrite Hout, Hsame.
Qed.

End SliceReading.
(* ================================================================= *)
(** ** The [write] and [to] operators: failures and the mirror forms *)

Section WriteToFailures.
Import Caf WriteTo.
Context {record : Type}.
Variable find_printer : string -> option (printer_plugin record).
Variable find_saver : string -> option (saver_plugin record).
Variable parse_write parse_to :
  string -> string * option (string * option (string * string)).

Local Abbreviation write_op :=
  (write_make_operator find_printer find_saver parse_write).
Local Abbreviation to_op :=
  (to_make_operator find_printer find_saver parse_to).
Local Abbreviation resolves_write :=
  (write_resolves find_printer find_saver parse_write).
Local Abbreviation resolves_to :=
  (to_resolves find_printer find_saver parse_to).

(** The printer and the saver can be combined: the saver does not require
    joining, or the printer allows it. *)
Local Abbreviation compatible printer saver :=
  (saver_requires_joining saver && negb (printer_allows_joining printer)
   = false).

Lemma write_resolves_unique text printer saver printer' saver' :
  resolves_write text printer saver ->
  resolves_write text printer' saver' ->
  printer' = printer /\ saver' = saver.
Proof.
  intros (pname & sarg & Hparse & Hp & Hs) (pname' & sarg' & Hparse' & Hp' & Hs').
  rewrite Hparse in Hparse'. injection Hparse' as <- <-.
  rewrite Hp in Hp'. injection Hp' as <-. split; [reflexivity |].
  destruct sarg as [[keyword sname] |].
  - rewrite Hs in Hs'. now injection Hs' as <-.
  - destruct Hs as (dname & options & Hd & Hf).
    destruct Hs' as (dname' & options' & Hd' & Hf').
    rewrite Hd in Hd'. injection Hd' as <- <-.
    rewrite Hf in Hf'. now injection Hf' as <-.
Qed.

Lemma to_resolves_unique text printer saver printer' saver' :
  resolves_to text printer saver ->
  resolves_to text printer' saver' ->
  printer' = printer /\ saver' = saver.
Proof.
  intros (sname & parg & Hparse & Hs & Hp) (sname' & parg' & Hparse' & Hs' & Hp').
  rewrite Hparse in Hparse'. injection Hparse' as <- <-.
  rewrite Hs in Hs'. injection Hs' as <-. split; [| reflexivity].
  destruct parg as [[keyword pname] |].
  - rewrite Hp in Hp'. now injection Hp' as <-.
  - destruct Hp as (dname & options & Hd & Hf).
    destruct Hp' as (dname' & options' & Hd' & Hf').
    rewrite Hd in Hd'. injection Hd' as <- <-.
    rewrite Hf in Hf'. now injection Hf' as <-.
Qed.

(** The three ways [make_operator] can come out for a text. *)
Local Abbreviation outcome_of resolves parse result text :=
  ((exists printer saver op,
       resolves text printer saver
       /\ compatible printer saver
       /\ result = inr op)
   \/ (exists printer saver e,
         resolves text printer saver
         /\ saver_requires_joining saver = true
         /\ printer_allows_joining printer = false
         /\ result = inl e /\ code e = invalid_argument)
   \/ ((forall printer saver, ~ resolves text printer saver)
       /\ exists e,
           result = inl e
           /\ (code e = syntax_error
               \/ (code e = invalid_configuration
                   /\ exists name : string,
                       snd (parse text) = Some (name, None))))).

Ltac joined printer saver Hres :=
  let Hreq := fresh "Hreq" in
  let Hallow := fresh "Hallow" in
  destruct (saver_requires_joining saver) eqn:Hreq,
           (printer_allows_joining printer) eqn:Hallow; cbn [andb negb snd];
  [ left | right; left | left | left ];
  exists printer, saver; eexists;
  (split; [exact Hres |]); rewrite ?Hreq, ?Hallow; repeat split.

Lemma write_outcome text :
  outcome_of resolves_write parse_write (snd (write_op text)) text.
Proof.
  unfold write_make_operator.
  destruct (parse_write text) as [rest [[pname sarg] |]] eqn:Hparse;
    cbn [snd].
  - destruct (find_printer pname) as [printer |] eqn:Hp.
    + destruct sarg as [[keyword sname] |].
      * destruct (find_saver sname) as [saver |] eqn:Hs.
        -- assert (Hres : resolves_write text printer saver).
           { exists pname, (Some (keyword, sname)). rewrite Hparse.
             now repeat split. }
           joined printer saver Hres.
        -- right. right. split.
           ++ intros printer' saver' (pname' & sarg' & Hparse' & Hp' & Hs').
              rewrite Hparse in Hparse'. injection Hparse' as <- <-.
              congruence.
           ++ eexists. split; [reflexivity | now left].
      * destruct (make_default_saver printer) as [[dname options] |] eqn:Hd.
        -- destruct (find_saver dname) as [saver |] eqn:Hs.
           ++ assert (Hres : resolves_write text printer saver).
              { exists pname, None. rewrite Hparse.
                repeat split; try assumption. now exists dname, options. }
              joined printer saver Hres.
           ++ right. right. split.
              ** intros printer' saver' (pname' & sarg' & Hparse' & Hp' & Hs').
              rewrite Hparse in Hparse'. injection Hparse' as <- <-.
                 destruct Hs' as (dname' & options' & Hd' & Hf').
                 congruence.
              ** eexists. split; [reflexivity |]. right.
                 split; [reflexivity | now exists pname].
        -- right. right. split.
           ++ intros printer' saver' (pname' & sarg' & Hparse' & Hp' & Hs').
              rewrite Hparse in Hparse'. injection Hparse' as <- <-.
              destruct Hs' as (dname' & options' & Hd' & Hf').
              congruence.
           ++ eexists. split; [reflexivity |]. right.
              split; [reflexivity | now exists pname].
    + right. right. split.
      * intros printer' saver' (pname' & sarg' & Hparse' & Hp' & Hs').
              rewrite Hparse in Hparse'. injection Hparse' as <- <-.
        congruence.
      * eexists. split; [reflexivity | now left].
  - right. right. split.
    + intros printer' saver' (pname' & sarg' & Hparse' & _).
      rewrite Hparse in Hparse'. discriminate.
    + eexists. split; [reflexivity | now left].
Qed.

Lemma to_outcome text :
  outcome_of resolves_to parse_to (snd (to_op text)) text.
Proof.
  unfold to_make_operator.
  destruct (parse_to text) as [rest [[sname parg] |]] eqn:Hparse;
    cbn [snd].
  - destruct (find_saver sname) as [saver |] eqn:Hs.
    + destruct parg as [[keyword pname] |].
      * destruct (find_printer pname) as [printer |] eqn:Hp.
        -- assert (Hres : resolves_to text printer saver).
           { exists sname, (Some (keyword, pname)). rewrite Hparse.
             now repeat split. }
           joined printer saver Hres.
        -- right. right. split.
           ++ intros printer' saver' (sname' & parg' & Hparse' & Hs' & Hp').
              rewrite Hparse in Hparse'. injection Hparse' as <- <-.
              congruence.
           ++ eexists. split; [reflexivity | now left].
      * destruct (make_default_printer saver) as [[dname options] |] eqn:Hd.
        -- destruct (find_printer dname) as [printer |] eqn:Hp.
           ++ assert (Hres : resolves_to text printer saver).
              { exists sname, None. rewrite Hparse.
                repeat split; try assumption. now exists dname, options. }
              joined printer saver Hres.
           ++ right. right. split.
              ** intros printer' saver' (sname' & parg' & Hparse' & Hs' & Hp').
              rewrite Hparse in Hparse'. injection Hparse' as <- <-.
                 destruct Hp' as (dname' & options' & Hd' & Hf').
                 congruence.
              ** eexists. split; [reflexivity |]. right.
                 split; [reflexivity | now exists sname].
        -- right. right. split.
           ++ intros printer' saver' (sname' & parg' & Hparse' & Hs' & Hp').
              rewrite Hparse in Hparse'. injection Hparse' as <- <-.
              destruct Hp' as (dname' & options' & Hd' & Hf').
              congruence.
           ++ eexists. split; [reflexivity |]. right.
              split; [reflexivity | now exists sname].
    + right. right. split.
      * intros printer' saver' (sname' & parg' & Hparse' & Hs' & Hp').
              rewrite Hparse in Hparse'. injection Hparse' as <- <-.
        congruence.
      * eexists. split; [reflexivity | now left].
  - right. right. split.
    + intros printer' saver' (sname' & parg' & Hparse' & _).
      rewrite Hparse in Hparse'. discriminate.
    + eexists. split; [reflexivity | now left].
Qed.

(** X5. [write FMT [to SINK]] and [to SINK [write FMT]] construct an operator
    exactly when the text resolves to a printer and a saver that can be
    combined: the saver does not require joining, or the printer allows
    it. *)
Theorem make_operator_succeeds text :
  ((exists op,
       snd (write_make_operator find_printer find_saver parse_write text)
       = inr op)
   <-> exists printer saver,
         resolves_write text printer saver /\ compatible printer saver)
  /\ ((exists op,
          snd (to_make_operator find_printer find_saver parse_to text)
          = inr op)
      <-> exists printer saver,
            resolves_to text printer saver /\ compatible printer saver).
Proof.
  split.
  - destruct (write_outcome text)
      as [(printer & saver & op & Hres & Hok & Hop)
         | [(printer & saver & e & Hres & Hreq & Hallow & He & _)
           | (Hnone & e & He & _)]]; split.
    + intros _. now exists printer, saver.
    + intros _. now exists op.
    + intros [op Hop]. congruence.
    + intros (printer' & saver' & Hres' & Hok).
      destruct (write_resolves_unique _ _ _ _ _ Hres Hres') as [-> ->].
      rewrite Hreq, Hallow in Hok. discriminate.
    + intros [op Hop]. congruence.
    + intros (printer & saver & Hres & _). now destruct (Hnone printer saver).
  - destruct (to_outcome text)
      as [(printer & saver & op & Hres & Hok & Hop)
         | [(printer & saver & e & Hres & Hreq & Hallow & He & _)
           | (Hnone & e & He & _)]]; split.
    + intros _. now exists printer, saver.
    + intros _. now exists op.
    + intros [op Hop]. congruence.
    + intros (printer' & saver' & Hres' & Hok).
      destruct (to_resolves_unique _ _ _ _ _ Hres Hres') as [-> ->].
      rewrite Hreq, Hallow in Hok. discriminate.
    + intros [op Hop]. congruence.
    + intros (printer & saver & Hres & _). now destruct (Hnone printer saver).
Qed.

(** Why a construction has failed, as far as the error code tells. *)
Local Abbreviation failure_of resolves parse text e :=
  ((code e = invalid_argument
    /\ exists printer saver,
        resolves text printer saver
        /\ saver_requires_joining saver = true
        /\ printer_allows_joining printer = false)
   \/ ((forall printer saver, ~ resolves text printer saver)
       /\ (code e = syntax_error
           \/ (code e = invalid_configuration
               /\ exists name : string,
                   snd (parse text) = Some (name, None))))).

(** X6. When [make_operator] fails, the error code tells why.  It is
    [invalid_argument] when the text resolves to a printer and a saver that
    cannot be combined.  Otherwise the text does not resolve, and the code is
    [syntax_error], or [invalid_configuration], which only occurs when the
    text names a single plugin and the default for the other one is missing.
    Whether it fails or not, [make_operator] returns the remainder of the
    text that the parser has left. *)
Theorem make_operator_failures text :
  (forall e,
      snd (write_make_operator find_printer find_saver parse_write text)
      = inl e ->
      failure_of resolves_write parse_write text e)
  /\ (forall e,
        snd (to_make_operator find_printer find_saver parse_to text)
        = inl e ->
        failure_of resolves_to parse_to text e)
  /\ fst (write_make_operator find_printer find_saver parse_write text)
     = fst (parse_write text)
  /\ fst (to_make_operator find_printer find_saver parse_to text)
     = fst (parse_to text).
Proof.
  split; [| split; [| split]].
  - intros e He.
    destruct (write_outcome text)
      as [(printer & saver & op & Hres & Hok & Hop)
         | [(printer & saver & e' & Hres & Hreq & Hallow & He' & Hcode)
           | (Hnone & e' & He' & Hcode)]].
    + congruence.
    + left. assert (e' = e) as -> by congruence.
      split; [assumption | now exists printer, saver].
    + right. assert (e' = e) as -> by congruence. now split.
  - intros e He.
    destruct (to_outcome text)
      as [(printer & saver & op & Hres & Hok & Hop)
         | [(printer & saver & e' & Hres & Hreq & Hallow & He' & Hcode)
           | (Hnone & e' & He' & Hcode)]].
    + congruence.
    + left. assert (e' = e) as -> by congruence.
      split; [assumption | now exists printer, saver].
    + right. assert (e' = e) as -> by congruence. now split.
  - unfold write_make_operator.
    destruct (parse_write text) as [rest [[pname sarg] |]]; [| reflexivity].
    destruct (find_printer pname) as [printer |]; [| reflexivity].
    destruct sarg as [[keyword sname] |].
    + destruct (find_saver sname) as [saver |]; [| reflexivity].
      now destruct (saver_requires_joining saver),
                   (printer_allows_joining printer).
    + destruct (make_default_saver printer) as [[dname options] |];
        [| reflexivity].
      destruct (find_saver dname) as [saver |]; [| reflexivity].
      now destruct (saver_requires_joining saver),
                   (printer_allows_joining printer).
  - unfold to_make_operator.
    destruct (parse_to text) as [rest [[sname parg] |]]; [| reflexivity].
    destruct (find_saver sname) as [saver |]; [| reflexivity].
    destruct parg as [[keyword pname] |].
    + destruct (find_printer pname) as [printer |]; [| reflexivity].
      now destruct (saver_requires_joining saver),
                   (printer_allows_joining printer).
    + destruct (make_default_printer saver) as [[dname options] |];
        [| reflexivity].
      destruct (find_printer dname) as [printer |]; [| reflexivity].
      now destruct (saver_requires_joining saver),
                   (printer_allows_joining printer).
Qed.

(** X7. [write FMT to SINK] and its mirror [to SINK write FMT] agree: when
    both texts name the same format and the same sink, either both construct
    the same operator, or both fail with the same error code. *)
Theorem write_to_mirror
  (text_w text_t rest_w rest_t fmt sink keyword_w keyword_t : string) :
  parse_write text_w = (rest_w, Some (fmt, Some (keyword_w, sink))) ->
  parse_to text_t = (rest_t, Some (sink, Some (keyword_t, fmt))) ->
  match
    snd (write_make_operator find_printer find_saver parse_write text_w),
    snd (to_make_operator find_printer find_saver parse_to text_t)
  with
  | inr op_w, inr op_t => op_w = op_t
  | inl e_w, inl e_t => code e_w = code e_t
  | _, _ => False
  end.
Proof.
  intros Hw Ht. unfold write_make_operator, to_make_operator.
  rewrite Hw, Ht.
  destruct (find_printer fmt) as [printer |],
           (find_saver sink) as [saver |]; try reflexivity.
  now destruct (saver_requires_joining saver),
               (printer_allows_joining printer).
Qed.

End WriteToFailures.
#[local] Arguments ExecNode.schedule_run : simpl never.

(* ================================================================= *)
(** ** The execution node: what single handlers do *)

(** Running a handler whose parts are known to return. *)
#[local] Arguments ExecNode.schedule_run : simpl never.

Ltac run_handler :=
  unfold ExecNode.bind, ExecNode.get, ExecNode.modify, ExecNode.tell,
    ExecNode.ret, ExecNode.vast_assert, ExecNode.crash.

Section NodeHandlers.
Import Batch Caf ExecNode.
Context {Input Output : Type} `{ElementLaws Input} `{ElementLaws Output}.
Variable input_is_monostate output_is_monostate : bool.
Variable op_to_string : string.
Variable error_to_string : error -> string.
Variable self_to_string : string.

Local Abbreviation state := (@exec_node_state Input Output).
Local Abbreviation M := (@ExecNode.M Input Output).
Local Abbreviation action := (@ExecNode.action Output).

Implicit Types s : state.

(** *** Diagnostics *)

(** X8. The diagnostic handler forwards every diagnostic, once.  A warning
    leaves the node as it is.  An error diagnostic marks that an error has
    been seen; the first one aborts the node silently, without a diagnostic
    of its own, and none changes an abort reason that is set.  The control
    plane's [warn] emits one warning and leaves the node as it is; for the
    silent error it does nothing. *)
Theorem diagnostics_forwarded (d : diagnostic) (e : error) s :
  (exists s',
      emit op_to_string error_to_string d s = Ok tt s' [send_diagnostic d]
      /\ (is_error d = false -> s' = s)
      /\ (is_error d = true ->
          has_seen_error_ s' = true
          /\ (has_seen_error_ s = false -> abort s' <> None)
          /\ (forall reason, abort s = Some reason -> abort s' = Some reason))
      /\ inbound s' = inbound s /\ outbound s' = outbound s
      /\ instance s' = instance s)
  /\ ctrl_warn op_to_string error_to_string e s
     = Ok tt s
          (if has_code e silent then []
           else [send_diagnostic
                   (diagnostic_of op_to_string error_to_string
                                  severity_warning e)]).
Proof.
  split.
  - unfold emit, emit_over, abort_over. run_handler. cbn.
    destruct (is_error d) eqn:Herr; cbn.
    + destruct (has_seen_error_ s) eqn:Hseen; cbn.
      * exists s. repeat split; auto; congruence.
      * destruct (abort s) as [reason |] eqn:Ha; cbn;
          (eexists; split; [reflexivity |]); cbn;
          repeat split; auto; try congruence; discriminate.
    + exists s. repeat split; auto; discriminate.
  - unfold ctrl_warn, emit, emit_over, abort_over. run_handler.
    now destruct (has_code e silent).
Qed.

(** *** Scheduling and aborting, in full *)

Lemma schedule_run_result s :
  schedule_run s
  = if negb (has_instance s) || run_scheduled s then Ok tt s []
    else Ok tt (set_run_scheduled true s) [schedule_run_action].
Proof.
  unfold schedule_run. run_handler.
  now destruct (negb (has_instance s) || run_scheduled s).
Qed.

(** [abort] touches the abort reason and the flag of the diagnostic handler
    only. *)
Lemma ctrl_abort_result (e : error) s :
  exists s',
    ctrl_abort op_to_string error_to_string e s
    = Ok tt s'
         (if has_code e silent then []
          else [send_diagnostic
                  (diagnostic_of op_to_string error_to_string
                                 severity_error e)])
    /\ abort s' <> None
    /\ (forall reason, abort s = Some reason -> abort s' = Some reason)
    /\ inbound s' = inbound s /\ outbound s' = outbound s
    /\ instance s' = instance s /\ run_scheduled s' = run_scheduled s
    /\ stalled s' = stalled s /\ input_adapter s' = input_adapter s.
Proof.
  unfold ctrl_abort, abort_over, emit, emit_over, abort_over. run_handler.
  destruct (has_code e silent); cbn.
  - destruct (abort s) eqn:Ha;
      (eexists; split; [reflexivity |]); cbn; rewrite ?Ha;
      repeat split; auto; congruence.
  - destruct (has_seen_error_ s); cbn;
      destruct (abort s) eqn:Ha; cbn; rewrite ?Ha; cbn; rewrite ?Ha;
      (eexists; split; [reflexivity |]); cbn; rewrite ?Ha;
      repeat split; auto; congruence.
Qed.

(** *** The previous node goes down *)

(** X9. A down message from any actor but the previous node is ignored.  When
    the previous node goes down, the node forgets it and its open request for
    input, and schedules a run if it has been started; the buffers are as
    before.  A regular exit does not abort the node; an irregular one emits
    one error diagnostic and aborts it. *)
Theorem down_from_previous (source : actor) (reason : option error) s :
  (previous (inbound s) <> Some source ->
   down_handler op_to_string error_to_string source reason s = Ok tt s [])
  /\ (previous (inbound s) = Some source ->
      exists s' log,
        down_handler op_to_string error_to_string source reason s
        = Ok tt s' log
        /\ previous (inbound s') = None
        /\ signaled_demand (inbound s') = false
        /\ inbound_buffer (inbound s') = inbound_buffer (inbound s)
        /\ outbound s' = outbound s
        /\ (has_instance s = true -> run_scheduled s' = true)
        /\ match reason with
           | None => abort s' = abort s /\ error_diagnostics log = []
           | Some _ =>
               abort s' <> None /\ length (error_diagnostics log) = 1%nat
           end).
Proof.
  split.
  - intros Hother. unfold down_handler. run_handler.
    destruct (previous (inbound s)) as [prev |] eqn:Hp; [| reflexivity].
    destruct (Nat.eqb_spec source prev) as [-> | Hne]; [congruence |].
    reflexivity.
  - intros Hprev. unfold down_handler.
    unfold bind at 1, get at 1. rewrite Hprev, Nat.eqb_refl. cbn [negb].
    unfold bind at 1, modify at 1. unfold bind at 1, modify at 1.
    unfold bind at 1. rewrite schedule_run_result.
    set (s1 := set_signaled_demand false (set_previous None s)).
    assert (Hi1 : has_instance s1 = has_instance s) by reflexivity.
    assert (Hr1 : run_scheduled s1 = run_scheduled s) by reflexivity.
    destruct reason as [why |].
    + set (e := make_error unspecified _).
      destruct (negb (has_instance s1) || run_scheduled s1) eqn:Hsched.
      * destruct (ctrl_abort_result e s1)
          as (s' & Hrun & Hset & _ & Ei & Eo & _ & Er & _).
        rewrite Hrun. exists s'. eexists. split; [reflexivity |].
        rewrite Ei, Eo, Er. cbn. repeat split; auto.
        intros Hi. rewrite Hi1, Hi, Hr1 in Hsched. exact Hsched.
      * destruct (ctrl_abort_result e (set_run_scheduled true s1))
          as (s' & Hrun & Hset & _ & Ei & Eo & _ & Er & _).
        rewrite Hrun. exists s'. eexists. split; [reflexivity |].
        rewrite Ei, Eo, Er. cbn. repeat split; auto.
    + unfold ret.
      destruct (negb (has_instance s1) || run_scheduled s1) eqn:Hsched;
        (eexists _, _; split; [reflexivity |]); cbn; repeat split; auto.
      intros Hi. rewrite Hi1, Hi, Hr1 in Hsched. exact Hsched.
Qed.

(** *** Requesting input *)

Local Abbreviation reachable_state :=
  (reachable input_is_monostate output_is_monostate op_to_string
     error_to_string self_to_string).

(** X10. The node asks the previous node for input only when that node is
    alive, no request is open, and at least [min_batch_size] of room is left
    in the inbound buffer; it then asks for the room that is left, at most
    [max_batch_size], within [max_batch_timeout], and marks the request as
    open.  What it asks for fits: a batch of at most that size is accepted by
    [push]. *)
Theorem request_more_input_fits s :
  reachable_state s ->
  let n := Z.min (max_buffered (T := Input) - inbound_buffer_size (inbound s))
                 (max_batch_size (T := Input)) in
  exists s' log,
    request_more_input s = Ok tt s' log
    /\ ((exists prev,
           previous (inbound s) = Some prev
           /\ signaled_demand (inbound s) = false
           /\ min_batch_size (T := Input) <= n
           /\ log = [send_pull prev n max_batch_timeout]
           /\ s' = set_signaled_demand true s)
        \/ ((previous (inbound s) = None
             \/ signaled_demand (inbound s) = true
             \/ n < min_batch_size (T := Input))
            /\ log = [] /\ s' = s))
    /\ inbound_buffer_size (inbound s) + n <= max_buffered (T := Input)
    /\ forall input,
         0 < total input <= n ->
         exists s2 log2, push input s' = Ok reply_void s2 log2.
Proof.
  intros Hreach n.
  pose proof (reachable_inv _ _ _ _ _ s Hreach)
    as [I1 I2 I3 O1 O2 O3 G D1 D2 D3].
  pose proof (max_buffered_range (T := Input)) as Hm.
  assert (Hroom : u64 (max_buffered (T := Input)
                       - inbound_buffer_size (inbound s))
                  = max_buffered (T := Input)
                    - inbound_buffer_size (inbound s))
    by (apply u64_small; arith).
  assert (Hpush : forall s', inbound s' = inbound s \/
                             s' = set_signaled_demand true s ->
            forall input, 0 < total input <= n ->
              exists s2 log2, push input s' = Ok reply_void s2 log2).
  { intros s' Hs' input Hin.
    assert (Hsize : inbound_buffer_size (inbound s')
                    = inbound_buffer_size (inbound s))
      by (destruct Hs' as [-> | ->]; reflexivity).
    assert (Ht : total64 input = total input)
      by (apply total64_total; arith).
    unfold push. unfold bind at 1. rewrite schedule_run_result.
    destruct (negb (has_instance s') || run_scheduled s'); run_handler; cbn;
      rewrite Ht, Hsize;
      (destruct (Z.eqb_spec (total input) 0) as [Hz | _]; [lia |]);
      rewrite u64_small by arith;
      (destruct (Z.ltb_spec (max_buffered (T := Input))
                   (inbound_buffer_size (inbound s) + total input))
         as [Hfull | _]; [lia |]);
      eexists _, _; reflexivity. }
  unfold request_more_input. run_handler. cbn.
  destruct (Z.leb_spec (inbound_buffer_size (inbound s))
              (max_buffered (T := Input))) as [_ | Hbad]; [| lia].
  cbn. rewrite Hroom. fold n.
  destruct (previous (inbound s)) as [prev |] eqn:Hp.
  - destruct (signaled_demand (inbound s)) eqn:Hsig; cbn [orb].
    + exists s, []. split; [reflexivity |].
      split; [right; repeat split; auto |].
      split; [lia | apply Hpush; now left].
    + destruct (Z.ltb_spec n (min_batch_size (T := Input))) as [Hsmall | Hok].
      * exists s, []. split; [reflexivity |].
        split; [right; repeat split; auto |].
        split; [lia | apply Hpush; now left].
      * eexists _, _. split; [reflexivity |].
        split; [left; exists prev; repeat split; auto |].
        split; [lia | apply Hpush; now right].
  - exists s, []. split; [reflexivity |].
    split; [right; repeat split; auto |].
    split; [lia | apply Hpush; now left].
Qed.

(** *** Serving a demand *)

(** X11. A demand that is open and not yet being served is served when
    delivery is forced, when its deadline has passed, or when the generator
    has not ended and [batch_size] rows or bytes are buffered; otherwise
    [deliver_batches] does nothing.  Serving pushes the first
    [min buffered batch_size] rows or bytes of the outbound buffer to the
    sink of the demand and marks the demand as being served; the buffer keeps
    them until the reply arrives.  When nothing is buffered, the demand is
    answered at once, with success, and closed. *)
Theorem deliver_batches_serves (now : time_point) (force : bool) (d : demand)
  s :
  reachable_state s ->
  has_instance s = true ->
  current_demand (outbound s) = Some d ->
  ongoing d = false ->
  let buffered := outbound_buffer_size (outbound s) in
  let due :=
    force = true \/ batch_timeout d <= now
    \/ (at_end s = false /\ batch_size d <= buffered) in
  let capped := Z.min buffered (batch_size d) in
  exists s' log,
    deliver_batches now force s = Ok tt s' log
    /\ (~ due -> s' = s /\ log = [])
    /\ (due -> capped = 0 ->
        current_demand (outbound s') = None
        /\ outbound_buffer (outbound s') = outbound_buffer (outbound s)
        /\ In (deliver (rp d) None) log
        /\ existsb pushes_data log = false)
    /\ (due -> 0 < capped ->
        log = [send_push (sink d)
                 (fst (split_vec (outbound_buffer (outbound s)) capped))
                 (force || (max_buffered (T := Output) <=? buffered))]
        /\ total (fst (split_vec (outbound_buffer (outbound s)) capped))
           = capped
        /\ s' = set_current_demand (Some (set_ongoing true d)) s).
Proof.
  intros Hreach Hi Hd Hon buffered due capped.
  pose proof (reachable_inv _ _ _ _ _ s Hreach)
    as [I1 I2 I3 O1 O2 O3 G D1 D2 D3].
  specialize (D3 d Hd).
  assert (Hcap : 0 <= capped) by (unfold capped, buffered; lia).
  unfold deliver_batches. run_handler. rewrite Hd, Hon, Hi. cbn.
  fold buffered.
  destruct (negb force
            && ((at_end s || (buffered <? batch_size d))
                && (now <? batch_timeout d))) eqn:Hwait.
  - exists s, []. split; [reflexivity |].
    assert (Hnot : ~ due).
    { unfold due. apply andb_prop in Hwait as [Hf Hw].
      apply andb_prop in Hw as [He Ht].
      apply Z.ltb_lt in Ht. apply negb_true_iff in Hf.
      intros [Hforce | [Hlate | [Hrun Hfull]]]; [congruence | lia |].
      rewrite Hrun in He. cbn in He. apply Z.ltb_lt in He. lia. }
    split; [auto |]. split; intros Hdue; now elim Hnot.
  - assert (Hdue : due).
    { unfold due. destruct force; [now left |]. cbn in Hwait.
      destruct (Z.ltb_spec now (batch_timeout d)) as [Hearly | Hlate];
        [| right; left; assumption].
      rewrite andb_true_r in Hwait. apply orb_false_elim in Hwait as [He Hb].
      apply Z.ltb_ge in Hb. right. right. now split. }
    fold capped.
    destruct (Z.eqb_spec capped 0) as [Hz | Hnz].
    + cbn. rewrite schedule_run_result.
      match goal with
      | |- context [if ?c then _ else _] => destruct c
      end; (eexists _, _; split; [reflexivity |]);
        (split; [intros Hn; now elim Hn |]);
        (split; [| intros _ Hpos; lia]); intros _ _; cbn; auto.
    + cbn. eexists _, _. split; [reflexivity |].
      split; [intros Hn; now elim Hn |].
      split; [intros _ Hz; lia |]. intros _ _.
      split; [reflexivity |]. split; [| reflexivity].
      pose proof (split_vec_total (outbound_buffer (outbound s)) capped Hcap)
        as [Hl _].
      rewrite Hl. unfold capped, buffered. rewrite <- O1. lia.
Qed.

(** *** The reply to a push *)

(** The vector split looks no further than the partition point: when
    elements are appended to a buffer that holds at least [n > 0] rows or
    bytes, the left half of the split at [n] stays the same and the appended
    elements go to the end of the right half. *)
Lemma split_vec_app {T : Type} `{ElementLaws T} (chunks more : list T)
  (n : Z) :
  0 < n <= total chunks ->
  split_vec (chunks ++ more) n
  = (fst (split_vec chunks n), snd (split_vec chunks n) ++ more).
Proof.
  revert n. induction chunks as [| x rest IH]; intros n Hn.
  - unfold total in Hn. cbn in Hn. lia.
  - rewrite total_cons in Hn. cbn [app split_vec].
    destruct (Z.eqb_spec n (size x)) as [-> | Hne]; [reflexivity |].
    destruct (Z.ltb_spec n (size x)) as [Hlt | Hge].
    + now destruct (split x n).
    + assert (Hn' : 0 < n - size x <= total rest) by lia.
      rewrite (IH _ Hn').
      now destruct (split_vec rest (n - size x)).
Qed.

(** X12. When the reply to a push of [n] rows or bytes arrives, the outbound
    buffer may have grown since the batch was sent.  On success exactly the
    batch that was sent leaves the buffer, namely the left half of the split
    of the buffer as it was: the right half and what has been appended since
    stay, the buffer size drops by [n], [outbound_total] grows by [n] and
    [num_outbound_batches] by the number of elements sent.  On failure the
    buffer and the counters are as before.  Either way the demand is closed
    and the reply, success or the error, is passed on to the node that has
    pulled. *)
Theorem push_reply_accounting (n : Z) (d : demand)
  (buffer more : list Output) (e : error) s :
  reachable_state s ->
  current_demand (outbound s) = Some d ->
  outbound_buffer (outbound s) = buffer ++ more ->
  0 < n <= total buffer ->
  (exists s' log,
      push_handle_result n s = Ok tt s' log
      /\ outbound_buffer (outbound s') = snd (split_vec buffer n) ++ more
      /\ outbound_buffer_size (outbound s')
         = outbound_buffer_size (outbound s) - n
      /\ outbound_total s' = u64 (outbound_total s + n)
      /\ num_outbound_batches s'
         = u64 (num_outbound_batches s
                + Z.of_nat (length (fst (split_vec buffer n))))
      /\ current_demand (outbound s') = None
      /\ In (deliver (rp d) None) log)
  /\ (exists s' log,
        push_handle_error e s = Ok tt s' log
        /\ outbound_buffer (outbound s') = outbound_buffer (outbound s)
        /\ outbound_buffer_size (outbound s')
           = outbound_buffer_size (outbound s)
        /\ outbound_total s' = outbound_total s
        /\ num_outbound_batches s' = num_outbound_batches s
        /\ current_demand (outbound s') = None
        /\ In (deliver (rp d) (Some e)) log).
Proof.
  intros Hreach Hd Hbuf Hn.
  pose proof (reachable_inv _ _ _ _ _ s Hreach)
    as [I1 I2 I3 O1 O2 O3 G D1 D2 D3].
  pose proof (max_buffered_range (T := Output)) as Hm.
  split.
  - unfold push_handle_result. run_handler. cbn.
    rewrite Hbuf, (split_vec_app buffer more n Hn), Hd. cbn.
    assert (Hn0 : 0 <= n) by lia.
    pose proof (split_vec_total buffer n Hn0) as [_ Hr].
    set (rhs := snd (split_vec buffer n)) in *.
    assert (Htotal : total (rhs ++ more)
                     = outbound_buffer_size (outbound s) - n).
    { rewrite total_app, Hr, O1, Hbuf, total_app. lia. }
    assert (Ht : total64 (rhs ++ more) = total (rhs ++ more)).
    { apply total64_total. rewrite Htotal. arith. }
    rewrite schedule_run_result.
    match goal with
    | |- context [if ?c then _ else _] => destruct c
    end; (eexists _, _; split; [reflexivity |]); cbn; rewrite Ht, Htotal;
      repeat split; auto.
  - unfold push_handle_error. run_handler. cbn. rewrite Hd. cbn.
    rewrite schedule_run_result.
    match goal with
    | |- context [if ?c then _ else _] => destruct c
    end; (eexists _, _; split; [reflexivity |]); cbn; repeat split; auto.
Qed.

(** *** Starting a node *)

Lemma wp_any {A} (m : M A) s : wp m (fun _ _ _ => True) s.
Proof. unfold wp. now destruct (m s). Qed.

Lemma start_starts (request : request_id) (chain : list actor)
  (inst : instantiation) s :
  wp (start input_is_monostate output_is_monostate op_to_string
        error_to_string self_to_string request chain inst)
     (fun r s' _ =>
        (forall e, r <> reply_error e) ->
        has_instance s = false /\ has_instance s' = true /\ abort s' = None)
     s.
Proof.
  assert (Hinst : forall chain' s0,
    has_instance s = false ->
    wp (start_instantiate input_is_monostate output_is_monostate op_to_string
          error_to_string self_to_string request chain' inst)
       (fun r s' _ =>
          (forall e, r <> reply_error e) ->
          has_instance s = false /\ has_instance s' = true /\ abort s' = None)
       s0).
  { intros chain' s0 Hno.
    destruct inst as [e | | first]; cbn [start_instantiate]; wp_simpl;
      try (intros Hr; now elim (Hr _ eq_refl)).
    unfold resume. wp_simpl.
    eapply wp_consequence; [apply wp_any |].
    intros a s1 log1 _. wp_simpl.
    destruct (abort s1) eqn:Ha; cbn [abort set_instance]; rewrite Ha; wp_simpl.
    { intros Hr. now elim (Hr _ eq_refl). }
    apply wp_if; intros _.
    - cbn [inbound set_instance]. destruct (previous (inbound s1)); wp_simpl;
        [| exact I].
      intros _. cbn. now rewrite Ha.
    - apply wp_if; intros _.
      + cbn [inbound set_instance]. destruct (previous (inbound s1)); wp_simpl;
          [| exact I].
        intros _. cbn. now rewrite Ha.
      + wp_simpl. intros _. cbn. now rewrite Ha. }
  unfold start. wp_simpl.
  destruct (has_instance s) eqn:Hi; wp_simpl.
  { intros Hr. now elim (Hr _ eq_refl). }
  apply wp_if; intros _.
  - destruct chain; wp_simpl; [| intros Hr; now elim (Hr _ eq_refl)].
    now apply Hinst.
  - destruct chain as [| first chain']; wp_simpl;
      [intros Hr; now elim (Hr _ eq_refl) |].
    now apply Hinst.
Qed.

(** X13. A node is started at most once and only with the chain of previous
    nodes that fits it.  [start] answers with a [logic_error], changes
    nothing and does nothing when the node has been started before, when a
    source is given previous nodes, or when a node that is not a source is
    given none.  A [start] that does not answer with an error has
    instantiated the operator, the node was not started before and is not
    aborted, and any later [start] is refused. *)
Theorem start_validates (request : request_id) (chain : list actor)
  (inst : instantiation) s :
  (has_instance s = true
   \/ (input_is_monostate = true /\ chain <> [])
   \/ (input_is_monostate = false /\ chain = []) ->
   exists e,
     start input_is_monostate output_is_monostate op_to_string
       error_to_string self_to_string request chain inst s
     = Ok (reply_error e) s []
     /\ code e = logic_error)
  /\ (forall r s' log,
        start input_is_monostate output_is_monostate op_to_string
          error_to_string self_to_string request chain inst s
        = Ok r s' log ->
        (forall e, r <> reply_error e) ->
        has_instance s = false /\ has_instance s' = true /\ abort s' = None
        /\ forall request' chain' inst',
             exists e,
               start input_is_monostate output_is_monostate op_to_string
                 error_to_string self_to_string request' chain' inst' s'
               = Ok (reply_error e) s' []
               /\ code e = logic_error).
Proof.
  assert (Hrefuse : forall request chain inst s,
    has_instance s = true
    \/ (input_is_monostate = true /\ chain <> [])
    \/ (input_is_monostate = false /\ chain = []) ->
    exists e,
      start input_is_monostate output_is_monostate op_to_string
        error_to_string self_to_string request chain inst s
      = Ok (reply_error e) s []
      /\ code e = logic_error).
  { clear. intros request chain inst s Hbad.
    unfold start. run_handler.
    destruct (has_instance s) eqn:Hi.
    { eexists. split; reflexivity. }
    destruct Hbad as [Hbad | [[-> Hchain] | [-> ->]]]; [discriminate | |].
    - destruct chain; [congruence |]. eexists. split; reflexivity.
    - eexists. split; reflexivity. }
  split; [apply Hrefuse |].
  intros r s' log Hrun Hr.
  destruct (wp_returns _ _ _ _ _ _ (start_starts request chain inst s) Hrun Hr)
    as (Hno & Hyes & Hab).
  repeat split; try assumption.
  intros request' chain' inst'. apply Hrefuse. now left.
Qed.

End NodeHandlers.
(* ================================================================= *)
(** ** The execution node: what is set stays set *)

(** A handler that changes none of the fields [ExecNode.evolves] speaks of and emits
    calm actions only. *)
Ltac settle :=
  unfold ExecNode.evolves, ExecNode.latched, ExecNode.error_aborts, ExecNode.scheduled_runs, ExecNode.pending_runs,
    ExecNode.has_instance, ExecNode.at_end;
  cbn;
  repeat match goal with
         | H : ?x = _ |- context [?x] => rewrite H
         end;
  cbn;
  repeat split; intros; auto; try congruence; try discriminate;
  repeat constructor.

(** The fields [ExecNode.evolves] speaks of, case by case. *)
Ltac atoms s :=
  destruct (ExecNode.instance s) as [[[? |]] |] eqn:?, (ExecNode.run_scheduled s) eqn:?,
           (ExecNode.abort s) eqn:?, (ExecNode.has_seen_error_ s) eqn:?.

(** Symbolic execution of a handler, branching on the tests it makes. *)
Ltac known :=
  repeat match goal with
         | H : ?x = _ |- context [?x] => rewrite H
         end.

Ltac branch :=
  match goal with
  | |- True => exact I
  | |- context [if ?c then _ else _] => destruct c eqn:?
  | |- context [match ?x with Some _ => _ | None => _ end] =>
      destruct x eqn:?
  | |- context [match ExecNode.inbound_buffer ?i with _ => _ end] =>
      destruct (ExecNode.inbound_buffer i) eqn:?
  | |- context [match ExecNode.input_adapter ?s with _ => _ end] =>
      destruct (ExecNode.input_adapter s) eqn:?
  | |- context [Batch.split_vec ?b ?n] => destruct (Batch.split_vec b n) eqn:?
  end.

Ltac crunch :=
  repeat first
    [ progress (wp_simpl; unfold ExecNode.has_instance, ExecNode.at_end, ExecNode.has_demand,
                  ExecNode.has_previous; cbn; known)
    | branch ].

Ltac quiet_cases s := atoms s; crunch; settle.

Ltac run_atoms s :=
  destruct (ExecNode.instance s) as [[[? |]] |] eqn:?, (ExecNode.run_scheduled s) eqn:?.

Ltac abort_atoms s :=
  destruct (ExecNode.abort s) eqn:?, (ExecNode.has_seen_error_ s) eqn:?.

Section NodeEvolves.
Import Batch Caf ExecNode.
Context {Input Output : Type} `{ElementLaws Input} `{ElementLaws Output}.
Variable input_is_monostate output_is_monostate : bool.
Variable op_to_string : string.
Variable error_to_string : error -> string.
Variable self_to_string : string.

Local Abbreviation state := (@exec_node_state Input Output).
Local Abbreviation M := (@ExecNode.M Input Output).
Local Abbreviation action := (@ExecNode.action Output).

Implicit Types s : state.
Implicit Types log : list action.

(** No action of the log moves data, asks for data, or ends the node. *)
Local Abbreviation calm log := (Forall (fun a : action => outward a = false) log).

(** What a handler guarantees that talks to no neighbour. *)
Local Abbreviation quietly s :=
  (fun (_ : unit) (s' : state) log => evolves s s' log /\ calm log).

Lemma scheduled_runs_app log1 log2 :
  scheduled_runs (log1 ++ log2) = scheduled_runs log1 + scheduled_runs log2.
Proof. unfold scheduled_runs. rewrite filter_app, length_app. lia. Qed.

Lemma latched_refl s : latched s s.
Proof. unfold latched. repeat split; auto. Qed.

Lemma latched_trans s1 s2 s3 : latched s1 s2 -> latched s2 s3 -> latched s1 s3.
Proof.
  intros (A1 & A2 & A3 & A4 & A5) (B1 & B2 & B3 & B4 & B5).
  unfold latched. repeat split; auto.
Qed.

Lemma evolves_refl s : evolves s s [].
Proof. split; [apply latched_refl |]. split; [auto | reflexivity]. Qed.

Lemma evolves_trans s1 s2 s3 log1 log2 :
  evolves s1 s2 log1 -> evolves s2 s3 log2 -> evolves s1 s3 (log1 ++ log2).
Proof.
  intros (L1 & E1 & R1) (L2 & E2 & R2).
  split; [now apply (latched_trans s1 s2) |]. split; [auto |].
  rewrite scheduled_runs_app. lia.
Qed.

Lemma wp_conj {A} (m : M A)
  (Q1 Q2 : A -> state -> list action -> Prop) s :
  wp m Q1 s -> wp m Q2 s -> wp m (fun a s' log => Q1 a s' log /\ Q2 a s' log) s.
Proof. unfold wp. destruct (m s); auto. Qed.

(** A handler that runs after another one. *)
Lemma evolves_frame {A} (m : M A) s0 s log0 :
  evolves s0 s log0 ->
  wp m (fun _ s' log => evolves s s' log) s ->
  wp m (fun _ s' log => evolves s0 s' (log0 ++ log)) s.
Proof.
  intros H0' Hwp. eapply wp_consequence; [exact Hwp |].
  intros a s' log Hev. now apply (evolves_trans s0 s).
Qed.

Lemma quietly_frame {A} (m : M A) s0 s log0 :
  evolves s0 s log0 -> calm log0 ->
  wp m (fun _ s' log => evolves s s' log /\ calm log) s ->
  wp m (fun _ s' log => evolves s0 s' (log0 ++ log) /\ calm (log0 ++ log)) s.
Proof.
  intros H0' Hc Hwp. eapply wp_consequence; [exact Hwp |].
  intros a s' log [Hev Hcalm].
  split; [now apply (evolves_trans s0 s) | apply Forall_app; now split].
Qed.

Lemma schedule_run_quietly s : wp schedule_run (quietly s) s.
Proof.
  unfold schedule_run. wp_simpl. unfold has_instance.
  destruct (instance s) eqn:Hi, (run_scheduled s) eqn:Hr; cbn; wp_simpl;
    settle.
Qed.

Lemma emit_quietly (d : diagnostic) s :
  wp (emit op_to_string error_to_string d) (quietly s) s.
Proof. unfold emit, emit_over, abort_over. abort_atoms s; crunch; settle. Qed.

Lemma ctrl_abort_quietly (e : error) s :
  wp (ctrl_abort op_to_string error_to_string e) (quietly s) s.
Proof.
  unfold ctrl_abort, abort_over, emit, emit_over, abort_over.
  abort_atoms s; crunch; settle.
Qed.

Lemma ctrl_warn_quietly (e : error) s :
  wp (ctrl_warn op_to_string error_to_string e) (quietly s) s.
Proof.
  unfold ctrl_warn, emit, emit_over, abort_over.
  abort_atoms s; crunch; settle.
Qed.

Lemma request_handle_result_quietly s :
  wp request_handle_result (quietly s) s.
Proof.
  unfold request_handle_result, schedule_run. run_atoms s; crunch; settle.
Qed.

Lemma request_handle_error_quietly (e : error) s :
  wp (request_handle_error op_to_string error_to_string e) (quietly s) s.
Proof.
  unfold request_handle_error. wp_simpl.
  eapply wp_consequence; [apply schedule_run_quietly |].
  intros a s1 log1 [Hev1 Hcalm1]. cbn [app].
  assert (Hev : evolves s s1 log1).
  { apply (evolves_trans s (set_signaled_demand false s) s1 [] log1);
      [settle | exact Hev1]. }
  apply (quietly_frame _ s s1 log1 Hev Hcalm1).
  destruct (has_code e request_receiver_down); wp_simpl; [settle |].
  destruct (previous (inbound s1)); wp_simpl;
    [apply emit_quietly | split; [apply evolves_refl | constructor]].
Qed.

Lemma down_handler_quietly (source : actor) (reason : option error) s :
  wp (down_handler op_to_string error_to_string source reason) (quietly s) s.
Proof.
  unfold down_handler. wp_simpl.
  destruct (previous (inbound s)); wp_simpl;
    [| split; [apply evolves_refl | constructor]].
  destruct (negb _); wp_simpl; [split; [apply evolves_refl | constructor] |].
  eapply wp_consequence; [apply schedule_run_quietly |].
  intros u s1 log1 [Hev1 Hcalm1]. cbn [app].
  assert (Hev : evolves s s1 log1).
  { eapply (evolves_trans s _ s1 [] log1); [| exact Hev1]. settle. }
  apply (quietly_frame _ s s1 log1 Hev Hcalm1).
  destruct reason; wp_simpl;
    [apply ctrl_abort_quietly | split; [apply evolves_refl | constructor]].
Qed.

Lemma start_handle_result_quietly (request : request_id) s :
  wp (start_handle_result request) (quietly s) s.
Proof.
  unfold start_handle_result, schedule_run. run_atoms s; crunch; settle.
Qed.

Lemma start_handle_error_quietly (request : request_id) (e : error) s :
  wp (start_handle_error request e) (quietly s) s.
Proof. unfold start_handle_error. crunch; settle. Qed.

(** *** The operator's body *)

(** What the operator's body guarantees besides: it touches neither the
    generator nor the outbound state. *)
Local Abbreviation bodily s :=
  (fun (_ : unit) (s' : state) log =>
     evolves s s' log /\ calm log
     /\ instance s' = instance s /\ outbound s' = outbound s).

Lemma adapter_next_bodily s :
  wp adapter_next
     (fun _ s' log =>
        evolves s s' log /\ calm log
        /\ instance s' = instance s /\ outbound s' = outbound s) s.
Proof.
  unfold adapter_next, adapter_from_head, adapter_take.
  destruct (instance s) as [[[? |]] |] eqn:?, (run_scheduled s) eqn:?;
    crunch; settle.
Qed.

Lemma ctrl_abort_bodily (e : error) s :
  wp (ctrl_abort op_to_string error_to_string e) (bodily s) s.
Proof.
  unfold ctrl_abort, abort_over, emit, emit_over, abort_over.
  abort_atoms s; crunch; settle.
Qed.

Lemma ctrl_warn_bodily (e : error) s :
  wp (ctrl_warn op_to_string error_to_string e) (bodily s) s.
Proof.
  unfold ctrl_warn, emit, emit_over, abort_over.
  abort_atoms s; crunch; settle.
Qed.

Lemma run_call_bodily (c : body_call) s :
  wp (run_call input_is_monostate op_to_string error_to_string c)
     (bodily s) s.
Proof.
  destruct c as [| e | e]; cbn [run_call].
  - destruct input_is_monostate; wp_simpl; [exact I |].
    eapply wp_consequence; [apply adapter_next_bodily |].
    intros a s' log (? & ? & ? & ?). wp_simpl. rewrite app_nil_r.
    repeat (split; [assumption |]); assumption.
  - apply ctrl_abort_bodily.
  - apply ctrl_warn_bodily.
Qed.

Lemma run_calls_bodily (cs : list body_call) s :
  wp (run_calls input_is_monostate op_to_string error_to_string cs)
     (bodily s) s.
Proof.
  revert s. induction cs as [| c cs IH]; intros s; cbn [run_calls]; wp_simpl.
  - split; [apply evolves_refl |]. split; [constructor |]. now split.
  - eapply wp_consequence; [apply run_call_bodily |].
    intros a s1 log1 (Hev1 & Hcalm1 & Ei1 & Eo1).
    eapply wp_consequence; [apply IH |].
    intros b s2 log2 (Hev2 & Hcalm2 & Ei2 & Eo2).
    split; [now apply (evolves_trans s s1) |].
    split; [apply Forall_app; now split |].
    split; congruence.
Qed.

(** Resuming the generator, in a handler that has started from a state
    [s0] in which the generator had not ended. *)
Lemma resume_from (r : resumption) s0 s log0 :
  at_end s0 = false ->
  evolves s0 s log0 ->
  wp (resume input_is_monostate op_to_string error_to_string r)
     (fun _ s' log =>
        evolves s0 s' (log0 ++ log) /\ calm log
        /\ instance s' = Some {| it := yields r |}
        /\ outbound s' = outbound s) s.
Proof.
  intros Hend Hev0. unfold resume. wp_simpl.
  eapply wp_consequence; [apply run_calls_bodily |].
  intros a s1 log1 (Hev1 & Hcalm1 & Ei1 & Eo1). wp_simpl. rewrite app_nil_r.
  split; [| split; [assumption | now split]].
  destruct (evolves_trans _ _ _ _ _ Hev0 Hev1)
    as ((L1 & L2 & L3 & L4 & L5) & E1 & R1).
  unfold evolves, latched, error_aborts, pending_runs in *. cbn.
  repeat split; auto. congruence.
Qed.

Lemma resume_bodily (r : resumption) s :
  at_end s = false ->
  wp (resume input_is_monostate op_to_string error_to_string r)
     (fun _ s' log =>
        evolves s s' log /\ calm log
        /\ instance s' = Some {| it := yields r |}
        /\ outbound s' = outbound s) s.
Proof.
  intros Hend.
  exact (resume_from r s s [] Hend (evolves_refl s)).
Qed.

(** *** Pull, push and their replies *)

Lemma push_quietly (input : list Input) s :
  wp (push input)
     (fun _ s' log =>
        (evolves s s' log /\ calm log)
        /\ instance s' = instance s /\ outbound s' = outbound s) s.
Proof.
  unfold push, schedule_run.
  destruct (instance s) as [[[? |]] |] eqn:?, (run_scheduled s) eqn:?;
    crunch; settle.
Qed.

Lemma pull_quietly (request : request_id) (sink_ : actor) (batch_size_ : Z)
  (batch_timeout_ : duration) (now : time_point) s :
  wp (pull request sink_ batch_size_ batch_timeout_ now)
     (fun _ s' log =>
        (evolves s s' log /\ calm log)
        /\ instance s' = instance s
        /\ outbound_buffer (outbound s') = outbound_buffer (outbound s)
        /\ outbound_buffer_size (outbound s')
           = outbound_buffer_size (outbound s)
        /\ reject_demand (outbound s') = reject_demand (outbound s)) s.
Proof.
  unfold pull, schedule_run.
  destruct (instance s) as [[[? |]] |] eqn:?, (run_scheduled s) eqn:?;
    crunch; settle.
Qed.

Lemma push_handle_result_quietly (capped_demand : Z) s :
  wp (push_handle_result capped_demand) (quietly s) s.
Proof.
  unfold push_handle_result, schedule_run.
  destruct (instance s) as [[[? |]] |] eqn:?, (run_scheduled s) eqn:?;
    crunch; settle.
Qed.

Lemma push_handle_error_quietly (e : error) s :
  wp (push_handle_error e)
     (fun _ s' log =>
        (evolves s s' log /\ calm log)
        /\ instance s' = instance s
        /\ outbound_buffer (outbound s') = outbound_buffer (outbound s)
        /\ outbound_buffer_size (outbound s')
           = outbound_buffer_size (outbound s)
        /\ reject_demand (outbound s') = reject_demand (outbound s)) s.
Proof.
  unfold push_handle_error, schedule_run.
  destruct (instance s) as [[[? |]] |] eqn:?, (run_scheduled s) eqn:?;
    crunch; settle.
Qed.

Lemma reschedule_quietly s :
  wp (reschedule input_is_monostate output_is_monostate)
     (fun _ s' log =>
        (evolves s s' log /\ calm log)
        /\ instance s' = instance s /\ outbound s' = outbound s) s.
Proof.
  unfold reschedule, schedule_run.
  destruct (instance s) as [[[? |]] |] eqn:?, (run_scheduled s) eqn:?;
    crunch; settle.
Qed.

(** *** Start-up *)

Lemma evolves_tell s0 s log0 log :
  evolves s0 s log0 -> scheduled_runs log = 0 -> evolves s0 s (log0 ++ log).
Proof.
  intros (L & E & R) Hz. split; [assumption |]. split; [assumption |].
  rewrite scheduled_runs_app. lia.
Qed.

Lemma start_instantiate_quietly (request : request_id) (chain : list actor)
  (inst : instantiation) s0 s log0 :
  has_instance s0 = false ->
  evolves s0 s log0 ->
  wp (start_instantiate input_is_monostate output_is_monostate op_to_string
        error_to_string self_to_string request chain inst)
     (fun _ s' log =>
        evolves s0 s' (log0 ++ log) /\ calm log
        /\ outbound s' = outbound s) s.
Proof.
  intros Hno Hev0.
  assert (Hend : at_end s0 = false).
  { unfold at_end, has_instance in *. now destruct (instance s0). }
  assert (Hquiet : forall log, scheduled_runs log = 0 -> calm log ->
            evolves s0 s (log0 ++ log) /\ calm log /\ outbound s = outbound s).
  { intros log Hz Hc. split; [now apply evolves_tell | now split]. }
  destruct inst as [e | | first]; cbn [start_instantiate]; wp_simpl;
    try (apply Hquiet; [reflexivity | constructor]).
  eapply wp_consequence.
  { apply (resume_from first s0 (set_instance (Some {| it := None |}) s)
             log0 Hend).
    destruct Hev0 as ((L1 & L2 & L3 & L4 & L5) & E1 & R1).
    unfold evolves, latched, error_aborts, pending_runs in *. cbn.
    repeat split; auto. }
  intros a s1 log1 (Hev1 & Hcalm1 & Ei1 & Eo1). cbn [app].
  assert (Htail : forall log, scheduled_runs log = 0 -> calm log ->
            evolves s0 s1 (log0 ++ log1 ++ log) /\ calm (log1 ++ log)
            /\ outbound s1 = outbound s).
  { intros log Hz Hc. rewrite app_assoc.
    split; [now apply evolves_tell |].
    split; [apply Forall_app; now split | exact Eo1]. }
  wp_simpl. destruct (abort s1); wp_simpl.
  { apply Htail; [reflexivity | constructor]. }
  apply wp_if; intros _.
  - destruct (previous (inbound s1)); wp_simpl; [| exact I].
    apply Htail; [reflexivity | repeat constructor].
  - apply wp_if; intros _.
    + destruct (previous (inbound s1)); wp_simpl; [| exact I].
      apply Htail; [reflexivity | constructor].
    + wp_simpl. apply Htail; [reflexivity | constructor].
Qed.

Lemma start_quietly (request : request_id) (chain : list actor)
  (inst : instantiation) s :
  wp (start input_is_monostate output_is_monostate op_to_string
        error_to_string self_to_string request chain inst)
     (fun _ s' log =>
        (evolves s s' log /\ calm log) /\ outbound s' = outbound s) s.
Proof.
  assert (Hquiet : (evolves s s [] /\ calm []) /\ outbound s = outbound s).
  { split; [split; [apply evolves_refl | constructor] | reflexivity]. }
  unfold start. wp_simpl.
  destruct (has_instance s) eqn:Hi; wp_simpl; [exact Hquiet |].
  apply wp_if; intros _.
  - destruct chain; wp_simpl; [| exact Hquiet].
    eapply wp_consequence.
    { apply (start_instantiate_quietly request [] inst s s [] Hi
               (evolves_refl s)). }
    intros a s' log (Hev & Hcalm & Eo). cbn [app] in *.
    split; [split; assumption | assumption].
  - destruct chain as [| first chain']; wp_simpl; [exact Hquiet |].
    eapply wp_consequence.
    { apply (start_instantiate_quietly request _ inst s
               (set_previous (Some (last (first :: chain') first)) s) []
               Hi).
      unfold evolves, latched, error_aborts, pending_runs. cbn.
      repeat split; auto. }
    intros a s' log (Hev & Hcalm & Eo). cbn [app] in *.
    split; [split |].
    + destruct Hev as (L & E & R).
      split; [exact L |]. split; [exact E | exact R].
    + constructor; [reflexivity | assumption].
    + exact Eo.
Qed.

(** *** The parts of a run *)

(** [deliver_batches] changes the demand only; it either talks to no
    neighbour, or it pushes the head of the outbound buffer to the sink of a
    demand that is open and not being served, which it marks as being
    served. *)
Lemma deliver_batches_evolves (now : time_point) (force : bool) s :
  wp (deliver_batches now force)
     (fun _ s' log =>
        evolves s s' log
        /\ (inbound s' = inbound s /\ instance s' = instance s
            /\ abort s' = abort s
            /\ outbound_buffer (outbound s') = outbound_buffer (outbound s)
            /\ outbound_buffer_size (outbound s')
               = outbound_buffer_size (outbound s)
            /\ reject_demand (outbound s') = reject_demand (outbound s))
        /\ ((calm log
             /\ (current_demand (outbound s') = current_demand (outbound s)
                 \/ current_demand (outbound s') = None)
             /\ (force = true ->
                 outbound_buffer_size (outbound s) = 0 ->
                 forall d, current_demand (outbound s) = Some d ->
                           ongoing d = false -> 0 <= batch_size d ->
                           current_demand (outbound s') = None))
            \/ exists d,
                 current_demand (outbound s) = Some d
                 /\ ongoing d = false
                 /\ Z.min (outbound_buffer_size (outbound s)) (batch_size d)
                    <> 0
                 /\ log = [send_push (sink d)
                             (fst (split_vec (outbound_buffer (outbound s))
                                     (Z.min (outbound_buffer_size (outbound s))
                                            (batch_size d))))
                             (force
                              || (max_buffered (T := Output)
                                  <=? outbound_buffer_size (outbound s)))]
                 /\ current_demand (outbound s')
                    = Some (set_ongoing true d))) s.
Proof.
  unfold deliver_batches, schedule_run. wp_simpl.
  destruct (current_demand (outbound s)) as [d |] eqn:Hd; wp_simpl.
  2: { split; [apply evolves_refl |]. split; [now repeat split |].
       left. split; [constructor |]. split; [now left | discriminate]. }
  destruct (ongoing d) eqn:Hon; wp_simpl.
  { split; [apply evolves_refl |]. split; [now repeat split |].
    left. split; [constructor |]. split; [now left |].
    intros _ _ d' [= <-]. congruence. }
  destruct (has_instance s) eqn:Hi; wp_simpl; [| exact I].
  destruct (negb force && _) eqn:Hwait; wp_simpl.
  { split; [apply evolves_refl |]. split; [now repeat split |].
    left. split; [constructor |]. split; [now left |].
    intros -> Hz d' [= <-] _ Hbs. cbn in Hwait. discriminate. }
  destruct (Z.eqb_spec (Z.min (outbound_buffer_size (outbound s))
                              (batch_size d)) 0) as [Hz | Hnz]; wp_simpl.
  - unfold has_instance in *. cbn.
    destruct (instance s) as [[[? |]] |] eqn:?; [| | discriminate];
      destruct (run_scheduled s) eqn:?; cbn; wp_simpl;
      (split; [settle |]); (split; [now repeat split |]);
      left; (split; [repeat constructor |]); split; auto.
  - split; [settle |]. split; [now repeat split |].
    right. exists d. now repeat split.
Qed.

Lemma request_more_input_evolves s :
  wp request_more_input
     (fun _ s' log =>
        evolves s s' log
        /\ (outbound s' = outbound s /\ instance s' = instance s
            /\ abort s' = abort s)
        /\ (log = []
            \/ exists prev n,
                 log = [send_pull prev n max_batch_timeout]
                 /\ previous (inbound s) = Some prev
                 /\ signaled_demand (inbound s) = false)) s.
Proof.
  unfold request_more_input. wp_simpl.
  destruct (_ <=? _); wp_simpl; [| exact I].
  destruct (previous (inbound s)) as [prev |] eqn:Hp; wp_simpl.
  - destruct (signaled_demand (inbound s)) eqn:Hsig; cbn [orb]; wp_simpl.
    + split; [apply evolves_refl |]. split; [now repeat split | now left].
    + destruct (_ <? _); wp_simpl.
      * split; [apply evolves_refl |]. split; [now repeat split | now left].
      * split; [settle |]. split; [now repeat split |].
        right. eexists _, _. now repeat split.
  - split; [apply evolves_refl |]. split; [now repeat split | now left].
Qed.

(** The only way [advance_generator] ends the node is by quitting with the
    abort reason; with a full outbound buffer it does nothing. *)
Lemma advance_generator_evolves (r : resumption) s :
  wp (advance_generator input_is_monostate output_is_monostate op_to_string
        error_to_string r)
     (fun _ s' log =>
        evolves s s' log
        /\ at_end s = false
        /\ reject_demand (outbound s') = reject_demand (outbound s)
        /\ current_demand (outbound s') = current_demand (outbound s)
        /\ (forall a, In a log -> outward a = true ->
              exists e, a = quit (Some e) /\ abort s' = Some e)
        /\ (output_is_monostate = false ->
            max_buffered (T := Output) <= outbound_buffer_size (outbound s) ->
            s' = s /\ log = [])) s.
Proof.
  assert (Hfinish : forall empty_ s1,
    wp (advance_finish empty_)
       (fun _ s' log =>
          evolves s1 s' log /\ outbound s' = outbound s1
          /\ forall a, In a log -> outward a = true ->
               exists e, a = quit (Some e) /\ abort s' = Some e) s1).
  { intros empty_ s1. unfold advance_finish. wp_simpl.
    destruct (abort s1) as [e |] eqn:Ha; wp_simpl.
    - split; [settle |]. split; [reflexivity |].
      intros a [<- | []] _. now exists e.
    - split; [apply evolves_refl |]. split; [reflexivity |]. intros a []. }
  assert (Hcalm : forall (log : list action) a,
            calm log -> In a log -> outward a = true -> False).
  { intros log a Hc Hin Hout. rewrite Forall_forall in Hc.
    specialize (Hc a Hin). congruence. }
  unfold advance_generator. wp_simpl.
  destruct (instance s) as [g |] eqn:Hi; wp_simpl; [| exact I].
  destruct (it g) as [next |] eqn:Hit; wp_simpl; [| exact I].
  assert (Hend : at_end s = false) by (unfold at_end; now rewrite Hi, Hit).
  apply wp_if; intros Hout; wp_simpl.
  - eapply wp_consequence; [now apply resume_bodily |].
    intros a s1 log1 (Hev1 & Hcalm1 & Ei1 & Eo1).
    eapply wp_consequence; [apply Hfinish |].
    intros b s2 log2 (Hev2 & Eo2 & Hq2). cbn [app].
    split; [now apply (evolves_trans s s1) |]. split; [assumption |].
    split; [congruence |]. split; [congruence |].
    split; [| intros Hno; congruence].
    intros x Hin Hx. apply in_app_or in Hin as [Hin | Hin];
      [now elim (Hcalm _ _ Hcalm1 Hin Hx) | now apply Hq2].
  - destruct (Z.leb_spec (max_buffered (T := Output))
                (outbound_buffer_size (outbound s))) as [Hfull | Hroom];
      wp_simpl.
    { split; [apply evolves_refl |]. split; [assumption |].
      split; [reflexivity |]. split; [reflexivity |].
      split; [intros a [] | now split]. }
    eapply wp_consequence; [now apply resume_bodily |].
    intros a s1 log1 (Hev1 & Hcalm1 & Ei1 & Eo1).
    assert (Hrest : forall s1' log1',
      evolves s1 s1' log1' -> calm log1' -> outbound s1' = outbound s1
      \/ (exists buffer size_, s1' = set_outbound_buffer buffer size_ s1) ->
      wp (advance_finish (0 <? size next))
         (fun _ s' log =>
            evolves s s' (log1 ++ log1' ++ log)
            /\ at_end s = false
            /\ reject_demand (outbound s') = reject_demand (outbound s)
            /\ current_demand (outbound s') = current_demand (outbound s)
            /\ (forall a, In a (log1 ++ log1' ++ log) -> outward a = true ->
                  exists e, a = quit (Some e) /\ abort s' = Some e)
            /\ (output_is_monostate = false ->
                max_buffered (T := Output)
                <= outbound_buffer_size (outbound s) ->
                s' = s /\ log1 ++ log1' ++ log = [])) s1').
    { intros s1' log1' Hev1' Hcalm1' Hout1.
      eapply wp_consequence; [apply Hfinish |].
      intros b s2 log2 (Hev2 & Eo2 & Hq2).
      split.
      { apply (evolves_trans s s1); [assumption |].
        now apply (evolves_trans s1 s1'). }
      split; [assumption |].
      assert (Hsame : reject_demand (outbound s1')
                      = reject_demand (outbound s1)
                      /\ current_demand (outbound s1')
                         = current_demand (outbound s1)).
      { destruct Hout1 as [-> | (buffer & size_ & ->)]; now split. }
      destruct Hsame as [Hr Hc].
      split; [congruence |]. split; [congruence |].
      split; [| intros _ Hfull; lia].
      intros x Hin Hx. apply in_app_or in Hin as [Hin | Hin];
        [now elim (Hcalm _ _ Hcalm1 Hin Hx) |].
      apply in_app_or in Hin as [Hin | Hin];
        [now elim (Hcalm _ _ Hcalm1' Hin Hx) | now apply Hq2]. }
    destruct (0 <? size next) eqn:Hpos; wp_simpl.
    + apply Hrest.
      * settle.
      * constructor.
      * right. now eexists _, _.
    + apply (Hrest s1 []); [apply evolves_refl | constructor | now left].
Qed.

End NodeEvolves.
(* ================================================================= *)
(** ** The execution node: the run loop *)

Section NodeRuns.
Import Batch Caf ExecNode.
Context {Input Output : Type} `{ElementLaws Input} `{ElementLaws Output}.
Variable input_is_monostate output_is_monostate : bool.
Variable op_to_string : string.
Variable error_to_string : error -> string.
Variable self_to_string : string.

Local Abbreviation state := (@exec_node_state Input Output).
Local Abbreviation M := (@ExecNode.M Input Output).
Local Abbreviation action := (@ExecNode.action Output).

Implicit Types s : state.
Implicit Types log : list action.

Local Abbreviation calm log := (Forall (fun a : action => outward a = false) log).

Local Abbreviation talks s s' log :=
  (Forall (talk_ok input_is_monostate output_is_monostate s s') log).

Lemma calm_talks s s' log : calm log -> talks s s' log.
Proof.
  intros Hc. eapply Forall_impl; [| exact Hc].
  intros a Ha. destruct a; cbn in *; try discriminate; exact I.
Qed.

(** What has been said stays right when the node moves on, as long as the
    demand is left alone. *)
Lemma talks_later s s1 s2 log :
  talks s s1 log ->
  current_demand (outbound s2) = current_demand (outbound s1) ->
  latched s1 s2 ->
  talks s s2 log.
Proof.
  intros Ht Hd (L1 & _). eapply Forall_impl; [| exact Ht].
  intros a Ha. destruct a as [| to batch await | | | | | | | | | reason];
    cbn in *; try exact Ha.
  - destruct Ha as (d & ? & ? & ? & ? & ? & ? & Hs1).
    exists d. repeat (split; [assumption |]). congruence.
  - destruct reason as [e |]; [| exact Ha].
    destruct Ha as [? Hab]. split; [assumption | now apply L1].
Qed.

Lemma schedule_run_calmly s :
  wp schedule_run
     (fun _ s' log =>
        (evolves s s' log /\ calm log)
        /\ inbound s' = inbound s /\ outbound s' = outbound s
        /\ instance s' = instance s) s.
Proof.
  unfold schedule_run. wp_simpl. unfold has_instance.
  destruct (instance s) as [[[? |]] |] eqn:?, (run_scheduled s) eqn:?; cbn;
    wp_simpl; (split; [settle | now repeat split]).
Qed.

(** The run of a node whose generator has ended. *)
Lemma run_at_end (now : time_point) (r : resumption) s :
  node_inv s ->
  at_end s = true ->
  wp (run input_is_monostate output_is_monostate op_to_string error_to_string
          now r)
     (fun _ s' log =>
        evolves s s' log /\ talks s s' log
        /\ instance s' = instance s
        /\ outbound_buffer (outbound s') = outbound_buffer (outbound s)
        /\ (drained s -> drained s')) s.
Proof.
  intros Hinv Hend.
  pose proof Hinv as [I1 I2 I3 O1 O2 O3 G D1 D2 D3].
  assert (Hi : has_instance s = true).
  { unfold at_end, has_instance in *. now destruct (instance s). }
  unfold run. wp_simpl. rewrite Hi, Hend. wp_simpl.
  (* the exit sent to the previous node *)
  set (exit_part := if negb input_is_monostate then _ else _).
  assert (Hexit :
    wp exit_part
       (fun _ s1 log1 =>
          s1 = s /\ scheduled_runs log1 = 0
          /\ forall s', talks s s' log1) s).
  { unfold exit_part.
    destruct input_is_monostate eqn:Hsrc; cbn [negb]; wp_simpl.
    - split; [reflexivity |]. split; [reflexivity | constructor].
    - destruct (previous (inbound s)) as [prev |] eqn:Hp; wp_simpl.
      + split; [reflexivity |]. split; [reflexivity |].
        intros s'. constructor; [| constructor]. cbn. now repeat split.
      + split; [reflexivity |]. split; [reflexivity | constructor]. }
  eapply wp_consequence; [exact Hexit |].
  intros a s1 log1 (-> & Hruns1 & Hlog1). clear Hexit exit_part.
  assert (Hev1 : evolves s s log1)
    by exact (evolves_tell s s [] log1 (evolves_refl s) Hruns1).
  (* a node that quits at once *)
  assert (Hquit :
    (output_is_monostate = false ->
     outbound_buffer_size (outbound s) = 0
     /\ current_demand (outbound s) = None) ->
    evolves s s (log1 ++ [quit None])
    /\ talks s s (log1 ++ [quit None])
    /\ instance s = instance s
    /\ outbound_buffer (outbound s) = outbound_buffer (outbound s)
    /\ (drained s -> drained s)).
  { intros Hempty.
    split; [apply evolves_tell; [assumption | reflexivity] |].
    split; [| split; [reflexivity | split; [reflexivity | auto]]].
    apply Forall_app. split; [apply Hlog1 |].
    constructor; [| constructor]. cbn. now split. }
  apply wp_if; intros Hout; [| wp_simpl; cbn [app]].
  2: { apply Hquit. apply negb_false_iff in Hout. congruence. }
  apply negb_true_iff in Hout.
  (* the delivery that is forced, after the demand has been refused or not *)
  assert (Hforced : forall rej : bool,
    (rej = true ->
     outbound_buffer_size (outbound s) = 0
     /\ exists d, current_demand (outbound s) = Some d) ->
    (rej = false -> drained s -> reject_demand (outbound s) = false) ->
    wp (bind (deliver_batches now true) (fun _ => schedule_run))
       (fun _ s' log =>
          evolves s s' (log1 ++ log)
          /\ talks s s' (log1 ++ log)
          /\ instance s' = instance s
          /\ outbound_buffer (outbound s') = outbound_buffer (outbound s)
          /\ (drained s -> drained s'))
       (if rej then set_reject_demand true s else s)).
  { intros rej Hrej Hkeep.
    set (s1 := if rej then set_reject_demand true s else s).
    assert (Es1 : inbound s1 = inbound s /\ instance s1 = instance s
                  /\ outbound_buffer (outbound s1)
                     = outbound_buffer (outbound s)
                  /\ outbound_buffer_size (outbound s1)
                     = outbound_buffer_size (outbound s)
                  /\ current_demand (outbound s1)
                     = current_demand (outbound s)
                  /\ reject_demand (outbound s1)
                     = (rej || reject_demand (outbound s)))
      by (unfold s1; destruct rej; now repeat split).
    destruct Es1 as (Ein1 & Ei1 & Eb1 & Ez1 & Ed1 & Er1).
    assert (Hevs1 : evolves s s1 []) by (unfold s1; destruct rej; settle).
    wp_simpl.
    eapply wp_consequence; [apply (deliver_batches_evolves now true s1) |].
    intros u s2 log2
      (Hev2 & (Ein2 & Ei2 & Ea2 & Eb2 & Ez2 & Er2) & Hsaid).
    eapply wp_consequence; [apply schedule_run_calmly |].
    intros v s3 log3 ([Hev3 Hcalm3] & Ein3 & Eo3 & Ei3).
    assert (Hev : evolves s s3 (log1 ++ log2 ++ log3)).
    { apply (evolves_trans s s s3); [assumption |].
      apply (evolves_trans s s2 s3); [| assumption].
      exact (evolves_trans s s1 s2 [] log2 Hevs1 Hev2). }
    split; [exact Hev |]. split.
    { apply Forall_app. split; [apply Hlog1 |].
      apply Forall_app. split; [| now apply calm_talks].
      destruct Hsaid as [(Hcalm2 & _) | (d & Hd & Hon & Hmin & -> & Hd2)];
        [now apply calm_talks |].
      constructor; [| constructor]. cbn.
      exists d. rewrite Ed1 in Hd. rewrite Ez1 in Hmin.
      rewrite Eb1, Ez1, Hend, Eo3, Hd2. cbn [orb]. now repeat split. }
    split; [congruence |]. split; [rewrite Eo3; congruence |].
    intros Hdr. unfold drained. rewrite Eo3, Er2, Er1.
    destruct rej; cbn [orb].
    - destruct (Hrej eq_refl) as [Hz (d & Hd)]. intros _.
      assert (Hon : ongoing d = false).
      { destruct (ongoing d) eqn:Hon; [| reflexivity].
        specialize (D2 d Hd Hon). lia. }
      specialize (D3 d Hd).
      assert (Hnone : current_demand (outbound s2) = None).
      { destruct Hsaid as [(_ & _ & Hclose) | (d' & Hd' & _ & Hmin & _)].
        - apply (Hclose eq_refl ltac:(congruence) d); [congruence | | ];
            assumption.
        - rewrite Ed1, Hd in Hd'. injection Hd' as <-.
          rewrite Ez1, Hz in Hmin. lia. }
      assert (Hnil : outbound_buffer (outbound s) = []).
      { apply total_zero_nil; [assumption | lia]. }
      unfold at_end in *. rewrite Ei3, Ei2, Ei1, Eb2, Eb1, Ez2, Ez1.
      now repeat split.
    - intros Hr. rewrite (Hkeep eq_refl Hdr) in Hr. discriminate. }
  unfold has_demand.
  destruct (current_demand (outbound s)) as [d |] eqn:Hd; cbn [andb orb].
  - destruct (Z.eqb_spec (outbound_buffer_size (outbound s)) 0) as [Hz | Hnz];
      wp_simpl; cbn [app].
    + assert (HF := Hforced true). cbn iota in HF. autorewrite with wp in HF.
      apply HF; [| discriminate].
      intros _. split; [assumption | now exists d].
    + assert (HF := Hforced false). cbn iota in HF.
      autorewrite with wp in HF. apply HF; [discriminate |].
      intros _ Hdr.
      destruct (reject_demand (outbound s)) eqn:Hr; [| reflexivity].
      destruct (Hdr Hr) as (_ & _ & _ & Hnone). congruence.
  - wp_simpl. destruct (Z.ltb_spec 0 (outbound_buffer_size (outbound s)))
      as [Hpos | Hzero]; wp_simpl; cbn [app].
    + assert (HF := Hforced false). cbn iota in HF.
      autorewrite with wp in HF. apply HF; [discriminate |].
      intros _ Hdr.
      destruct (reject_demand (outbound s)) eqn:Hr; [| reflexivity].
      destruct (Hdr Hr) as (_ & _ & Hz & _). lia.
    + apply Hquit. intros _. split; [lia | reflexivity].
Qed.

(** The run of a node whose generator has more to give. *)
Lemma run_ahead (now : time_point) (r : resumption) s :
  at_end s = false ->
  wp (run input_is_monostate output_is_monostate op_to_string error_to_string
          now r)
     (fun _ s' log =>
        evolves s s' log /\ talks s s' log
        /\ (drained s -> drained s')
        /\ (output_is_monostate = false ->
            max_buffered (T := Output) <= outbound_buffer_size (outbound s) ->
            instance s' = instance s
            /\ outbound_buffer (outbound s')
               = outbound_buffer (outbound s))) s.
Proof.
  intros Hend. unfold run. wp_simpl.
  destruct (has_instance s); wp_simpl; [| exact I].
  rewrite Hend. wp_simpl.
  (* delivery *)
  set (deliver_part := if negb output_is_monostate then _ else _).
  assert (Hdeliver :
    wp deliver_part
       (fun _ s1 log1 =>
          evolves s s1 log1 /\ talks s s1 log1
          /\ inbound s1 = inbound s /\ instance s1 = instance s
          /\ outbound_buffer (outbound s1) = outbound_buffer (outbound s)
          /\ outbound_buffer_size (outbound s1)
             = outbound_buffer_size (outbound s)
          /\ reject_demand (outbound s1) = reject_demand (outbound s)) s).
  { unfold deliver_part. apply wp_if; intros _.
    - eapply wp_consequence; [apply (deliver_batches_evolves now false s) |].
      intros u s1 log1
        (Hev1 & (Ein1 & Ei1 & Ea1 & Eb1 & Ez1 & Er1) & Hsaid).
      split; [assumption |]. split; [| now repeat split].
      destruct Hsaid as [(Hcalm1 & _) | (d & Hd & Hon & Hmin & -> & Hd1)];
        [now apply calm_talks |].
      constructor; [| constructor]. cbn. exists d. rewrite Hend.
      now repeat split.
    - wp_simpl. split; [apply evolves_refl |]. split; [constructor |].
      now repeat split. }
  eapply wp_consequence; [exact Hdeliver |].
  intros u s1 log1 (Hev1 & Htalk1 & Ein1 & Ei1 & Eb1 & Ez1 & Er1).
  clear Hdeliver deliver_part. wp_simpl.
  (* the request for input *)
  set (request_part := if negb input_is_monostate then _ else _).
  assert (Hrequest :
    wp request_part
       (fun _ s2 log2 =>
          evolves s1 s2 log2 /\ talks s s2 log2
          /\ outbound s2 = outbound s1 /\ instance s2 = instance s1) s1).
  { unfold request_part. apply wp_if; intros Hsrc.
    - apply negb_true_iff in Hsrc.
      eapply wp_consequence; [apply request_more_input_evolves |].
      intros v s2 log2 (Hev2 & (Eo2 & Ei2 & Ea2) & Hsaid).
      split; [assumption |]. split; [| now split].
      destruct Hsaid as [-> | (prev & n & -> & Hp & Hsig)]; [constructor |].
      constructor; [| constructor]. cbn. rewrite <- Ein1. now repeat split.
    - wp_simpl. split; [apply evolves_refl |]. split; [constructor |].
      now split. }
  eapply wp_consequence; [exact Hrequest |].
  intros v s2 log2 (Hev2 & Htalk2 & Eo2 & Ei2).
  clear Hrequest request_part. wp_simpl.
  (* the generator *)
  eapply wp_consequence;
    [apply (advance_generator_evolves input_is_monostate output_is_monostate
              op_to_string error_to_string r s2) |].
  intros w s3 log3 (Hev3 & _ & Er3 & Ed3 & Hsaid3 & Hfull3).
  eapply wp_consequence;
    [apply (reschedule_quietly input_is_monostate output_is_monostate s3) |].
  intros x s4 log4 ((Hev4 & Hcalm4) & Ei4 & Eo4).
  assert (Hev12 : evolves s s2 (log1 ++ log2))
    by exact (evolves_trans s s1 s2 _ _ Hev1 Hev2).
  assert (Hev34 : evolves s2 s4 (log3 ++ log4))
    by exact (evolves_trans s2 s3 s4 _ _ Hev3 Hev4).
  assert (Hd24 : current_demand (outbound s4) = current_demand (outbound s2))
    by (rewrite Eo4; exact Ed3).
  assert (Hd14 : current_demand (outbound s4) = current_demand (outbound s1))
    by (rewrite Hd24, Eo2; reflexivity).
  cbn [app]. split.
  { rewrite app_assoc. now apply (evolves_trans s s2 s4). }
  split.
  { apply Forall_app. split.
    - apply (talks_later s s1 s4); [assumption | assumption |].
      apply (latched_trans s1 s2 s4); [apply Hev2 | apply Hev34].
    - apply Forall_app. split.
      + apply (talks_later s s2 s4); [assumption | assumption | apply Hev34].
      + apply Forall_app. split; [| now apply calm_talks].
        rewrite Forall_forall. intros a Hin.
        destruct (outward a) eqn:Hout.
        * destruct (Hsaid3 a Hin Hout) as (e & -> & Hab). cbn.
          split; [assumption |]. now apply (proj1 Hev4).
        * destruct a; cbn in *; try discriminate; exact I. }
  split.
  { intros Hdr. unfold drained. rewrite Eo4, Er3, Eo2, Er1. intros Hr.
    destruct (Hdr Hr) as (Hbad & _). congruence. }
  intros Hout Hfull.
  rewrite Eo2, Ez1 in Hfull3. destruct (Hfull3 Hout Hfull) as [-> _].
  rewrite Ei4, Eo4, Ei2, Eo2. now split.
Qed.

(** What a run does: it talks to the neighbours of the node as [talk_ok]
    says, it lets what is set stay set, and it hands at most the next run to
    the clock. *)
Lemma run_evolves (now : time_point) (r : resumption) s :
  node_inv s ->
  wp (run input_is_monostate output_is_monostate op_to_string error_to_string
          now r)
     (fun _ s' log =>
        evolves s s' log /\ talks s s' log
        /\ (drained s -> drained s')
        /\ (at_end s = true \/ (output_is_monostate = false
                                /\ max_buffered (T := Output)
                                   <= outbound_buffer_size (outbound s)) ->
            instance s' = instance s
            /\ outbound_buffer (outbound s')
               = outbound_buffer (outbound s))) s.
Proof.
  intros Hinv. destruct (at_end s) eqn:Hend.
  - eapply wp_consequence; [now apply run_at_end |].
    intros a s' log (Hev & Htalk & Ei & Eb & Hdr).
    split; [assumption |]. split; [assumption |]. split; [assumption |].
    intros _. now split.
  - eapply wp_consequence; [now apply run_ahead |].
    intros a s' log (Hev & Htalk & Hdr & Hfull).
    split; [assumption |]. split; [assumption |]. split; [assumption |].
    intros [Hbad | [Hout Hmax]]; [discriminate | now apply Hfull].
Qed.

(** *** Every handler *)

Local Abbreviation reachable_state :=
  (reachable input_is_monostate output_is_monostate op_to_string
     error_to_string self_to_string).

Local Abbreviation handle_event :=
  (handle input_is_monostate output_is_monostate op_to_string
     error_to_string self_to_string).

(** The run an event takes from the clock: the scheduled action is the run
    that was pending. *)
Local Abbreviation started_runs e :=
  (match e with
   | ev_run _ _ => 1
   | _ => 0
   end).

Lemma discard_reply {A} (m : M A)
  (Q : state -> list action -> Prop) s :
  wp m (fun _ s' log => Q s' log) s ->
  wp (bind m (fun _ => ret tt)) (fun _ s' log => Q s' log) s.
Proof.
  intros Hwp. wp_simpl. eapply wp_consequence; [exact Hwp |].
  intros a s' log HQ. wp_simpl. now rewrite app_nil_r.
Qed.

(** The handlers of messages and replies talk to no neighbour. *)
Lemma handle_quietly (e : event) s :
  (forall now r, e <> ev_run now r) ->
  wp (handle_event e) (fun _ s' log => evolves s s' log /\ calm log) s.
Proof.
  intros Hnot.
  assert (Hstay : evolves s s [] /\ calm [])
    by (split; [apply evolves_refl | constructor]).
  destruct e; cbn [handle].
  - apply discard_reply. eapply wp_consequence; [apply start_quietly |].
    now intros a s' log [Hq _].
  - apply start_handle_result_quietly.
  - apply start_handle_error_quietly.
  - apply discard_reply. unfold on_push. apply wp_if; intros _;
      [wp_simpl; exact Hstay |].
    eapply wp_consequence; [apply push_quietly |].
    now intros a s' log [Hq _].
  - apply discard_reply. unfold on_pull. apply wp_if; intros _;
      [wp_simpl; exact Hstay |].
    eapply wp_consequence; [apply pull_quietly |].
    now intros a s' log [Hq _].
  - now elim (Hnot now r).
  - apply push_handle_result_quietly.
  - eapply wp_consequence; [apply push_handle_error_quietly |].
    now intros a s' log [Hq _].
  - apply request_handle_result_quietly.
  - apply request_handle_error_quietly.
  - apply down_handler_quietly.
  - apply ctrl_abort_quietly.
  - apply ctrl_warn_quietly.
Qed.

(** The action that the clock runs. *)
Lemma scheduled_action_evolves (now : time_point) (r : resumption) s :
  node_inv s ->
  wp (scheduled_action input_is_monostate output_is_monostate op_to_string
        error_to_string now r)
     (fun _ s' log =>
        run_scheduled s = true
        /\ latched s s' /\ (error_aborts s -> error_aborts s')
        /\ scheduled_runs log = pending_runs s'
        /\ talks s s' log
        /\ (drained s -> drained s')
        /\ (at_end s = true \/ (output_is_monostate = false
                                /\ max_buffered (T := Output)
                                   <= outbound_buffer_size (outbound s)) ->
            instance s' = instance s
            /\ outbound_buffer (outbound s')
               = outbound_buffer (outbound s))) s.
Proof.
  intros Hinv. unfold scheduled_action. wp_simpl.
  destruct (run_scheduled s) eqn:Hr; wp_simpl; [| exact I].
  eapply wp_consequence.
  { apply (run_evolves now r (set_run_scheduled false s)).
    apply (node_inv_same s); [assumption | repeat split]. }
  intros a s' log ((L & E & R) & Htalk & Hdr & Hfull). cbn [app].
  split; [reflexivity |]. split; [exact L |]. split; [exact E |].
  split; [unfold pending_runs at 1 in R; cbn in R; lia |].
  split; [| split; [exact Hdr | exact Hfull]].
  eapply Forall_impl; [| exact Htalk].
  intros x Hx. destruct x; exact Hx.
Qed.

(** What every handler observes. *)
Lemma handle_evolves (e : event) s :
  node_inv s ->
  wp (handle_event e)
     (fun _ s' log =>
        latched s s' /\ (error_aborts s -> error_aborts s')
        /\ scheduled_runs log + pending_runs s
           = pending_runs s' + started_runs e) s.
Proof.
  intros Hinv.
  assert (Hrun : forall now r, wp (handle_event (ev_run now r))
            (fun _ s' log =>
               latched s s' /\ (error_aborts s -> error_aborts s')
               /\ scheduled_runs log + pending_runs s
                  = pending_runs s' + 1) s).
  { intros now r. cbn [handle].
    eapply wp_consequence; [now apply scheduled_action_evolves |].
    intros a s' log (Hr & L & E & R & _).
    split; [exact L |]. split; [exact E |].
    unfold pending_runs at 1. rewrite Hr. lia. }
  destruct e; try apply Hrun;
    (eapply wp_consequence; [apply handle_quietly; discriminate |]);
    intros a s' log [(L & E & R) _];
    (split; [exact L |]); (split; [exact E | lia]).
Qed.

(** *** What holds in every state *)

Lemma reachable_error_aborts s : reachable_state s -> error_aborts s.
Proof.
  induction 1 as [| s s' e log Hreach IH Hen Hstep].
  - unfold error_aborts. cbn. discriminate.
  - pose proof (handle_evolves e s (reachable_inv _ _ _ _ _ s Hreach)) as Hwp.
    apply (wp_returns _ _ _ _ _ _ Hwp) in Hstep.
    destruct Hstep as (_ & E & _). now apply E.
Qed.

Lemma drained_frame s s' :
  drained s ->
  outbound s' = outbound s ->
  (at_end s = true -> at_end s' = true) ->
  drained s'.
Proof.
  intros Hdr Eo Hend. unfold drained. rewrite Eo. intros Hr.
  destruct (Hdr Hr) as (He & Hrest). split; [now apply Hend | exact Hrest].
Qed.

Lemma push_reply_needs_demand (capped_demand : Z) (e : error) s :
  wp (push_handle_result capped_demand)
     (fun _ s' _ =>
        reject_demand (outbound s') = reject_demand (outbound s)
        /\ current_demand (outbound s) <> None) s
  /\ wp (push_handle_error e)
        (fun _ s' _ =>
           reject_demand (outbound s') = reject_demand (outbound s)
           /\ current_demand (outbound s) <> None) s.
Proof.
  split.
  - unfold push_handle_result, schedule_run. run_atoms s; crunch;
      (split; [reflexivity | discriminate]).
  - unfold push_handle_error, schedule_run. run_atoms s; crunch;
      (split; [reflexivity | discriminate]).
Qed.

Lemma handle_drained (e : event) s :
  node_inv s -> drained s ->
  wp (handle_event e) (fun _ s' _ => drained s') s.
Proof.
  intros Hinv Hdr.
  assert (Hkeeps : forall (m : M unit),
            wp m (keeps s) s -> wp m (fun _ s' _ => drained s') s).
  { intros m Hwp. eapply wp_consequence; [exact Hwp |].
    intros a s' log [(_ & _ & Eo & Ei) _].
    apply (drained_frame s s' Hdr Eo). unfold at_end. now rewrite Ei. }
  destruct e; cbn [handle].
  - apply discard_reply. eapply wp_consequence; [apply start_quietly |].
    intros a s' log [[(L & _) _] Eo].
    apply (drained_frame s s' Hdr Eo). apply L.
  - apply Hkeeps, start_handle_result_keeps.
  - apply Hkeeps, start_handle_error_keeps.
  - apply discard_reply. unfold on_push. apply wp_if; intros _;
      [wp_simpl; exact Hdr |].
    eapply wp_consequence; [apply push_quietly |].
    intros a s' log [_ [Ei Eo]].
    apply (drained_frame s s' Hdr Eo). unfold at_end. now rewrite Ei.
  - apply discard_reply. unfold on_pull. apply wp_if; intros _;
      [wp_simpl; exact Hdr |].
    destruct (reject_demand (outbound s)) eqn:Hr.
    + unfold wp. now rewrite pull_rejecting.
    + eapply wp_consequence; [apply pull_quietly |].
      intros a s' log [_ (_ & _ & _ & Er)].
      unfold drained. rewrite Er, Hr. discriminate.
  - eapply wp_consequence; [now apply scheduled_action_evolves |].
    intros a s' log (_ & _ & _ & _ & _ & Hd & _). now apply Hd.
  - eapply wp_consequence;
      [apply (proj1 (push_reply_needs_demand capped_demand
                       (make_error unspecified EmptyString) s)) |].
    intros a s' log [Er Hd]. unfold drained. rewrite Er. intros Hr.
    destruct (Hdr Hr) as (_ & _ & _ & Hnone). contradiction.
  - eapply wp_consequence;
      [apply (proj2 (push_reply_needs_demand 0 e s)) |].
    intros a s' log [Er Hd]. unfold drained. rewrite Er. intros Hr.
    destruct (Hdr Hr) as (_ & _ & _ & Hnone). contradiction.
  - apply Hkeeps, request_handle_result_keeps.
  - apply Hkeeps, request_handle_error_keeps.
  - apply Hkeeps, down_handler_keeps.
  - apply Hkeeps, ctrl_abort_keeps.
  - apply Hkeeps, ctrl_warn_keeps.
Qed.

Lemma reachable_drained s : reachable_state s -> drained s.
Proof.
  induction 1 as [| s s' e log Hreach IH Hen Hstep].
  - unfold drained. cbn. discriminate.
  - pose proof (handle_drained e s (reachable_inv _ _ _ _ _ s Hreach) IH)
      as Hwp.
    exact (wp_returns _ _ _ _ _ _ Hwp Hstep).
Qed.

(** *** The protocol of a node *)

(** X14. In every state of a node the size counters of the two buffers are the
    sums of the sizes of the elements the buffers hold; a counter is zero
    exactly when its buffer is empty, which is what the input adapter asserts
    before it stalls. *)
Theorem counters_match_buffers s :
  reachable_state s ->
  inbound_buffer_size (inbound s) = total (inbound_buffer (inbound s))
  /\ outbound_buffer_size (outbound s) = total (outbound_buffer (outbound s))
  /\ (inbound_buffer_size (inbound s) = 0 <-> inbound_buffer (inbound s) = [])
  /\ (outbound_buffer_size (outbound s) = 0
      <-> outbound_buffer (outbound s) = []).
Proof.
  intros Hreach.
  pose proof (reachable_inv _ _ _ _ _ s Hreach)
    as [I1 I2 I3 O1 O2 O3 G D1 D2 D3].
  split; [exact I2 |]. split; [exact O1 |]. split.
  - rewrite I2. split; [now apply total_zero_nil | now intros ->].
  - rewrite O1. split; [now apply total_zero_nil | now intros ->].
Qed.

(** X15. A node refuses further demand only when it has nothing left to
    deliver: in every state in which [reject_demand] is set, the generator
    has ended, the outbound buffer is empty, and no demand is open. *)
Theorem rejects_only_when_drained s :
  reachable_state s ->
  reject_demand (outbound s) = true ->
  at_end s = true
  /\ outbound_buffer (outbound s) = []
  /\ outbound_buffer_size (outbound s) = 0
  /\ current_demand (outbound s) = None.
Proof.
  intros Hreach.
  exact (reachable_drained s Hreach).
Qed.

(** X16. What is set stays set, whatever the node handles next: an abort
    reason is neither cleared nor replaced, the mark that an error diagnostic
    has been seen stays, a node that refuses demand goes on refusing it, the
    operator stays instantiated, and a generator that has ended is not
    resumed.  A node that has seen an error diagnostic is aborted. *)
Theorem what_is_set_stays_set (e : event) s s' log :
  reachable_state s ->
  handle_event e s = Ok tt s' log ->
  (forall reason, abort s = Some reason -> abort s' = Some reason)
  /\ (has_seen_error_ s = true -> has_seen_error_ s' = true)
  /\ (reject_demand (outbound s) = true
      -> reject_demand (outbound s') = true)
  /\ (has_instance s = true -> has_instance s' = true)
  /\ (at_end s = true -> at_end s' = true)
  /\ (has_seen_error_ s' = true -> abort s' <> None).
Proof.
  intros Hreach Hstep.
  pose proof (reachable_inv _ _ _ _ _ s Hreach) as Hinv.
  pose proof (handle_evolves e s Hinv) as Hwp.
  destruct (wp_returns _ _ _ _ _ _ Hwp Hstep)
    as ((L1 & L2 & L3 & L4 & L5) & E & _).
  repeat (split; [assumption |]).
  apply E. exact (reachable_error_aborts s Hreach).
Qed.

(** X17. A node has at most one run pending.  The handler of a message or of a
    reply hands a run to the clock exactly when it marks one as pending,
    which it does only when none is; the action the clock runs is the run
    that was pending, and it hands at most the next one to the clock. *)
Theorem one_run_pending (e : event) s s' log :
  reachable_state s ->
  handle_event e s = Ok tt s' log ->
  0 <= scheduled_runs log <= 1
  /\ match e with
     | ev_run _ _ =>
         run_scheduled s = true /\ pending_runs s' = scheduled_runs log
     | _ => pending_runs s' = pending_runs s + scheduled_runs log
     end.
Proof.
  intros Hreach Hstep.
  pose proof (reachable_inv _ _ _ _ _ s Hreach) as Hinv.
  pose proof (handle_evolves e s Hinv) as Hwp.
  destruct (wp_returns _ _ _ _ _ _ Hwp Hstep) as (_ & _ & R).
  assert (Hpos : 0 <= scheduled_runs log) by (unfold scheduled_runs; lia).
  assert (Hs : 0 <= pending_runs s <= 1)
    by (unfold pending_runs; destruct (run_scheduled s); lia).
  assert (Hs' : 0 <= pending_runs s' <= 1)
    by (unfold pending_runs; destruct (run_scheduled s'); lia).
  destruct e; cbn in R; try (split; lia).
  pose proof (scheduled_action_evolves now r s Hinv) as Hwp'.
  cbn [handle] in Hstep.
  destruct (wp_returns _ _ _ _ _ _ Hwp' Hstep) as (Hr & _ & _ & R' & _).
  split; [lia |]. split; [exact Hr | lia].
Qed.

(** X18. Only the scheduled run talks to the neighbours of a node.  The
    handlers of [start], [push], [pull], of the replies, of the down message
    and of the control plane never push data, never ask for data, never tell
    the previous node to exit and never quit. *)
Theorem only_the_run_talks (e : event) s s' log :
  (forall now r, e <> ev_run now r) ->
  handle_event e s = Ok tt s' log ->
  Forall (fun a => outward a = false) log.
Proof.
  intros Hnot Hstep.
  pose proof (handle_quietly e s Hnot) as Hwp.
  now destruct (wp_returns _ _ _ _ _ _ Hwp Hstep).
Qed.

Lemma run_talks (now : time_point) (r : resumption) s s' log :
  reachable_state s ->
  handle_event (ev_run now r) s = Ok tt s' log ->
  Forall (talk_ok input_is_monostate output_is_monostate s s') log.
Proof.
  intros Hreach Hstep.
  pose proof (reachable_inv _ _ _ _ _ s Hreach) as Hinv.
  pose proof (scheduled_action_evolves now r s Hinv) as Hwp.
  cbn [handle] in Hstep.
  now destruct (wp_returns _ _ _ _ _ _ Hwp Hstep) as (_ & _ & _ & _ & Ht & _).
Qed.

(** X19. A run pushes no more than has been asked for.  Every batch it pushes
    answers the open demand, which is not being served yet: it goes to the
    sink of the demand, it is the head of the outbound buffer cut at
    [min buffered batch_size], so it is not empty and holds at most
    [batch_size] rows or bytes, and the demand is marked as being served.
    The node waits for the reply when the generator has ended or the buffer
    is full. *)
Theorem run_pushes_what_is_asked (now : time_point) (r : resumption)
  s s' log (to : actor) (batch : list Output) (await : bool) :
  reachable_state s ->
  handle_event (ev_run now r) s = Ok tt s' log ->
  In (send_push to batch await) log ->
  exists d,
    current_demand (outbound s) = Some d
    /\ ongoing d = false
    /\ to = sink d
    /\ batch
       = fst (split_vec (outbound_buffer (outbound s))
                (Z.min (outbound_buffer_size (outbound s)) (batch_size d)))
    /\ total batch
       = Z.min (outbound_buffer_size (outbound s)) (batch_size d)
    /\ 0 < total batch <= batch_size d
    /\ await
       = (at_end s
          || (max_buffered (T := Output)
              <=? outbound_buffer_size (outbound s)))
    /\ current_demand (outbound s') = Some (set_ongoing true d).
Proof.
  intros Hreach Hstep Hin.
  pose proof (reachable_inv _ _ _ _ _ s Hreach)
    as [I1 I2 I3 O1 O2 O3 G D1 D2 D3].
  pose proof (run_talks now r s s' log Hreach Hstep) as Ht.
  rewrite Forall_forall in Ht. specialize (Ht _ Hin). cbn in Ht.
  destruct Ht as (d & Hd & Hon & Hto & Hbatch & Hmin & Haw & Hd').
  exists d. specialize (D3 d Hd).
  set (capped := Z.min (outbound_buffer_size (outbound s)) (batch_size d))
    in *.
  assert (Hcap : 0 <= capped) by (unfold capped; lia).
  pose proof (split_vec_total (outbound_buffer (outbound s)) capped Hcap)
    as [Hl _].
  assert (Htotal : total batch = capped).
  { rewrite Hbatch, Hl. unfold capped. rewrite <- O1. lia. }
  repeat (split; [assumption |]).
  split; [unfold capped in *; lia |]. now split.
Qed.

(** X20. A run ends the node only when there is a reason.  It tells the
    previous node to exit only when its own generator has ended.  It quits
    without a reason only when the generator has ended and, unless the node
    is a sink, the outbound buffer is empty and no demand is open.  It quits
    with a reason only when the node is aborted, and the reason is the abort
    reason.  It asks the previous node for input only while the generator
    has not ended and no request is open. *)
Theorem run_ends_when_done (now : time_point) (r : resumption) s s' log :
  reachable_state s ->
  handle_event (ev_run now r) s = Ok tt s' log ->
  (forall to,
      In (send_exit to) log ->
      at_end s = true /\ previous (inbound s) = Some to)
  /\ (In (quit None) log ->
      at_end s = true
      /\ (output_is_monostate = false ->
          outbound_buffer (outbound s) = []
          /\ current_demand (outbound s) = None))
  /\ (forall reason,
        In (quit (Some reason)) log ->
        at_end s = false /\ abort s' = Some reason)
  /\ (forall to n timeout,
        In (send_pull to n timeout) log ->
        at_end s = false /\ previous (inbound s) = Some to
        /\ signaled_demand (inbound s) = false).
Proof.
  intros Hreach Hstep.
  pose proof (reachable_inv _ _ _ _ _ s Hreach)
    as [I1 I2 I3 O1 O2 O3 G D1 D2 D3].
  pose proof (run_talks now r s s' log Hreach Hstep) as Ht.
  rewrite Forall_forall in Ht.
  split; [| split; [| split]].
  - intros to Hin. specialize (Ht _ Hin). cbn in Ht. tauto.
  - intros Hin. specialize (Ht _ Hin). cbn in Ht.
    destruct Ht as [Hend Hempty]. split; [assumption |].
    intros Hout. destruct (Hempty Hout) as [Hz Hd]. split; [| assumption].
    apply total_zero_nil; [assumption | lia].
  - intros reason Hin. specialize (Ht _ Hin). exact Ht.
  - intros to n timeout Hin. specialize (Ht _ Hin). cbn in Ht. tauto.
Qed.

(** X21. A full outbound buffer holds the operator back.  In a run that finds
    [max_buffered] rows or bytes or more in the outbound buffer, the
    generator is not advanced and nothing is appended to the buffer; a batch
    the run pushes is one whose reply the node waits for. *)
Theorem full_buffer_stalls_operator (now : time_point) (r : resumption)
  s s' log :
  reachable_state s ->
  output_is_monostate = false ->
  max_buffered (T := Output) <= outbound_buffer_size (outbound s) ->
  handle_event (ev_run now r) s = Ok tt s' log ->
  instance s' = instance s
  /\ outbound_buffer (outbound s') = outbound_buffer (outbound s)
  /\ forall to batch await,
       In (send_push to batch await) log -> await = true.
Proof.
  intros Hreach Hout Hfull Hstep.
  pose proof (reachable_inv _ _ _ _ _ s Hreach) as Hinv.
  pose proof (scheduled_action_evolves now r s Hinv) as Hwp.
  cbn [handle] in Hstep.
  destruct (wp_returns _ _ _ _ _ _ Hwp Hstep)
    as (_ & _ & _ & _ & Ht & _ & Hstall).
  destruct (Hstall (or_intror (conj Hout Hfull))) as [Ei Eb].
  split; [exact Ei |]. split; [exact Eb |].
  intros to batch await Hin. rewrite Forall_forall in Ht.
  specialize (Ht _ Hin). cbn in Ht.
  destruct Ht as (d & _ & _ & _ & _ & _ & -> & _).
  destruct (Z.leb_spec (max_buffered (T := Output))
              (outbound_buffer_size (outbound s))) as [_ | Hbad]; [| lia].
  apply orb_true_r.
Qed.


End NodeRuns.
(* ================================================================= *)
(** ** A pull on a node that rejects demand *)

Section NodeRejecting.
Import Batch Caf ExecNode.
Context {Input Output : Type} `{ElementLaws Input} `{ElementLaws Output}.
Variable input_is_monostate output_is_monostate : bool.
Variable op_to_string : string.
Variable error_to_string : error -> string.
Variable self_to_string : string.

Local Abbreviation state := (@exec_node_state Input Output).
Local Abbreviation action := (@ExecNode.action Output).

Implicit Types s : state.
Implicit Types log : list action.



End NodeRejecting.
(* ================================================================= *)
(** ** The properties at concrete inputs *)

Section MoreExampleRuns.
Import Batch Caf ExecNode Examples.

Lemma handle_after {Input Output : Type} `{Element Input} `{Element Output}
  (input_is_monostate output_is_monostate : bool) (op_to_string : string)
  (error_to_string : error -> string) (self_to_string : string)
  (e : @event Input Output) (s : exec_node_state) :
  returns (handle input_is_monostate output_is_monostate op_to_string
             error_to_string self_to_string e) s = true ->
  handle input_is_monostate output_is_monostate op_to_string error_to_string
    self_to_string e s
  = Ok tt
      (after input_is_monostate output_is_monostate op_to_string
         error_to_string self_to_string e s)
      (emitted input_is_monostate output_is_monostate op_to_string
         error_to_string self_to_string e s).
Proof.
  unfold returns, after, emitted.
  destruct (handle _ _ _ _ _ e s) as [[] s' log | what];
    [reflexivity | discriminate].
Qed.

Lemma pushed_reachable : source_reachable pushed.
Proof.
  apply reachable_after.
  - apply filled_reachable.
  - exact I.
  - reflexivity.
Qed.

Lemma rejecting_reachable : source_reachable rejecting.
Proof.
  apply reachable_after.
  - apply reachable_after.
    + apply reachable_after.
      * apply reachable_initial.
      * exact I.
      * reflexivity.
    + cbn. lia.
    + reflexivity.
  - exact I.
  - reflexivity.
Qed.

Lemma backed_up_reachable : source_reachable backed_up.
Proof.
  apply reachable_after.
  - apply reachable_after.
    + apply started_reachable. unfold yield_limit, Ki. lia.
    + cbn. lia.
    + vm_compute. reflexivity.
  - cbn [enabled run_on fits yields]. rewrite batch_of_size; unfold yield_limit; lia.
  - vm_compute. reflexivity.
Qed.

Lemma started_stage_reachable : stage_reachable started_stage.
Proof.
  apply reachable_after.
  - apply reachable_initial.
  - cbn [enabled stage_start fits yields]. rewrite batch_of_size; unfold yield_limit; lia.
  - reflexivity.
Qed.

End MoreExampleRuns.

Section MoreWitnesses.
Import Batch Caf ExecNode Examples.

Lemma slice_stops_reading_witness :
  Slice.slice_operator (fun s => s) (Some 1) (Some 3)
    ([[0; 1]; [2; 3]] ++ [[4; 5]; [6]])
  = Slice.slice_operator (fun s => s) (Some 1) (Some 3) [[0; 1]; [2; 3]].
Proof.
  refine (slice_stops_reading (fun s => s) [[0; 1]; [2; 3]] [[4; 5]; [6]]
            1 3 _ _ _); cbn; lia.
Defined.

Lemma slice_negative_end_blocks_witness :
  exists results,
    Slice.slice_operator (fun s => s) (Some 1) (Some (-1))
      [[0; 1]; []; [2; 3]]
    = [[]] ++ results
    /\ Forall (fun slice => 0 < rows slice) results.
Proof.
  refine (slice_negative_end_blocks (fun s => s) [[0; 1]; []; [2; 3]] 1
            (Some (-1)) _ _).
  - intros e [= <-]. lia.
  - left. lia.
Defined.

Lemma slice_negative_begin_positive_end_witness :
  Slice.stream_rows
    (Slice.slice_operator (fun s => s) (Some (-2)) (Some 3) [[]; [0; 1; 2; 3]])
  = [2].
Proof.
  refine (proj2 (slice_negative_begin_positive_end (fun s => s)
                   [[]; [0; 1; 2; 3]] (-2) 3 _ _) _); cbn; lia.
Defined.

Lemma make_operator_succeeds_witness :
  exists op,
    snd (WriteTo.write_make_operator find_printer find_saver parse_name "json")
    = inr op.
Proof.
  apply (proj1 (make_operator_succeeds find_printer find_saver parse_name
                  parse_name "json")).
  exists json_printer, stdout_saver. split; [| reflexivity].
  exists "json"%string, None. cbn. repeat split.
  exists "stdout"%string, tt. split; reflexivity.
Defined.

Lemma make_operator_failures_witness :
  exists e,
    snd (WriteTo.write_make_operator find_printer find_saver parse_name "xml")
    = inl e
    /\ code e = syntax_error
    /\ ~ exists printer saver,
           WriteTo.write_resolves find_printer find_saver parse_name "xml"
             printer saver.
Proof.
  eexists. split; [reflexivity |]. split; [reflexivity |].
  intros (printer & saver & Hres).
  destruct (proj1 (make_operator_failures find_printer find_saver parse_name
                     parse_name "xml") _ eq_refl)
    as [[Hcode _] | [Hnone _]].
  - discriminate Hcode.
  - exact (Hnone printer saver Hres).
Defined.

Lemma write_to_mirror_witness :
  match
    snd (WriteTo.write_make_operator find_printer find_saver parse_write_json
           "write json to stdout"),
    snd (WriteTo.to_make_operator find_printer find_saver parse_to_stdout
           "to stdout write json")
  with
  | inr op_w, inr op_t => op_w = op_t
  | inl e_w, inl e_t => code e_w = code e_t
  | _, _ => False
  end.
Proof.
  exact (write_to_mirror find_printer find_saver parse_write_json
           parse_to_stdout "write json to stdout" "to stdout write json"
           EmptyString EmptyString "json" "stdout" "to" "write"
           eq_refl eq_refl).
Defined.

Lemma diagnostics_forwarded_witness :
  exists s',
    emit "source" context failed_read (@initial_state events events)
    = Ok tt s' [send_diagnostic failed_read]
    /\ has_seen_error_ s' = true
    /\ abort s' <> None.
Proof.
  destruct (proj1 (diagnostics_forwarded "source" context failed_read
                     (make_error logic_error "first")
                     (@initial_state events events)))
    as (s' & Hemit & _ & Herror & _).
  destruct (Herror eq_refl) as (Hseen & Habort & _).
  exists s'. split; [exact Hemit |]. split; [exact Hseen |].
  apply Habort. reflexivity.
Defined.

Lemma down_from_previous_witness :
  exists s' log,
    down_handler "stage" context 5%nat
      (Some (make_error unspecified "lost")) started_stage
    = Ok tt s' log
    /\ previous (inbound s') = None
    /\ run_scheduled s' = true
    /\ abort s' <> None.
Proof.
  destruct (proj2 (down_from_previous "stage" context 5%nat
                     (Some (make_error unspecified "lost")) started_stage)
              eq_refl)
    as (s' & log & Hrun & Hprev & _ & _ & _ & Hsched & Habort & _).
  exists s', log. split; [exact Hrun |]. split; [exact Hprev |].
  split; [apply Hsched; reflexivity | exact Habort].
Defined.

Lemma request_more_input_fits_witness :
  exists s' log,
    request_more_input started_stage = Ok tt s' log
    /\ log = [send_pull 5%nat (Ki 64) max_batch_timeout]
    /\ forall input : list events,
         0 < total input <= Ki 64 ->
         exists s2 log2, push input s' = Ok reply_void s2 log2.
Proof.
  destruct (request_more_input_fits false false "stage" context "exec-node"
              started_stage started_stage_reachable)
    as (s' & log & Hrun & Hcases & _ & Hfits).
  exists s', log. split; [exact Hrun |]. split; [| exact Hfits].
  destruct Hcases as [(prev & Hprev & _ & _ & Hlog & _) | ([H | [H | H]] & _)].
  - injection Hprev as <-. exact Hlog.
  - discriminate H.
  - discriminate H.
  - vm_compute in H. discriminate H.
Defined.

Lemma deliver_batches_serves_witness :
  exists s' log,
    deliver_batches 0 true filled = Ok tt s' log
    /\ log = [send_push 7%nat [batch_of 1] true]
    /\ outbound_buffer (outbound s') = [batch_of 2].
Proof.
  destruct (deliver_batches_serves true false "source" context "exec-node"
              0 true
              {| rp := 1%nat; sink := 7%nat; batch_size := 1;
                 batch_timeout := 10; ongoing := false |}
              filled filled_reachable eq_refl eq_refl eq_refl)
    as (s' & log & Hrun & _ & _ & Hpush).
  destruct Hpush as (Hlog & _ & Hs'); [left; reflexivity | reflexivity |].
  exists s', log. split; [exact Hrun |]. split; [exact Hlog |].
  rewrite Hs'. reflexivity.
Defined.

Lemma push_reply_accounting_witness :
  exists s' log,
    push_handle_result 1 pushed = Ok tt s' log
    /\ outbound_buffer (outbound s') = [batch_of 1]
    /\ outbound_buffer_size (outbound s') = 1
    /\ current_demand (outbound s') = None
    /\ In (deliver 1%nat None) log.
Proof.
  destruct (proj1 (push_reply_accounting true false "source" context
                     "exec-node" 1
                     {| rp := 1%nat; sink := 7%nat; batch_size := 1;
                        batch_timeout := 10; ongoing := true |}
                     [batch_of 2] [] (make_error unspecified "lost") pushed
                     pushed_reachable eq_refl eq_refl
                     ltac:(vm_compute; split; congruence)))
    as (s' & log & Hrun & Hbuffer & Hsize & _ & _ & Hdemand & Hlog).
  exists s', log. split; [exact Hrun |]. split; [exact Hbuffer |].
  split; [exact Hsize |]. split; [exact Hdemand | exact Hlog].
Defined.

Lemma start_validates_witness :
  exists e,
    start true false "source" context "exec-node" 0%nat [5%nat]
      (instantiate_generator {| calls := []; yields := None |})
      (@initial_state events events)
    = Ok (reply_error e) initial_state []
    /\ code e = logic_error.
Proof.
  apply (proj1 (start_validates true false "source" context "exec-node"
                  0%nat [5%nat]
                  (instantiate_generator {| calls := []; yields := None |})
                  (@initial_state events events))).
  right. left. split; [reflexivity | discriminate].
Defined.

Lemma counters_match_buffers_witness :
  outbound_buffer_size (outbound filled)
  = total (outbound_buffer (outbound filled))
  /\ (inbound_buffer_size (inbound filled) = 0
      <-> inbound_buffer (inbound filled) = []).
Proof.
  destruct (counters_match_buffers true false "source" context "exec-node"
              filled filled_reachable) as (_ & Hout & Hin & _).
  split; [exact Hout | exact Hin].
Defined.

Lemma rejects_only_when_drained_witness :
  at_end rejecting = true
  /\ outbound_buffer (outbound rejecting) = []
  /\ outbound_buffer_size (outbound rejecting) = 0
  /\ current_demand (outbound rejecting) = None.
Proof.
  exact (rejects_only_when_drained true false "source" context "exec-node"
           rejecting rejecting_reachable eq_refl).
Defined.

Lemma what_is_set_stays_set_witness :
  (at_end filled = true -> at_end pushed = true)
  /\ (has_instance filled = true -> has_instance pushed = true).
Proof.
  destruct (what_is_set_stays_set true false "source" context "exec-node"
              run_to_end filled pushed
              [send_push 7%nat [batch_of 1] true; schedule_run_action]
              filled_reachable eq_refl)
    as (_ & _ & _ & Hinstance & Hend & _).
  split; [exact Hend | exact Hinstance].
Defined.

Lemma one_run_pending_witness :
  run_scheduled filled = true
  /\ pending_runs pushed
     = scheduled_runs
         [send_push 7%nat [batch_of 1] true; schedule_run_action].
Proof.
  exact (proj2 (one_run_pending true false "source" context "exec-node"
                  run_to_end filled pushed
                  [send_push 7%nat [batch_of 1] true; schedule_run_action]
                  filled_reachable eq_refl)).
Defined.

Lemma only_the_run_talks_witness :
  Forall (fun a : @action events => outward a = false)
    [schedule_run_action; make_response_promise 1%nat].
Proof.
  refine (only_the_run_talks true false "source" context "exec-node"
            pull_one
            (after true false "source" context "exec-node" (start_with 2)
               initial_state)
            asked _ _ eq_refl).
  intros now r. discriminate.
Defined.

Lemma run_pushes_what_is_asked_witness :
  exists d,
    current_demand (outbound filled) = Some d
    /\ ongoing d = false
    /\ 7%nat = sink d
    /\ [batch_of 1]
       = fst (split_vec (outbound_buffer (outbound filled))
                (Z.min (outbound_buffer_size (outbound filled))
                   (batch_size d)))
    /\ total [batch_of 1]
       = Z.min (outbound_buffer_size (outbound filled)) (batch_size d)
    /\ 0 < total [batch_of 1] <= batch_size d
    /\ true
       = (at_end filled
          || (max_buffered (T := events)
              <=? outbound_buffer_size (outbound filled)))
    /\ current_demand (outbound pushed) = Some (set_ongoing true d).
Proof.
  refine (run_pushes_what_is_asked true false "source" context "exec-node"
            0 {| calls := []; yields := None |} filled pushed
            [send_push 7%nat [batch_of 1] true; schedule_run_action]
            7%nat [batch_of 1] true filled_reachable eq_refl _).
  left. reflexivity.
Defined.

Lemma run_ends_when_done_witness :
  In (quit None)
     (emitted true false "source" context "exec-node" run_to_end rejecting)
  /\ at_end rejecting = true
  /\ outbound_buffer (outbound rejecting) = []
  /\ current_demand (outbound rejecting) = None.
Proof.
  assert (Hquit : In (@quit events None) [quit None]) by (left; reflexivity).
  destruct (proj1 (proj2 (run_ends_when_done true false "source" context
                            "exec-node" 0 {| calls := []; yields := None |}
                            rejecting
                            (after true false "source" context "exec-node"
                               run_to_end rejecting)
                            [quit None] rejecting_reachable eq_refl)) Hquit)
    as [Hend Hempty].
  split; [exact Hquit |]. split; [exact Hend |]. exact (Hempty eq_refl).
Defined.

Lemma full_buffer_stalls_operator_witness :
  let s' := after true false "source" context "exec-node" run_on backed_up in
  instance s' = instance backed_up
  /\ outbound_buffer (outbound s') = outbound_buffer (outbound backed_up)
  /\ forall to batch await,
       In (send_push to batch await)
          (emitted true false "source" context "exec-node" run_on backed_up)
       -> await = true.
Proof.
  refine (full_buffer_stalls_operator true false "source" context "exec-node"
            0 {| calls := []; yields := Some (batch_of 1) |} backed_up
            (after true false "source" context "exec-node" run_on backed_up)
            (emitted true false "source" context "exec-node" run_on
               backed_up)
            backed_up_reachable eq_refl _ _).
  - vm_compute. discriminate.
  - apply handle_after. vm_compute. reflexivity.
Defined.

End MoreWitnesses.
(* ================================================================= *)
(** ** The claims on the buffer bound and on a rejecting node, at concrete
    inputs *)

Section BufferOvershoot.
Import Batch Caf ExecNode Examples.

(** C1. A source whose operator yields batches of [Ki 64] rows, the size of
    a batch a node asks for, is asked for one row and runs while the push of
    that row is not answered.  After three batches the outbound buffer holds
    [Ki 192] rows, which is below [max_buffered], the "upper bound for the
    inbound and outbound buffer"; [advance_generator] tests no more than
    that and appends the fourth batch whole: the buffer then holds [Ki 256]
    rows, more than [max_buffered].  [push] tests the sum before it
    appends. *)
Lemma advance_generator_overshoots :
  source_reachable four_batches
  /\ outbound_buffer_size (outbound three_batches) = Ki 192
  /\ source_handle run_to_end three_batches
     = Ok tt four_batches [schedule_run_action]
  /\ map size (outbound_buffer (outbound four_batches))
     = [Ki 64; Ki 64; Ki 64; Ki 64]
  /\ outbound_buffer_size (outbound four_batches) = Ki 256
  /\ max_buffered (T := events) = Ki 254
  /\ max_buffered (T := events) < outbound_buffer_size (outbound four_batches).
Proof.
  assert (Hfits : forall n, 0 <= n < yield_limit ->
            fits {| calls := []; yields := Some (batch_of n) |}).
  { intros n Hn. cbn [fits yields]. rewrite batch_of_size; lia. }
  assert (Hki : 0 <= Ki 64 < yield_limit) by (unfold yield_limit, Ki; lia).
  assert (Hthree : source_reachable three_batches).
  { do 4 (apply reachable_after;
            [| first [exact (Hfits _ Hki) | cbn; lia]
             | vm_compute; reflexivity]).
    apply started_reachable. exact Hki. }
  assert (Hsize : outbound_buffer_size (outbound four_batches) = Ki 256)
    by (vm_compute; reflexivity).
  split.
  { apply reachable_after; [exact Hthree | exact I | vm_compute; reflexivity]. }
  split; [vm_compute; reflexivity |].
  split.
  { unfold source_handle, four_batches.
    rewrite (handle_after true false "source" context "exec-node"
               run_to_end three_batches) by (vm_compute; reflexivity).
    f_equal; vm_compute; reflexivity. }
  split; [vm_compute; reflexivity |].
  split; [exact Hsize |]. split; [reflexivity |].
  rewrite Hsize. reflexivity.
Qed.

End BufferOvershoot.

Section RejectingPull.
Import Batch Caf ExecNode Examples.



End RejectingPull.
